(** * Selective inference: selection-event builders and Simes/BH sieves

    A shallow embedding of

      - [selection/SLOPE/slope.py]                   (class [randomized_slope])
      - [selection/randomized/marginal_screening.py] (class [marginal_screening])
      - [selection/bayesian/cisEQTLS/Simes_selection.py]
                                                     ([BH_q], [simes_pvalue],
                                                      [simes_selection])

    Modelling conventions.

      - A NumPy float is a rational ([Q]); equality of floats is [Qeq] and
        every comparison of the source is the corresponding boolean test
        on [Q].  The arithmetic of the two classes and of [simes_selection]
        is field arithmetic.  Two places are modelled on the extended type
        [NpFloat.t], with [inf] and [nan]: the division by a zero
        denominator in the Pearson dispersion, and the rank tests of
        [BH_q], whose outcome at a bound that is met depends on the
        rounding of the bound; there the operations are the correctly
        rounded ones of IEEE-754 binary64 ([Binary64]).
      - A 1-d array is a [list]; a 2-d array is a [matrix] that carries its
        shape, so that arrays with zero rows or zero columns keep it.
      - A Python exception is a constructor of [Py.exn]; a computation that
        may raise returns a [Py.result]; a method that assigns attributes of
        [self] is a function from the object to a result and the object as
        the method left it, also when it raised.
      - The external collaborators (the convex solver, the loss, [argsort],
        the normal distribution function, the random draws) are parameters:
        classes whose fields are the functions the source calls. *)

From Stdlib Require Import QArith Qabs Qminmax Qfield Qround Qpower List Bool
  Arith Lia Lqa Permutation Sorted String Setoid Morphisms SetoidList.
Import ListNotations.

Set Implicit Arguments.

(** ** Python: exceptions, results, methods *)

Module Py.

Inductive exn : Set :=
| ValueError        (* shapes not aligned, cannot broadcast, empty min *)
| IndexError        (* index out of bounds, boolean index of wrong size *)
| LinAlgError       (* singular or non-square matrix given to inv *)
| UnboundLocalError (* a local read before any assignment *)
| AttributeError    (* an attribute read before the method that sets it *)
| KeyError.         (* a dict lookup that misses *)

Inductive result (A : Type) : Type :=
| Ok (a : A)
| Raise (e : exn).
Arguments Ok {A} a.
Arguments Raise {A} e.

Definition bind {A B} (m : result A) (k : A -> result B) : result B :=
  match m with
  | Ok a => k a
  | Raise e => Raise e
  end.

Definition of_option {A} (e : exn) (o : option A) : result A :=
  match o with
  | Some a => Ok a
  | None => Raise e
  end.

Fixpoint mapM {A B} (f : A -> result B) (l : list A) : result (list B) :=
  match l with
  | [] => Ok []
  | a :: l' =>
      bind (f a) (fun b => bind (mapM f l') (fun bs => Ok (b :: bs)))
  end.

(** A method of an object of type [S]: it reads and assigns attributes
    and either returns or raises; the object is returned in both cases. *)
Definition method (S A : Type) : Type := S -> result A * S.

Definition ret {S A} (a : A) : method S A := fun s => (Ok a, s).

Definition mbind {S A B} (m : method S A) (k : A -> method S B)
  : method S B :=
  fun s =>
    match m s with
    | (Ok a, s') => k a s'
    | (Raise e, s') => (Raise e, s')
    end.

Definition lift {S A} (r : result A) : method S A := fun s => (r, s).

Definition read {S A} (f : S -> A) : method S A := fun s => (Ok (f s), s).

(** Reads an attribute that exists only once some method has set it. *)
Definition getattr {S A} (f : S -> option A) : method S A :=
  fun s => (of_option AttributeError (f s), s).

Definition assign {S} (f : S -> S) : method S unit :=
  fun s => (Ok tt, f s).

End Py.

Import Py.

Declare Scope py_scope.
Delimit Scope py_scope with py.
Notation "x <- m ;; k" := (Py.mbind m (fun x => k))
  (at level 61, m at next level, right associativity) : py_scope.
Notation "m ;; k" := (Py.mbind m (fun _ => k))
  (at level 61, right associativity) : py_scope.
Notation "'let?' x := m 'in' k" := (Py.bind m (fun x => k))
  (at level 10, x name, m at level 100, k at level 200).
Notation "'let?' ' p := m 'in' k" :=
  (Py.bind m (fun x => match x with p => k end))
  (at level 10, p pattern, m at level 100, k at level 200).

Open Scope Q_scope.

(** ** NumPy: the array operations the three modules use *)

Module Np.

Definition vec : Type := list Q.
Definition mask : Type := list bool.

(** *** Scalars and ufuncs *)

Definition sign (x : Q) : Q :=
  match x ?= 0 with
  | Lt => -1
  | Eq => 0
  | Gt => 1
  end.

Definition fabs (x : Q) : Q := Qabs x.

Definition ne (x y : Q) : bool := negb (Qeq_bool x y).
Definition eq (x y : Q) : bool := Qeq_bool x y.
Definition le (x y : Q) : bool := Qle_bool x y.
Definition ge (x y : Q) : bool := Qle_bool y x.

(** A boolean used as a number: [True] is [1] and [False] is [0]. *)
Definition of_bool (b : bool) : Q := if b then 1 else 0.

Fixpoint map2 {A B C} (f : A -> B -> C) (a : list A) (b : list B)
  : list C :=
  match a, b with
  | x :: a', y :: b' => f x y :: map2 f a' b'
  | _, _ => []
  end.

(** A binary ufunc on 1-d operands: equal lengths go pointwise, an
    operand of length one is stretched, anything else cannot be
    broadcast. *)
Definition broadcast2 {A B C} (f : A -> B -> C) (a : list A) (b : list B)
  : result (list C) :=
  if Nat.eqb (length a) (length b) then Ok (map2 f a b)
  else match a, b with
       | [x], _ => Ok (map (f x) b)
       | _, [y] => Ok (map (fun x => f x y) a)
       | _, _ => Raise ValueError
       end.

Definition add (a b : vec) : result vec := broadcast2 Qplus a b.
Definition sub (a b : vec) : result vec := broadcast2 Qminus a b.
Definition mul (a b : vec) : result vec := broadcast2 Qmult a b.
Definition neg (a : vec) : vec := map Qopp a.
Definition smul (c : Q) (a : vec) : vec := map (Qmult c) a.

Definition sum (a : vec) : Q := fold_right Qplus 0 a.

Definition zeros (n : nat) : vec := repeat 0 n.
Definition arange (n : nat) : list nat := seq 0 n.

Definition invert (m : mask) : mask := map negb m.
Definition count_true (m : mask) : nat := length (filter (fun b => b) m).
Definition any (m : mask) : bool := existsb (fun b => b) m.

(** *** Indexing *)

(** [a[m]] for a boolean array [m]. *)
Fixpoint select {A} (m : mask) (a : list A) : list A :=
  match m, a with
  | b :: m', x :: a' => if b then x :: select m' a' else select m' a'
  | _, _ => []
  end.

Definition getmask {A} (a : list A) (m : mask) : result (list A) :=
  if Nat.eqb (length m) (length a) then Ok (select m a)
  else Raise IndexError.

(** [a[m] = v] for an array [v] with one value per [True] of [m]. *)
Fixpoint scatter {A} (m : mask) (a v : list A) : list A :=
  match m, a with
  | true :: m', x :: a' =>
      match v with
      | y :: v' => y :: scatter m' a' v'
      | [] => x :: scatter m' a' []
      end
  | false :: m', x :: a' => x :: scatter m' a' v
  | _, _ => a
  end.

Definition setmask {A} (a : list A) (m : mask) (v : list A)
  : result (list A) :=
  if Nat.eqb (length m) (length a) then
    if Nat.eqb (length v) (count_true m) then Ok (scatter m a v)
    else match v with
         | [y] => Ok (scatter m a (repeat y (count_true m)))
         | _ => Raise ValueError
         end
  else Raise IndexError.

(** [a[m] = c] for a scalar [c]. *)
Definition setmask_scalar {A} (a : list A) (m : mask) (c : A)
  : result (list A) :=
  if Nat.eqb (length m) (length a)
  then Ok (map2 (fun (b : bool) x => if b then c else x) m a)
  else Raise IndexError.

(** [a[idx]] for an array of non-negative integers [idx]. *)
Definition take {A} (a : list A) (idx : list nat) : result (list A) :=
  mapM (fun i => of_option IndexError (nth_error a i)) idx.

Fixpoint set_nth {A} (i : nat) (x : A) (a : list A) : list A :=
  match a, i with
  | [], _ => []
  | _ :: a', O => x :: a'
  | y :: a', S i' => y :: set_nth i' x a'
  end.

(** [a[idx] = v] for an array of non-negative integers [idx]. *)
Fixpoint put {A} (a : list A) (idx : list nat) (v : list A)
  : result (list A) :=
  match idx, v with
  | [], [] => Ok a
  | i :: idx', x :: v' =>
      if Nat.ltb i (length a) then put (set_nth i x a) idx' v'
      else Raise IndexError
  | _, _ => Raise ValueError
  end.

(** *** Sorting *)

Fixpoint insert (x : Q) (l : vec) : vec :=
  match l with
  | [] => [x]
  | y :: l' => if Qle_bool x y then x :: l else y :: insert x l'
  end.

(** [np.sort]: the values in non-decreasing order. *)
Definition sort (a : vec) : vec := fold_right insert [] a.

Fixpoint dedup (l : vec) : vec :=
  match l with
  | [] => []
  | x :: l' =>
      match l' with
      | [] => [x]
      | y :: _ => if Qeq_bool x y then dedup l' else x :: dedup l'
      end
  end.

(** [np.unique]: the sorted distinct values. *)
Definition unique (a : vec) : vec := dedup (sort a).

(** [np.argsort] leaves the order of tied keys to the sorting kind, so
    it is taken by its contract: some permutation of the positions that
    lists the keys in non-decreasing order. *)
Class ArgSort : Type := {
  argsort : vec -> list nat;
  argsort_perm : forall a, Permutation (argsort a) (seq 0 (length a));
  argsort_sorted :
    forall a, StronglySorted Qle (map (fun i => nth i a 0) (argsort a))
}.

(** [np.min]; of an empty array it raises. *)
Definition min (a : vec) : result Q :=
  match a with
  | [] => Raise ValueError
  | x :: a' => Ok (fold_left Qmin a' x)
  end.

(** [np.max] of an array of integers. *)
Definition max_nat (a : list nat) : result nat :=
  match a with
  | [] => Raise ValueError
  | x :: a' => Ok (fold_left Nat.max a' x)
  end.

(** *** 2-d arrays *)

Record matrix : Type := Mat {
  nrows : nat;
  ncols : nat;
  rows : list vec
}.

Definition shape (A : matrix) : nat * nat := (nrows A, ncols A).

Definition mget (A : matrix) (i j : nat) : Q :=
  nth j (nth i (rows A) []) 0.

Definition build (n m : nat) (f : nat -> nat -> Q) : matrix :=
  Mat n m (map (fun i => map (f i) (seq 0 m)) (seq 0 n)).

Definition zeros2 (n m : nat) : matrix := build n m (fun _ _ => 0).

Definition identity (n : nat) : matrix :=
  build n n (fun i j => if Nat.eqb i j then 1 else 0).

(** [np.diag] of a 1-d array. *)
Definition diag (v : vec) : matrix :=
  build (length v) (length v)
    (fun i j => if Nat.eqb i j then nth i v 0 else 0).

Definition transpose (A : matrix) : matrix :=
  build (ncols A) (nrows A) (fun i j => mget A j i).

Definition mscale (A : matrix) (c : Q) : matrix :=
  build (nrows A) (ncols A) (fun i j => mget A i j * c).

Definition mneg (A : matrix) : matrix :=
  build (nrows A) (ncols A) (fun i j => - mget A i j).

Definition dotprod (n : nat) (f g : nat -> Q) : Q :=
  sum (map (fun k => f k * g k) (seq 0 n)).

Definition matmul (A B : matrix) : result matrix :=
  if Nat.eqb (ncols A) (nrows B)
  then Ok (build (nrows A) (ncols B)
             (fun i j => dotprod (ncols A) (mget A i)
                           (fun k => mget B k j)))
  else Raise ValueError.

Definition matvec (A : matrix) (v : vec) : result vec :=
  if Nat.eqb (ncols A) (length v)
  then Ok (map (fun i => dotprod (ncols A) (mget A i)
                           (fun k => nth k v 0))
             (seq 0 (nrows A)))
  else Raise ValueError.

Definition vecmat (v : vec) (B : matrix) : result vec :=
  if Nat.eqb (length v) (nrows B)
  then Ok (map (fun j => dotprod (length v) (fun k => nth k v 0)
                           (fun k => mget B k j))
             (seq 0 (ncols B)))
  else Raise ValueError.

(** The positions of the [True] entries, [np.nonzero(m)[0]]. *)
Fixpoint nonzero_from (i : nat) (m : mask) : list nat :=
  match m with
  | [] => []
  | b :: m' => if b then i :: nonzero_from (S i) m' else nonzero_from (S i) m'
  end.

Definition nonzero (m : mask) : list nat := nonzero_from 0 m.

(** [A[:, idx]] for an array of non-negative integers [idx]. *)
Definition take_cols (A : matrix) (idx : list nat) : result matrix :=
  if forallb (fun j => Nat.ltb j (ncols A)) idx
  then Ok (build (nrows A) (length idx)
             (fun i j => mget A i (nth j idx O)))
  else Raise IndexError.

(** [A[:, m]] for a boolean array [m]. *)
Definition getmask_cols (A : matrix) (m : mask) : result matrix :=
  if Nat.eqb (length m) (ncols A) then take_cols A (nonzero m)
  else Raise IndexError.

(** [A[m]] for a boolean array [m]: the rows at the [True] entries. *)
Definition getmask_rows (A : matrix) (m : mask) : result matrix :=
  if Nat.eqb (length m) (nrows A)
  then Ok (build (count_true m) (ncols A)
             (fun i j => mget A (nth i (nonzero m) O) j))
  else Raise IndexError.

(** The rank of [i] among the [True] entries of [m]. *)
Definition rank (m : mask) (i : nat) : nat := count_true (firstn i m).

(** [A[m, :] = B]: row [i] of [A], when [m[i]], becomes the row of [B]
    whose number is the rank of [i].  The source only assigns a [B] of
    the shape of [A[m, :]]; the shapes NumPy would stretch are refused
    here. *)
Definition setmask_rows (A : matrix) (m : mask) (B : matrix)
  : result matrix :=
  if Nat.eqb (length m) (nrows A) then
    if Nat.eqb (nrows B) (count_true m) && Nat.eqb (ncols B) (ncols A)
    then Ok (build (nrows A) (ncols A)
               (fun i j => if nth i m false then mget B (rank m i) j
                           else mget A i j))
    else Raise ValueError
  else Raise IndexError.

(** [A * w[:, None]]: row [i] scaled by [w[i]], with the stretching of
    a single row or a single weight. *)
Definition scale_rows (A : matrix) (w : vec) : result matrix :=
  if Nat.eqb (length w) (nrows A)
  then Ok (build (nrows A) (ncols A)
             (fun i j => mget A i j * nth i w 0))
  else match w with
       | [c] => Ok (mscale A c)
       | _ =>
           if Nat.eqb (nrows A) 1
           then Ok (build (length w) (ncols A)
                      (fun i j => mget A O j * nth i w 0))
           else Raise ValueError
       end.

(** *** [np.linalg.inv] by Gauss-Jordan elimination on [[A | I]] *)

Fixpoint find_pivot (c : nat) (rs : list vec) : option (vec * list vec) :=
  match rs with
  | [] => None
  | r :: rs' =>
      if ne (nth c r 0) 0 then Some (r, rs')
      else match find_pivot c rs' with
           | Some (p, rest) => Some (p, r :: rest)
           | None => None
           end
  end.

Definition eliminate (c : nat) (p r : vec) : vec :=
  map2 (fun x y => x - nth c r 0 * y) r p.

Fixpoint gauss_jordan (fuel c : nat) (done todo : list vec)
  : option (list vec) :=
  match fuel with
  | O => Some done
  | S fuel' =>
      match find_pivot c todo with
      | None => None
      | Some (p, rest) =>
          let p' := smul (/ nth c p 0) p in
          gauss_jordan fuel' (S c)
            (map (eliminate c p') done ++ [p'])
            (map (eliminate c p') rest)
      end
  end.

(** A 0 x 0 array is returned as it is; a singular or a non-square
    array raises [LinAlgError]. *)
Definition inv (A : matrix) : result matrix :=
  if Nat.eqb (nrows A) (ncols A) then
    let n := nrows A in
    let aug := map2 (@app Q) (rows A) (rows (identity n)) in
    match gauss_jordan n 0 [] aug with
    | Some rs => Ok (Mat n n (map (skipn n) rs))
    | None => Raise LinAlgError
    end
  else Raise LinAlgError.

(** *** Arrays whose number of dimensions is decided at run time *)

Inductive ndarray : Type :=
| Arr0 (x : Q)
| Arr1 (v : vec)
| Arr2 (A : matrix).

(** [np.asarray] of a Python list of 1-d arrays of one length: the
    empty list gives the 1-d array of shape [(0,)]. *)
Definition asarray (l : list vec) : ndarray :=
  match l with
  | [] => Arr1 []
  | r :: _ => Arr2 (Mat (length l) (length r) l)
  end.

Definition T (a : ndarray) : ndarray :=
  match a with
  | Arr2 A => Arr2 (transpose A)
  | _ => a
  end.

Definition nd_scale (a : ndarray) (c : Q) : ndarray :=
  match a with
  | Arr0 x => Arr0 (x * c)
  | Arr1 v => Arr1 (map (fun x => x * c) v)
  | Arr2 A => Arr2 (mscale A c)
  end.

Definition nd_neg (a : ndarray) : ndarray :=
  match a with
  | Arr0 x => Arr0 (- x)
  | Arr1 v => Arr1 (neg v)
  | Arr2 A => Arr2 (mneg A)
  end.

(** [a.dot(b)]. *)
Definition dot (a b : ndarray) : result ndarray :=
  match a, b with
  | Arr0 x, _ => Ok (nd_scale b x)
  | _, Arr0 y => Ok (nd_scale a y)
  | Arr1 u, Arr1 v =>
      if Nat.eqb (length u) (length v)
      then Ok (Arr0 (dotprod (length u) (fun k => nth k u 0)
                       (fun k => nth k v 0)))
      else Raise ValueError
  | Arr1 u, Arr2 B => let? r := vecmat u B in Ok (Arr1 r)
  | Arr2 A, Arr1 v => let? r := matvec A v in Ok (Arr1 r)
  | Arr2 A, Arr2 B => let? r := matmul A B in Ok (Arr2 r)
  end.

Definition linalg_inv (a : ndarray) : result ndarray :=
  match a with
  | Arr2 A => let? r := inv A in Ok (Arr2 r)
  | _ => Raise LinAlgError
  end.

(** The [shape] attribute, as a list of extents. *)
Definition nd_shape (a : ndarray) : list nat :=
  match a with
  | Arr0 _ => []
  | Arr1 v => [length v]
  | Arr2 A => [nrows A; ncols A]
  end.

End Np.

(** ** The sampler's collaborators

    [selection.randomized.randomization], [selection.constraints.affine]
    and [selection.randomized.query] are used by the two builders only
    through the constructor calls and the [cov_prec] attribute below. *)

Module Query.

Import Np.

(** A precision is "a full matrix or an isotropic scalar". *)
Inductive precision : Type :=
| Scalar (c : Q)
| Dense (M : matrix).

(** Modelled from the spec: the Randomizer of section 4.1, which is not
    among the sources.  [cov_prec] is the pair (covariance, precision),
    "scalar multiples of identity for isotropic case" and kept as the
    scalars; [sample()] is the [draw] argument of the [fit] methods. *)
Record randomization : Type := {
  rand_shape : nat;
  cov_prec : precision * precision
}.

(** Modelled from the spec: [randomization.isotropic_gaussian], "isotropic
    Gaussian with scalar scale", variance [scale^2] on every coordinate;
    "scale > 0 is a precondition". *)
Definition isotropic_gaussian (shape : nat) (scale : Q) : randomization :=
  {| rand_shape := shape;
     cov_prec := (Scalar (scale * scale), Scalar (/ (scale * scale))) |}.

(** The dict [{'sign': ..., 'variables': ...}]. *)
Record selection_info : Type := {
  sign : vec;
  variables : mask
}.

(** Modelled from the spec: the affine constraint region of section 3,
    [{u : A u <= b}] "paired with (cond_mean, cond_cov)"; the constructor
    [constraints(A, b, mean=, covariance=)] stores its arguments. *)
Record constraints : Type := {
  linear_part : matrix;
  offset : vec;
  mean : ndarray;
  covariance : ndarray
}.

(** [functools.partial(log_density, logdens_linear, opt_offset,
    cond_precision)]: the three bound arguments. *)
Record log_density : Type := {
  bound_logdens_linear : ndarray;
  bound_offset : vec;
  bound_cond_prec : ndarray
}.

(** Modelled from the spec: the frozen sampler object of sections 3 and
    4.3; the constructor [affine_gaussian_sampler(...)] stores its
    arguments. *)
Record affine_gaussian_sampler : Type := {
  affine_con : constraints;
  sampler_observed_opt_state : vec;
  sampler_observed_score_state : vec;
  sampler_log_density : log_density;
  logdens_transform : ndarray * vec;
  sampler_selection_info : selection_info
}.

End Query.

(** ** SciPy and NumPy functions with irrational values *)

Class Special : Type := {
  np_sqrt : Q -> Q;      (* np.sqrt *)
  norm_ppf : Q -> Q;     (* scipy.stats.norm.ppf *)
  norm_cdf : Q -> Q      (* scipy.stats.norm.cdf *)
}.

(** ** [selection/randomized/marginal_screening.py] *)

Module Screening.

Import Np.

(** [marginal_screening_selection(p_values, level)]. *)
Definition marginal_screening_selection {AS : ArgSort} (p_values : vec)
    (level : Q) : mask :=
  let m := length p_values in
  let p_sorted := sort p_values in
  let indices := arange m in
  let indices_order := argsort p_values in
  let active := map (fun pv => le pv level) p_values in
  active.

(** The attributes of a [marginal_screening] object; the attributes that
    only [fit] assigns are absent ([None]) before it. *)
Record marginal_screening : Type := {
  observed_score_state : vec;
  nfeature : nat;
  covariance : matrix;
  randomizer : Query.randomization;
  _initial_omega : option vec;
  marginal_level : Q;
  threshold : vec;
  initial_soln : option vec;
  _selected : option mask;
  _not_selected : option mask;
  selection_variable : option Query.selection_info;
  observed_opt_state : option vec;
  num_opt_var : option nat;
  opt_transform : option (matrix * vec);
  _setup : option bool;
  sampler : option Query.affine_gaussian_sampler
}.

Definition set_initial_omega (v : option vec) (self : marginal_screening)
  : marginal_screening :=
  let '(Build_marginal_screening f0 f1 f2 f3 _ f5 f6 f7 f8 f9 f10 f11 f12 f13 f14 f15) := self in
  Build_marginal_screening f0 f1 f2 f3 v f5 f6 f7 f8 f9 f10 f11 f12 f13 f14 f15.

Definition set_initial_soln (v : option vec) (self : marginal_screening)
  : marginal_screening :=
  let '(Build_marginal_screening f0 f1 f2 f3 f4 f5 f6 _ f8 f9 f10 f11 f12 f13 f14 f15) := self in
  Build_marginal_screening f0 f1 f2 f3 f4 f5 f6 v f8 f9 f10 f11 f12 f13 f14 f15.

Definition set_selected (v : option mask) (self : marginal_screening)
  : marginal_screening :=
  let '(Build_marginal_screening f0 f1 f2 f3 f4 f5 f6 f7 _ f9 f10 f11 f12 f13 f14 f15) := self in
  Build_marginal_screening f0 f1 f2 f3 f4 f5 f6 f7 v f9 f10 f11 f12 f13 f14 f15.

Definition set_not_selected (v : option mask) (self : marginal_screening)
  : marginal_screening :=
  let '(Build_marginal_screening f0 f1 f2 f3 f4 f5 f6 f7 f8 _ f10 f11 f12 f13 f14 f15) := self in
  Build_marginal_screening f0 f1 f2 f3 f4 f5 f6 f7 f8 v f10 f11 f12 f13 f14 f15.

Definition set_selection_variable (v : option Query.selection_info) (self : marginal_screening)
  : marginal_screening :=
  let '(Build_marginal_screening f0 f1 f2 f3 f4 f5 f6 f7 f8 f9 _ f11 f12 f13 f14 f15) := self in
  Build_marginal_screening f0 f1 f2 f3 f4 f5 f6 f7 f8 f9 v f11 f12 f13 f14 f15.

Definition set_observed_opt_state (v : option vec) (self : marginal_screening)
  : marginal_screening :=
  let '(Build_marginal_screening f0 f1 f2 f3 f4 f5 f6 f7 f8 f9 f10 _ f12 f13 f14 f15) := self in
  Build_marginal_screening f0 f1 f2 f3 f4 f5 f6 f7 f8 f9 f10 v f12 f13 f14 f15.

Definition set_num_opt_var (v : option nat) (self : marginal_screening)
  : marginal_screening :=
  let '(Build_marginal_screening f0 f1 f2 f3 f4 f5 f6 f7 f8 f9 f10 f11 _ f13 f14 f15) := self in
  Build_marginal_screening f0 f1 f2 f3 f4 f5 f6 f7 f8 f9 f10 f11 v f13 f14 f15.

Definition set_opt_transform (v : option (matrix * vec)) (self : marginal_screening)
  : marginal_screening :=
  let '(Build_marginal_screening f0 f1 f2 f3 f4 f5 f6 f7 f8 f9 f10 f11 f12 _ f14 f15) := self in
  Build_marginal_screening f0 f1 f2 f3 f4 f5 f6 f7 f8 f9 f10 f11 f12 v f14 f15.

Definition set_setup (v : option bool) (self : marginal_screening)
  : marginal_screening :=
  let '(Build_marginal_screening f0 f1 f2 f3 f4 f5 f6 f7 f8 f9 f10 f11 f12 f13 _ f15) := self in
  Build_marginal_screening f0 f1 f2 f3 f4 f5 f6 f7 f8 f9 f10 f11 f12 f13 v f15.

Definition set_sampler (v : option Query.affine_gaussian_sampler) (self : marginal_screening)
  : marginal_screening :=
  let '(Build_marginal_screening f0 f1 f2 f3 f4 f5 f6 f7 f8 f9 f10 f11 f12 f13 f14 _) := self in
  Build_marginal_screening f0 f1 f2 f3 f4 f5 f6 f7 f8 f9 f10 f11 f12 f13 f14 v.

(** [np.diag] of a 2-d array: its diagonal. *)
Definition diagonal (A : matrix) : vec :=
  map (fun i => mget A i i) (seq 0 (Nat.min (nrows A) (ncols A))).

(** [marginal_screening.__init__]. *)
Definition init `{Special} (observed_data : vec) (covariance : matrix)
    (randomizer_scale marginal_level : Q) (perturb : option vec)
  : marginal_screening :=
  let observed_score_state := neg observed_data in
  let p := length observed_score_state in
  let randomized_stdev :=
    map (fun d => np_sqrt (d + randomizer_scale * randomizer_scale))
      (diagonal covariance) in
  {| observed_score_state := observed_score_state;
     nfeature := p;
     covariance := covariance;
     randomizer := Query.isotropic_gaussian p randomizer_scale;
     _initial_omega := perturb;
     marginal_level := marginal_level;
     threshold :=
       map (fun sd => sd * norm_ppf (1 - marginal_level / 2))
         randomized_stdev;
     initial_soln := None;
     _selected := None;
     _not_selected := None;
     selection_variable := None;
     observed_opt_state := None;
     num_opt_var := None;
     opt_transform := None;
     _setup := None;
     sampler := None |}.

(** [np.sign(Z) * (np.fabs(Z) - threshold) * (np.fabs(Z) >= threshold)] *)
Definition soft_threshold (Z threshold : vec) : result vec :=
  let? excess := sub (map fabs Z) threshold in
  let? signed := mul (map sign Z) excess in
  let? keep := broadcast2 ge (map fabs Z) threshold in
  mul signed (map of_bool keep).

(** The conditional Gaussian of lines 78-87: [cond_precision],
    [cond_cov] and [logdens_linear], for a scalar and for a dense
    precision. *)
Definition conditional_gaussian (opt_linear : matrix)
    (prec : Query.precision) : result (matrix * matrix * matrix) :=
  match prec with
  | Query.Scalar c =>
      let? gram := matmul (transpose opt_linear) opt_linear in
      let cond_precision := mscale gram c in
      let? cond_cov := inv cond_precision in
      let? m := matmul cond_cov (transpose opt_linear) in
      Ok (cond_precision, cond_cov, mscale m c)
  | Query.Dense P =>
      let? pl := matmul P opt_linear in
      let? cond_precision := matmul (transpose opt_linear) pl in
      let? cond_cov := inv cond_precision in
      let? m := matmul cond_cov (transpose opt_linear) in
      let? logdens_linear := matmul m P in
      Ok (cond_precision, cond_cov, logdens_linear)
  end.

(** [logdens_linear.dot(-self.observed_score_state - opt_offset)] *)
Definition cond_mean (logdens_linear : matrix)
    (observed_score_state opt_offset : vec) : result vec :=
  let? arg := sub (neg observed_score_state) opt_offset in
  matvec logdens_linear arg.

Open Scope py_scope.

(** [marginal_screening.fit(perturb=None)]; [draw] is what
    [self.randomizer.sample()] returns when it is called. *)
Definition fit (perturb : option vec) (draw : vec)
  : method marginal_screening mask :=
  p <- read nfeature ;;
(* take a new perturbation if supplied *)
match perturb with
| Some w => assign (set_initial_omega (Some w))
| None => ret tt
end ;;
stored <- read _initial_omega ;;
match stored with
| None => assign (set_initial_omega (Some draw))
| Some _ => ret tt
end ;;
omega <- getattr _initial_omega ;;
score <- read observed_score_state ;;
_randomized_score <- lift (sub score omega) ;;
let Z := neg _randomized_score in
thr <- read threshold ;;
soft_thresh <- lift (soft_threshold Z thr) ;;
let active := map (fun x => ne x 0) soft_thresh in
assign (set_initial_soln (Some soft_thresh)) ;;
assign (set_selected (Some active)) ;;
selected <- getattr _selected ;;
assign (set_not_selected (Some (invert selected))) ;;
not_selected <- getattr _not_selected ;;
let sign0 := map sign Z in
active_signs <- lift (getmask sign0 selected) ;;
sign1 <- lift (setmask_scalar sign0 not_selected 0) ;;
assign (set_selection_variable
          (Some {| Query.sign := sign1; Query.variables := selected |})) ;;
selected_soln <- lift (getmask soft_thresh selected) ;;
assign (set_observed_opt_state (Some (map fabs selected_soln))) ;;
opt_state <- getattr observed_opt_state ;;
assign (set_num_opt_var (Some (length opt_state))) ;;
k <- getattr num_opt_var ;;
opt_linear <- lift (setmask_rows (zeros2 p k) selected
                      (diag active_signs)) ;;
thr_selected <- lift (getmask thr selected) ;;
signed_thr <- lift (mul active_signs thr_selected) ;;
opt_offset1 <- lift (setmask (zeros p) selected signed_thr) ;;
score_not_selected <- lift (getmask _randomized_score not_selected) ;;
opt_offset <- lift (setmask opt_offset1 not_selected
                      score_not_selected) ;;
assign (set_opt_transform (Some (opt_linear, opt_offset))) ;;
assign (set_setup (Some true)) ;;
rnd <- read randomizer ;;
let prec := snd (Query.cov_prec rnd) in
gaussian <- lift (conditional_gaussian opt_linear prec) ;;
let '(cond_precision, cond_cov, logdens_linear) := gaussian in
mean <- lift (cond_mean logdens_linear score opt_offset) ;;
let logdens_transform := (Arr2 logdens_linear, opt_offset) in
let A_scaling := mneg (identity (length active_signs)) in
let b_scaling := zeros k in
let log_density :=
  {| Query.bound_logdens_linear := Arr2 logdens_linear;
     Query.bound_offset := opt_offset;
     Query.bound_cond_prec := Arr2 cond_precision |} in
let affine_con :=
  {| Query.linear_part := A_scaling;
     Query.offset := b_scaling;
     Query.mean := Arr1 mean;
     Query.covariance := Arr2 cond_cov |} in
info <- getattr selection_variable ;;
assign (set_sampler
          (Some {| Query.affine_con := affine_con;
                   Query.sampler_observed_opt_state := opt_state;
                   Query.sampler_observed_score_state := score;
                   Query.sampler_log_density := log_density;
                   Query.logdens_transform := logdens_transform;
                   Query.sampler_selection_info := info |})) ;;
getattr _selected.

Close Scope py_scope.

(** *** Targets of inference *)

(** The tuple [(observed_target, cov_target, crosscov_target_score.T,
    alternatives)] the two target methods return. *)
Record targets : Type := {
  observed_target : vec;
  cov_target : matrix;
  crosscov_target_score : matrix;
  alternatives : list string
}.

(** [marginal_screening.marginal_targets(features)]; [features] is a
    boolean array. *)
Definition marginal_targets (features : mask) (self : marginal_screening)
  : result targets :=
  let? score_linear := getmask_cols (covariance self) features in
  let? Qm := getmask_rows score_linear features in
  let cov_target := Qm in
  let? score_features := getmask (observed_score_state self) features in
  let observed_target := neg score_features in
  let crosscov_target_score := mneg score_linear in
  let alternatives := repeat "twosided"%string (count_true features) in
  Ok {| observed_target := observed_target;
        cov_target := cov_target;
        crosscov_target_score := transpose crosscov_target_score;
        alternatives := alternatives |}.

(** *** Inference from the sampler

    The methods of [self.sampler] that [summary] and [selective_MLE]
    call are modelled from the spec, section 4.3, which gives them as
    functions of their arguments that return or fail; [opt_sample] is
    what [self.sampler.sample(ndraw, burnin)] returns. *)

Section Inference.

Context {Sample Pvalues Intervals Estimate SolveArgs : Type}.

Variable coefficient_pvalues :
  Query.affine_gaussian_sampler -> vec -> matrix -> matrix ->
  vec (* parameter *) -> Sample -> list string -> result Pvalues.
Variable confidence_intervals :
  Query.affine_gaussian_sampler -> vec -> matrix -> matrix ->
  Sample -> Q (* level *) -> result Intervals.
Variable sampler_selective_MLE :
  Query.affine_gaussian_sampler -> vec -> matrix -> matrix ->
  vec (* observed_opt_state *) -> SolveArgs -> result Estimate.

(** [marginal_screening.summary(observed_target, cov_target,
    cov_target_score, alternatives, parameter=None, level=0.9,
    ndraw=10000, burnin=2000, compute_intervals=False)]. *)
Definition summary (observed_target : vec)
    (cov_target cov_target_score : matrix) (alternatives : list string)
    (parameter : option vec) (level : Q) (ndraw burnin : nat)
    (compute_intervals : bool) (opt_sample : Sample)
    (self : marginal_screening)
  : result (Pvalues * Pvalues * option Intervals) :=
  let parameter :=
    match parameter with
    | None => zeros (length observed_target)
    | Some v => v
    end in
  let? smp := of_option AttributeError (sampler self) in
  let? pivots := coefficient_pvalues smp observed_target cov_target
                   cov_target_score parameter opt_sample alternatives in
  let? pvalues :=
    if negb (forallb (fun x => eq x 0) parameter)
    then coefficient_pvalues smp observed_target cov_target
           cov_target_score (map (fun _ => 0) parameter) opt_sample
           alternatives
    else Ok pivots in
  let? intervals :=
    if compute_intervals
    then let? i := confidence_intervals smp observed_target cov_target
                     cov_target_score opt_sample level in
         Ok (Some i)
    else Ok None in
  Ok (pivots, pvalues, intervals).

(** [marginal_screening.selective_MLE(observed_target, cov_target,
    cov_target_score, level=0.9, solve_args={'tol':1.e-12})]. *)
Definition selective_MLE (observed_target : vec)
    (cov_target cov_target_score : matrix) (level : Q)
    (solve_args : SolveArgs) (self : marginal_screening)
  : result Estimate :=
  let? smp := of_option AttributeError (sampler self) in
  let? opt_state := of_option AttributeError (observed_opt_state self) in
  sampler_selective_MLE smp observed_target cov_target cov_target_score
    opt_state solve_args.

End Inference.

End Screening.

(** ** regreg: the loss and the convex solver *)

Module Regreg.

Import Np.

(** A [regreg.smooth.glm.glm] loss, by the attributes and methods the
    builder calls. *)
Record glm : Type := {
  data : matrix * vec;                         (* loglike.data = (X, y) *)
  smooth_objective_grad : vec -> vec;          (* smooth_objective(b, 'grad') *)
  saturated_loss_hessian : vec -> vec;         (* saturated_loss.hessian *)
  saturated_loss_mean_function : vec -> vec    (* saturated_loss.mean_function *)
}.

(** [loglike.shape] is [(p,)], the number of columns of the design. *)
Definition shape (loglike : glm) : nat := ncols (fst (data loglike)).

(** [rr.identity_quadratic(coef, center, linear_term, constant_term)] *)
Record identity_quadratic : Type := {
  coef : Q;
  center : Q;
  linear_term : vec;
  constant_term : Q
}.

(** [regreg.atoms.slope.slope(weights, lagrange=...)] *)
Record slope : Type := {
  weights : vec;
  lagrange : Q
}.

(** The keyword arguments of the solver. *)
Record solve_args : Type := {
  tol : Q;
  min_its : option nat
}.

(** The oracle: [quad.objective(x, 'grad')],
    [rr.simple_problem(loglike, penalty).solve(quad, **solve_args)] and
    [restricted_estimator(loglike, active, solve_args=...)]; each is a
    function of its arguments. *)
Class Solver : Type := {
  quadratic_grad : identity_quadratic -> vec -> vec;
  solve : glm -> slope -> identity_quadratic -> solve_args -> vec;
  restricted_estimator : glm -> mask -> solve_args -> vec
}.

End Regreg.

(** ** IEEE quotients: division by zero gives [inf] or [nan] *)

Module NpFloat.

Inductive t : Type :=
| Fin (q : Q)
| PInf
| NInf
| NaN.

Definition is_finite (x : t) : bool :=
  match x with
  | Fin _ => true
  | _ => false
  end.

Definition opp (x : t) : t :=
  match x with
  | Fin q => Fin (- q)
  | PInf => NInf
  | NInf => PInf
  | NaN => NaN
  end.

(** The infinity of the sign of [q], [nan] for zero. *)
Definition inf_of_sign (q : Q) : t :=
  match q ?= 0 with
  | Gt => PInf
  | Lt => NInf
  | Eq => NaN
  end.

Definition add (x y : t) : t :=
  match x, y with
  | NaN, _ | _, NaN => NaN
  | Fin a, Fin b => Fin (a + b)
  | PInf, NInf | NInf, PInf => NaN
  | PInf, _ | _, PInf => PInf
  | NInf, _ | _, NInf => NInf
  end.

Definition mul (x y : t) : t :=
  match x, y with
  | NaN, _ | _, NaN => NaN
  | Fin a, Fin b => Fin (a * b)
  | Fin a, PInf | PInf, Fin a => inf_of_sign a
  | Fin a, NInf | NInf, Fin a => opp (inf_of_sign a)
  | PInf, PInf | NInf, NInf => PInf
  | PInf, NInf | NInf, PInf => NInf
  end.

(** [x / y] for finite operands; the zero of [Q] stands for [+0.0]. *)
Definition div_fin (a b : Q) : t :=
  if Qeq_bool b 0 then inf_of_sign a else Fin (a / b).

Definition div (x y : t) : t :=
  match x, y with
  | NaN, _ | _, NaN => NaN
  | Fin a, Fin b => div_fin a b
  | Fin _, _ => Fin 0
  | PInf, Fin b => if Qle_bool 0 b then PInf else NInf
  | NInf, Fin b => if Qle_bool 0 b then NInf else PInf
  | _, _ => NaN
  end.

Definition sum (l : list t) : t := fold_left add l (Fin 0).

(** A 2-d array of floats that may hold [inf] and [nan]. *)
Record matrix : Type := Mat {
  nrows : nat;
  ncols : nat;
  rows : list (list t)
}.

(** [A * d] for a float [d]. *)
Definition scale (A : Np.matrix) (d : t) : matrix :=
  {| nrows := Np.nrows A;
     ncols := Np.ncols A;
     rows := map (map (fun a => mul (Fin a) d)) (Np.rows A) |}.

End NpFloat.

(** ** IEEE-754 binary64: the rounding of the NumPy float operations *)

Module Binary64.

Import NpFloat.

(** [floor (log2 |x|)], for [x <> 0]. *)
Definition ilog2 (x : Q) : Z :=
  let e := (Z.log2 (Z.abs (Qnum x)) - Z.log2 (Zpos (Qden x)))%Z in
  if Qle_bool (2 ^ e) (Qabs x) then e else (e - 1)%Z.

(** The integer nearest to [x], ties to even. *)
Definition rint (x : Q) : Z :=
  let n := Qfloor x in
  match Qcompare (x - inject_Z n) (1 # 2) with
  | Lt => n
  | Gt => (n + 1)%Z
  | Eq => if Z.even n then n else (n + 1)%Z
  end.

(** The spacing of the doubles around [x]: 53 significant bits, and
    [2^-1074] in the subnormal range. *)
Definition ulp (x : Q) : Q := 2 ^ (Z.max (ilog2 x - 52) (-1074)).

(** Round to nearest, ties to even; overflow gives the infinity. *)
Definition round (x : Q) : t :=
  if Qeq_bool x 0 then Fin 0
  else
    let y := inject_Z (rint (x / ulp x)) * ulp x in
    if Qle_bool (2 ^ 1024) (Qabs y) then inf_of_sign x else Fin y.

(** The result of an operation: its exact value, rounded. *)
Definition rnd (x : t) : t :=
  match x with
  | Fin q => round q
  | _ => x
  end.

(** The conversion of an integer to a float. *)
Definition of_nat (n : nat) : t := round (inject_Z (Z.of_nat n)).

Definition add (x y : t) : t := rnd (NpFloat.add x y).
Definition sub (x y : t) : t := rnd (NpFloat.add x (opp y)).
Definition mul (x y : t) : t := rnd (NpFloat.mul x y).
Definition div (x y : t) : t := rnd (NpFloat.div x y).

(** [x <= y]. *)
Definition le (x y : t) : bool :=
  match x, y with
  | NaN, _ | _, NaN => false
  | NInf, _ | _, PInf => true
  | Fin a, Fin b => Qle_bool a b
  | _, _ => false
  end.

(** The rationals that are doubles: rounding leaves them as they are. *)
Definition is_double (q : Q) : bool :=
  match round q with
  | Fin y => Qeq_bool y q
  | _ => false
  end.

End Binary64.

(** ** [selection/SLOPE/slope.py] *)

Module Slope.

Import Np.

(** The attributes of a [randomized_slope] object; the attributes that
    only [fit] assigns are absent ([None]) before it. *)
Record randomized_slope : Type := {
  loglike : Regreg.glm;
  nfeature : nat;
  feature_weights : vec;
  randomizer : Query.randomization;
  ridge_term : Q;
  penalty : Regreg.slope;
  _initial_omega : option vec;
  initial_soln : option vec;
  _active : option mask;
  _unpenalized : option mask;
  _overall : option mask;
  _inactive : option mask;
  selection_variable : option Query.selection_info;
  initial_subgrad : option vec;
  observed_opt_state : option vec;
  _beta_full : option vec;
  num_opt_var : option nat;
  _W : option vec;
  score_transform : option (matrix * vec);
  observed_score_state : option vec;
  opt_transform : option (ndarray * vec);
  sampler : option Query.affine_gaussian_sampler
}.

Definition set_initial_omega (v : option vec) (self : randomized_slope)
  : randomized_slope :=
  let '(Build_randomized_slope f0 f1 f2 f3 f4 f5 _ f7 f8 f9 f10 f11 f12 f13 f14 f15 f16 f17 f18 f19 f20 f21) := self in
  Build_randomized_slope f0 f1 f2 f3 f4 f5 v f7 f8 f9 f10 f11 f12 f13 f14 f15 f16 f17 f18 f19 f20 f21.

Definition set_initial_soln (v : option vec) (self : randomized_slope)
  : randomized_slope :=
  let '(Build_randomized_slope f0 f1 f2 f3 f4 f5 f6 _ f8 f9 f10 f11 f12 f13 f14 f15 f16 f17 f18 f19 f20 f21) := self in
  Build_randomized_slope f0 f1 f2 f3 f4 f5 f6 v f8 f9 f10 f11 f12 f13 f14 f15 f16 f17 f18 f19 f20 f21.

Definition set_active (v : option mask) (self : randomized_slope)
  : randomized_slope :=
  let '(Build_randomized_slope f0 f1 f2 f3 f4 f5 f6 f7 _ f9 f10 f11 f12 f13 f14 f15 f16 f17 f18 f19 f20 f21) := self in
  Build_randomized_slope f0 f1 f2 f3 f4 f5 f6 f7 v f9 f10 f11 f12 f13 f14 f15 f16 f17 f18 f19 f20 f21.

Definition set_unpenalized (v : option mask) (self : randomized_slope)
  : randomized_slope :=
  let '(Build_randomized_slope f0 f1 f2 f3 f4 f5 f6 f7 f8 _ f10 f11 f12 f13 f14 f15 f16 f17 f18 f19 f20 f21) := self in
  Build_randomized_slope f0 f1 f2 f3 f4 f5 f6 f7 f8 v f10 f11 f12 f13 f14 f15 f16 f17 f18 f19 f20 f21.

Definition set_overall (v : option mask) (self : randomized_slope)
  : randomized_slope :=
  let '(Build_randomized_slope f0 f1 f2 f3 f4 f5 f6 f7 f8 f9 _ f11 f12 f13 f14 f15 f16 f17 f18 f19 f20 f21) := self in
  Build_randomized_slope f0 f1 f2 f3 f4 f5 f6 f7 f8 f9 v f11 f12 f13 f14 f15 f16 f17 f18 f19 f20 f21.

Definition set_inactive (v : option mask) (self : randomized_slope)
  : randomized_slope :=
  let '(Build_randomized_slope f0 f1 f2 f3 f4 f5 f6 f7 f8 f9 f10 _ f12 f13 f14 f15 f16 f17 f18 f19 f20 f21) := self in
  Build_randomized_slope f0 f1 f2 f3 f4 f5 f6 f7 f8 f9 f10 v f12 f13 f14 f15 f16 f17 f18 f19 f20 f21.

Definition set_selection_variable (v : option Query.selection_info) (self : randomized_slope)
  : randomized_slope :=
  let '(Build_randomized_slope f0 f1 f2 f3 f4 f5 f6 f7 f8 f9 f10 f11 _ f13 f14 f15 f16 f17 f18 f19 f20 f21) := self in
  Build_randomized_slope f0 f1 f2 f3 f4 f5 f6 f7 f8 f9 f10 f11 v f13 f14 f15 f16 f17 f18 f19 f20 f21.

Definition set_initial_subgrad (v : option vec) (self : randomized_slope)
  : randomized_slope :=
  let '(Build_randomized_slope f0 f1 f2 f3 f4 f5 f6 f7 f8 f9 f10 f11 f12 _ f14 f15 f16 f17 f18 f19 f20 f21) := self in
  Build_randomized_slope f0 f1 f2 f3 f4 f5 f6 f7 f8 f9 f10 f11 f12 v f14 f15 f16 f17 f18 f19 f20 f21.

Definition set_observed_opt_state (v : option vec) (self : randomized_slope)
  : randomized_slope :=
  let '(Build_randomized_slope f0 f1 f2 f3 f4 f5 f6 f7 f8 f9 f10 f11 f12 f13 _ f15 f16 f17 f18 f19 f20 f21) := self in
  Build_randomized_slope f0 f1 f2 f3 f4 f5 f6 f7 f8 f9 f10 f11 f12 f13 v f15 f16 f17 f18 f19 f20 f21.

Definition set_beta_full (v : option vec) (self : randomized_slope)
  : randomized_slope :=
  let '(Build_randomized_slope f0 f1 f2 f3 f4 f5 f6 f7 f8 f9 f10 f11 f12 f13 f14 _ f16 f17 f18 f19 f20 f21) := self in
  Build_randomized_slope f0 f1 f2 f3 f4 f5 f6 f7 f8 f9 f10 f11 f12 f13 f14 v f16 f17 f18 f19 f20 f21.

Definition set_num_opt_var (v : option nat) (self : randomized_slope)
  : randomized_slope :=
  let '(Build_randomized_slope f0 f1 f2 f3 f4 f5 f6 f7 f8 f9 f10 f11 f12 f13 f14 f15 _ f17 f18 f19 f20 f21) := self in
  Build_randomized_slope f0 f1 f2 f3 f4 f5 f6 f7 f8 f9 f10 f11 f12 f13 f14 f15 v f17 f18 f19 f20 f21.

Definition set_W (v : option vec) (self : randomized_slope)
  : randomized_slope :=
  let '(Build_randomized_slope f0 f1 f2 f3 f4 f5 f6 f7 f8 f9 f10 f11 f12 f13 f14 f15 f16 _ f18 f19 f20 f21) := self in
  Build_randomized_slope f0 f1 f2 f3 f4 f5 f6 f7 f8 f9 f10 f11 f12 f13 f14 f15 f16 v f18 f19 f20 f21.

Definition set_score_transform (v : option (matrix * vec)) (self : randomized_slope)
  : randomized_slope :=
  let '(Build_randomized_slope f0 f1 f2 f3 f4 f5 f6 f7 f8 f9 f10 f11 f12 f13 f14 f15 f16 f17 _ f19 f20 f21) := self in
  Build_randomized_slope f0 f1 f2 f3 f4 f5 f6 f7 f8 f9 f10 f11 f12 f13 f14 f15 f16 f17 v f19 f20 f21.

Definition set_observed_score_state (v : option vec) (self : randomized_slope)
  : randomized_slope :=
  let '(Build_randomized_slope f0 f1 f2 f3 f4 f5 f6 f7 f8 f9 f10 f11 f12 f13 f14 f15 f16 f17 f18 _ f20 f21) := self in
  Build_randomized_slope f0 f1 f2 f3 f4 f5 f6 f7 f8 f9 f10 f11 f12 f13 f14 f15 f16 f17 f18 v f20 f21.

Definition set_opt_transform (v : option (ndarray * vec)) (self : randomized_slope)
  : randomized_slope :=
  let '(Build_randomized_slope f0 f1 f2 f3 f4 f5 f6 f7 f8 f9 f10 f11 f12 f13 f14 f15 f16 f17 f18 f19 _ f21) := self in
  Build_randomized_slope f0 f1 f2 f3 f4 f5 f6 f7 f8 f9 f10 f11 f12 f13 f14 f15 f16 f17 f18 f19 v f21.

Definition set_sampler (v : option Query.affine_gaussian_sampler) (self : randomized_slope)
  : randomized_slope :=
  let '(Build_randomized_slope f0 f1 f2 f3 f4 f5 f6 f7 f8 f9 f10 f11 f12 f13 f14 f15 f16 f17 f18 f19 f20 _) := self in
  Build_randomized_slope f0 f1 f2 f3 f4 f5 f6 f7 f8 f9 f10 f11 f12 f13 f14 f15 f16 f17 f18 f19 f20 v.
(** The [feature_weights] argument: "If a float, it is broadcast to all
    features". *)
Inductive weights_arg : Type :=
| Float (w : Q)
| Array (w : vec).

(** [randomized_slope.__init__]. *)
Definition init (loglike : Regreg.glm) (feature_weights : weights_arg)
    (ridge_term randomizer_scale : Q) (perturb : option vec)
  : randomized_slope :=
  let p := Regreg.shape loglike in
  let feature_weights :=
    match feature_weights with
    | Float w => map (fun one => one * w) (repeat 1 p)
    | Array w => w
    end in
  {| loglike := loglike;
     nfeature := p;
     feature_weights := feature_weights;
     randomizer := Query.isotropic_gaussian p randomizer_scale;
     ridge_term := ridge_term;
     penalty := {| Regreg.weights := feature_weights;
                   Regreg.lagrange := 1 |};
     _initial_omega := perturb;
     initial_soln := None;
     _active := None;
     _unpenalized := None;
     _overall := None;
     _inactive := None;
     selection_variable := None;
     initial_subgrad := None;
     observed_opt_state := None;
     _beta_full := None;
     num_opt_var := None;
     _W := None;
     score_transform := None;
     observed_score_state := None;
     opt_transform := None;
     sampler := None |}.

(** The default [solve_args={'tol': 1.e-12, 'min_its': 50}] of [fit]. *)
Definition fit_solve_args : Regreg.solve_args :=
  {| Regreg.tol := 1 # 1000000000000; Regreg.min_its := Some 50%nat |}.

(** *** The clustering loop of lines 109-124 *)

Record loop_state : Type := {
  cur_indx_array : list nat;
  cur_indx : nat;
  pointer : nat;
  signs_cluster : list vec
}.

Definition loop_init : loop_state :=
  {| cur_indx_array := [O];
     cur_indx := O;
     pointer := O;
     signs_cluster := [] |}.

(** One iteration, for the value [j] of the loop variable; the boolean
    tells whether the iteration ended in [break]. *)
Definition loop_body (p : nat) (initial_soln sorted_soln : vec)
    (indices : list nat) (j : nat) (st : loop_state)
  : result (loop_state * bool) :=
  let? next := of_option IndexError (nth_error sorted_soln (S j)) in
  let? cur := of_option IndexError (nth_error sorted_soln (cur_indx st)) in
  if ne (fabs next) (fabs cur) then
    let arr := cur_indx_array st ++ [S j] in
    let? start := of_option IndexError (nth_error arr (pointer st)) in
    let positions :=
      map (fun t => (t + start)%nat) (arange (S j - start)) in
    let? sources := take indices positions in
    let? values := take initial_soln sources in
    let? sign_vec := put (zeros p) positions (map sign values) in
    Ok ({| cur_indx_array := arr;
           cur_indx := S j;
           pointer := S (pointer st);
           signs_cluster := signs_cluster st ++ [sign_vec] |},
        eq next 0)
  else Ok (st, false).

Fixpoint for_range (body : nat -> loop_state -> result (loop_state * bool))
    (js : list nat) (st : loop_state) : result loop_state :=
  match js with
  | [] => Ok st
  | j :: js' =>
      let? '(st', stop) := body j st in
      if stop then Ok st' else for_range body js' st'
  end.

(** [for j in range(p - 1): ...], from the initial values of lines
    109-113; the result is the list [signs_cluster]. *)
Definition cluster_loop (p : nat) (initial_soln sorted_soln : vec)
    (indices : list nat) : result (list vec) :=
  let? st := for_range (loop_body p initial_soln sorted_soln indices)
               (arange (p - 1)) loop_init in
  Ok (signs_cluster st).

(** [a * prec] for the precision of the randomizer; two 2-d arrays of
    one shape multiply entry by entry. *)
Definition mul_prec (a : ndarray) (prec : Query.precision)
  : result ndarray :=
  match prec with
  | Query.Scalar c => Ok (nd_scale a c)
  | Query.Dense P =>
      match a with
      | Arr2 A =>
          if Nat.eqb (nrows A) (nrows P) && Nat.eqb (ncols A) (ncols P)
          then Ok (Arr2 (build (nrows A) (ncols A)
                           (fun i j => mget A i j * mget P i j)))
          else Raise ValueError
      | _ => Raise ValueError
      end
  end.

(** [opt_linear.T.dot(opt_linear) * prec] *)
Definition cond_precision (opt_linear : ndarray) (prec : Query.precision)
  : result ndarray :=
  let? gram := dot (T opt_linear) opt_linear in
  mul_prec gram prec.

(** [-logdens_linear.dot(self.observed_score_state + opt_offset)] *)
Definition cond_mean (logdens_linear : ndarray)
    (observed_score_state opt_offset : vec) : result ndarray :=
  let? arg := add observed_score_state opt_offset in
  let? m := dot logdens_linear (Arr1 arg) in
  Ok (nd_neg m).

Section WithOracle.

Context {AS : ArgSort} {SV : Regreg.Solver}.

Open Scope py_scope.

(** [randomized_slope.fit(solve_args, perturb=None)]; [draw] is what
    [self.randomizer.sample()] returns when it is called. *)
Definition fit (solve_args : Regreg.solve_args) (perturb : option vec)
    (draw : vec) : method randomized_slope vec :=
  p <- read nfeature ;;
(* take a new perturbation if supplied *)
match perturb with
| Some w => assign (set_initial_omega (Some w))
| None => ret tt
end ;;
stored <- read _initial_omega ;;
match stored with
| None => assign (set_initial_omega (Some draw))
| Some _ => ret tt
end ;;
omega <- getattr _initial_omega ;;
ridge <- read ridge_term ;;
let quad := {| Regreg.coef := ridge;
               Regreg.center := 0;
               Regreg.linear_term := neg omega;
               Regreg.constant_term := 0 |} in
like <- read loglike ;;
pen <- read penalty ;;
assign (set_initial_soln
          (Some (Regreg.solve like pen quad solve_args))) ;;
soln <- getattr initial_soln ;;
let active_signs := map sign soln in
let active := map (fun x => ne x 0) active_signs in
assign (set_active (Some active)) ;;
assign (set_unpenalized (Some (repeat false p))) ;;
let overall := active in            (* active > 0, on booleans *)
assign (set_overall (Some overall)) ;;
let inactive := invert overall in
assign (set_inactive (Some inactive)) ;;
assign (set_selection_variable
          (Some {| Query.sign := active_signs;
                   Query.variables := overall |})) ;;
total_grad <- lift (add (Regreg.smooth_objective_grad like soln)
                      (Regreg.quadratic_grad quad soln)) ;;
assign (set_initial_subgrad (Some (neg total_grad))) ;;
let indices := argsort (neg (map fabs soln)) in
sorted_soln <- lift (take soln indices) ;;
active_soln <- lift (getmask soln active) ;;
let initial_scalings := rev (sort (unique (map fabs active_soln))) in
assign (set_observed_opt_state (Some initial_scalings)) ;;
let _beta_unpenalized :=
  Regreg.restricted_estimator like overall solve_args in
beta_bar <- lift (setmask (zeros p) overall _beta_unpenalized) ;;
assign (set_beta_full (Some beta_bar)) ;;
opt_state <- getattr observed_opt_state ;;
assign (set_num_opt_var (Some (length opt_state))) ;;
let '(X, y) := Regreg.data like in
fitted <- lift (matvec X beta_bar) ;;
let W := Regreg.saturated_loss_hessian like fitted in
assign (set_W (Some W)) ;;
_hessian_active <- lift (let? Xa := getmask_cols X active in
                         let? XaW := scale_rows Xa W in
                         matmul (transpose X) XaW) ;;
let _score_linear_term := _hessian_active in
assign (set_score_transform
          (Some (_score_linear_term,
                 zeros (nrows _score_linear_term)))) ;;
score0 <- lift (matvec _score_linear_term _beta_unpenalized) ;;
assign (set_observed_score_state (Some score0)) ;;
score1 <- lift (let? a := getmask score0 inactive in
                let? g := getmask
                            (Regreg.smooth_objective_grad like beta_bar)
                            inactive in
                let? upd := add a g in
                setmask score0 inactive upd) ;;
assign (set_observed_score_state (Some score1)) ;;
clusters <- lift (cluster_loop p soln sorted_soln indices) ;;
let signs_cluster := T (asarray clusters) in
X_clustered <- lift (let? Xs := take_cols X indices in
                     dot (Arr2 Xs) signs_cluster) ;;
_opt_linear_term <- lift (let? m := dot (Arr2 (transpose X)) X_clustered in
                          Ok (nd_neg m)) ;;
subgrad <- getattr initial_subgrad ;;
assign (set_opt_transform (Some (_opt_linear_term, subgrad))) ;;
rnd <- read randomizer ;;
let prec := snd (Query.cov_prec rnd) in
transform <- getattr opt_transform ;;
let '(opt_linear, opt_offset) := transform in
cond_prec <- lift (cond_precision opt_linear prec) ;;
cond_cov <- lift (linalg_inv cond_prec) ;;
logdens_linear <- lift (let? m := dot cond_cov (T opt_linear) in
                        mul_prec m prec) ;;
score <- getattr observed_score_state ;;
mean <- lift (cond_mean logdens_linear score opt_offset) ;;
let log_density :=
  {| Query.bound_logdens_linear := logdens_linear;
     Query.bound_offset := opt_offset;
     Query.bound_cond_prec := cond_prec |} in
(* now make the constraints *)
k <- getattr num_opt_var ;;
let A_scaling := mneg (identity k) in
let b_scaling := zeros k in
let affine_con :=
  {| Query.linear_part := A_scaling;
     Query.offset := b_scaling;
     Query.mean := mean;
     Query.covariance := cond_cov |} in
let logdens_transform := (logdens_linear, opt_offset) in
info <- getattr selection_variable ;;
assign (set_sampler
          (Some {| Query.affine_con := affine_con;
                   Query.sampler_observed_opt_state := opt_state;
                   Query.sampler_observed_score_state := score;
                   Query.sampler_log_density := log_density;
                   Query.logdens_transform := logdens_transform;
                   Query.sampler_selection_info := info |})) ;;
ret active_signs.

Close Scope py_scope.

End WithOracle.

(** *** Targets of inference *)

Inductive alternative : Set := greater | less | twosided.

(** The dict lookup [{1: 'greater', -1: 'less'}[int(s)]]. *)
Definition alternative_of_sign (s : Q) : result alternative :=
  if eq s 1 then Ok greater
  else if eq s (-1) then Ok less
  else Raise KeyError.

(** What the two branches of [selected_targets] leave in the locals
    [observed_target], [cov_target], [crosscov_target_score], [Xfeat]
    and [alternatives]. *)
Record target_locals : Type := {
  local_observed_target : vec;
  local_cov_target : matrix;
  local_crosscov_target_score : matrix;
  local_Xfeat : matrix;
  local_alternatives : list alternative
}.

Definition attr {A} (f : randomized_slope -> option A)
    (self : randomized_slope) : result A :=
  of_option AttributeError (f self).

(** Lines 232-262; [features] is the binary encoding of the features. *)
Definition target_branches (features : option mask)
    (self : randomized_slope) : result target_locals :=
  let '(X, y) := Regreg.data (loglike self) in
  match features with
  | None =>
      let? active := attr _active self in
      let? unpenalized := attr _unpenalized self in
      let? overall := broadcast2 orb active unpenalized in
      let? transform := attr score_transform self in
      let score_linear := fst transform in
      let? rows_overall := getmask_rows score_linear overall in
      let Qm := mneg rows_overall in
      let? cov_target := inv Qm in
      let? beta_full := attr _beta_full self in
      let? observed_target := getmask beta_full overall in
      let? crosscov := matmul score_linear cov_target in
      let? Xfeat := getmask_cols X overall in
      let? info := attr selection_variable self in
      let? signs := getmask (Query.sign info) active in
      let? one_sided := mapM alternative_of_sign signs in
      Ok {| local_observed_target := observed_target;
            local_cov_target := cov_target;
            local_crosscov_target_score := crosscov;
            local_Xfeat := Xfeat;
            local_alternatives :=
              one_sided ++ repeat twosided (count_true unpenalized) |}
  | Some features =>
      let? overall := attr _overall self in
      let? features := setmask_scalar (map (fun _ => false) overall)
                         features true in
      let? Xfeat := getmask_cols X features in
      let? W := attr _W self in
      let? WXfeat := scale_rows Xfeat W in
      let? Qfeat := matmul (transpose Xfeat) WXfeat in
      let? soln := attr initial_soln self in
      let? Gfeat := getmask
                      (Regreg.smooth_objective_grad (loglike self) soln)
                      features in
      let? Qfeat_inv := inv Qfeat in
      let? soln_feat := getmask soln features in
      let? step := matvec Qfeat_inv Gfeat in
      let? one_step := sub soln_feat step in
      let? WX := scale_rows X W in
      let? XfWX := matmul (transpose Xfeat) WX in
      let _score_linear := mneg (transpose XfWX) in
      let? crosscov := matmul _score_linear Qfeat_inv in
      Ok {| local_observed_target := one_step;
            local_cov_target := Qfeat_inv;
            local_crosscov_target_score := crosscov;
            local_Xfeat := Xfeat;
            local_alternatives :=
              repeat twosided (count_true features) |}
  end.

(** Pearson's X^2 of lines 265-266:
    [((y - mean_function(Xfeat.dot(observed_target))) ** 2 / self._W).sum()
      / (n - Xfeat.shape[1])]. *)
Definition pearson_dispersion (loglike : Regreg.glm) (W : vec)
    (Xfeat : matrix) (observed_target : vec) : result NpFloat.t :=
  let '(X, y) := Regreg.data loglike in
  let n := nrows X in
  let? fitted := matvec Xfeat observed_target in
  let? resid := sub y (Regreg.saturated_loss_mean_function loglike fitted) in
  let squares := map (fun r => r * r) resid in
  let? terms := broadcast2 NpFloat.div_fin squares W in
  let dof := (Z.of_nat n - Z.of_nat (ncols Xfeat))%Z in
  Ok (NpFloat.div (NpFloat.sum terms) (NpFloat.Fin (inject_Z dof))).

Record targets : Type := {
  observed_target : vec;
  cov_target : NpFloat.matrix;
  crosscov_target_score : NpFloat.matrix;
  alternatives : list alternative
}.

(** [randomized_slope.selected_targets(features=None, dispersion=None)];
    it assigns no attribute. *)
Definition selected_targets (features : option mask)
    (dispersion : option NpFloat.t) (self : randomized_slope)
  : result targets :=
  let? t := target_branches features self in
  let? dispersion :=
    match dispersion with
    | Some d => Ok d
    | None => (* use Pearson's X^2 *)
        let? W := attr _W self in
        pearson_dispersion (loglike self) W (local_Xfeat t)
          (local_observed_target t)
    end in
  Ok {| observed_target := local_observed_target t;
        cov_target := NpFloat.scale (local_cov_target t) dispersion;
        crosscov_target_score :=
          NpFloat.scale (transpose (local_crosscov_target_score t))
            dispersion;
        alternatives := local_alternatives t |}.

(** *** Inference from the sampler *)

Section Inference.

Context {Estimate : Type}.

(** [self.sampler.selective_MLE], modelled from the spec, section 4.3:
    a function of its arguments that returns or fails. *)
Variable sampler_selective_MLE :
  Query.affine_gaussian_sampler -> vec -> NpFloat.matrix ->
  NpFloat.matrix -> vec (* observed_opt_state *) -> Regreg.solve_args ->
  result Estimate.

(** The default [solve_args={'tol': 1.e-12}] of [selective_MLE]. *)
Definition mle_solve_args : Regreg.solve_args :=
  {| Regreg.tol := 1 # 1000000000000; Regreg.min_its := None |}.

(** [randomized_slope.selective_MLE(target="selected", features=None,
    parameter=None, level=0.9, compute_intervals=False, dispersion=None,
    solve_args={'tol': 1.e-12})].  The locals [observed_target],
    [cov_target], [cov_target_score] and [alternatives] are assigned by
    the one branch on [target]. *)
Definition selective_MLE (target : string) (features : option mask)
    (parameter : option vec) (level : Q) (compute_intervals : bool)
    (dispersion : option NpFloat.t) (solve_args : Regreg.solve_args)
    (self : randomized_slope) : result Estimate :=
  let parameter :=
    match parameter with
    | None => zeros (Regreg.shape (loglike self))
    | Some v => v
    end in
  let? locals :=
    if String.eqb target "selected"
    then let? t := selected_targets features dispersion self in
         Ok (Some t)
    else Ok None in
  let? smp := attr sampler self in
  let? t := of_option UnboundLocalError locals in
  let? opt_state := attr observed_opt_state self in
  sampler_selective_MLE smp (observed_target t) (cov_target t)
    (crosscov_target_score t) opt_state solve_args.

End Inference.

End Slope.

(** ** [selection/bayesian/cisEQTLS/Simes_selection.py] *)

Module Simes.

Import Np.

Section WithNumerics.

Context {AS : ArgSort} {SP : Special}.

(** [np.true_divide(level*(np.arange(m)+1.), 2.*m)] at position [i]: the
    sum, the two products and the quotient are float operations. *)
Definition bh_bound (level : Q) (m i : nat) : NpFloat.t :=
  Binary64.div
    (Binary64.mul (NpFloat.Fin level)
       (Binary64.add (Binary64.of_nat i) (NpFloat.Fin 1)))
    (Binary64.mul (NpFloat.Fin 2) (Binary64.of_nat m)).

(** [p_sorted - bounds <= 0], position by position. *)
Definition bh_mask (level : Q) (m : nat) (p_sorted : vec) : mask :=
  map2 (fun i ps =>
          Binary64.le (Binary64.sub (NpFloat.Fin ps) (bh_bound level m i))
            (NpFloat.Fin 0))
    (arange m) p_sorted.

(** [BH_q(p_value, level)]. *)
Definition BH_q (p_value : vec) (level : Q)
  : result (option (vec * list nat)) :=
  let m := length p_value in
  let p_sorted := sort p_value in
  let indices := arange m in
  let indices_order := argsort p_value in
  let below := bh_mask level m p_sorted in
  if any below then
    let? order_sig := max_nat (select below indices) in
    let sig_pvalues := firstn order_sig indices_order in
    Ok (Some (firstn order_sig p_sorted, sig_pvalues))
  else Ok None.

(** [simes_pvalue(p_value)]. *)
Definition simes_pvalue (p_value : vec) : vec :=
  let p := length p_value in
  let p_sorted := sort p_value in
  map2 (fun i ps =>
          inject_Z (Z.of_nat p) / (inject_Z (Z.of_nat i) + 1) * ps)
    (arange p) p_sorted.

(** The value [simes_selection] returns when it selects:
    [(i_0, J, t_0[0], np.sign(T_stats_active), T_stats_inf)]. *)
Record selection : Type := {
  i_0 : nat;
  J : list Z;
  t_0 : nat;
  sign_active : Q;
  T_stats_inf : ndarray
}.

(** The two-sided p-values [2*(1. - normal.cdf(np.abs(t)))]. *)
Definition two_sided (t : vec) : vec :=
  map (fun x => 2 * (1 - norm_cdf (Qabs x))) t.

(** [(p/(np.arange(p) + 1.)) * p_val_randomized] *)
Definition simes_weights (p : nat) : vec :=
  map (fun i => inject_Z (Z.of_nat p) / (inject_Z (Z.of_nat i) + 1))
    (arange p).

(** [((np.arange(p) + 1.)/(2*p)) * alpha] *)
Definition simes_bounds (p : nat) (alpha : Q) : vec :=
  map (fun i => (inject_Z (Z.of_nat i) + 1)
                / inject_Z (2 * Z.of_nat p) * alpha)
    (arange p).

(** [indices_order[p_val_randomized <= alpha/2]] *)
Definition significant (indices_order : list nat) (p_val_randomized : vec)
    (alpha : Q) : result (list nat) :=
  getmask indices_order (map (fun pv => le pv (alpha / 2)) p_val_randomized).

(** [simes_selection(X, y, alpha, randomizer='gaussian')]; [draw] is what
    [np.random.standard_normal(p)] returns. *)
Definition simes_selection (X : matrix) (y : vec) (alpha : Q)
    (randomizer : string) (draw : vec) : result (option selection) :=
  let p := ncols X in
  let perturb :=
    if String.eqb randomizer "gaussian" then Some draw else None in
  let sigma_hat := 1 in
  let? XTy := matvec (transpose X) y in
  let T_stats := map (fun t => t / sigma_hat) XTy in
  let tau := 1 in
  let? perturb := of_option UnboundLocalError perturb in
  let perturb := smul tau perturb in
  let? randomized_T_stats := add T_stats perturb in
  let p_val_randomized := sort (two_sided randomized_T_stats) in
  let indices_order := argsort (two_sided randomized_T_stats) in
  let indices := arange p in
  let? weighted := mul (simes_weights p) p_val_randomized in
  let? simes_p_randomized := min weighted in
  if le simes_p_randomized (alpha / 2) then
    let? significant := significant indices_order p_val_randomized alpha in
    let? i_0 := of_option IndexError (nth_error significant 0) in
    let? T_stats_active := of_option IndexError (nth_error T_stats i_0) in
    let? below := broadcast2 le p_val_randomized (simes_bounds p alpha) in
    let? t_0 := getmask indices below in
    let? t_00 := of_option IndexError (nth_error t_0 0) in
    if Nat.ltb 0 t_00 then
      let J := firstn t_00 indices_order in
      let? T_stats_inactive := take T_stats J in
      Ok (Some {| i_0 := i_0;
                  J := map Z.of_nat J;
                  t_0 := t_00;
                  sign_active := sign T_stats_active;
                  T_stats_inf :=
                    Arr1 (T_stats_inactive ++ [T_stats_active]) |})
    else
      Ok (Some {| i_0 := i_0;
                  J := [(-1)%Z];
                  t_0 := t_00;
                  sign_active := sign T_stats_active;
                  T_stats_inf := Arr0 T_stats_active |})
  else Ok None.

End WithNumerics.

End Simes.

(** * Properties *)

(** ** Facts on the array operations *)

Module NpFacts.

Import Np.

Lemma map2_length {A B C} (f : A -> B -> C) a b :
  length (map2 f a b) = Nat.min (length a) (length b).
Proof.
  revert b; induction a as [|x a IH]; intros [|y b]; simpl; auto.
Qed.

Lemma map2_nth {A B C} (f : A -> B -> C) a b i da db dc :
  (i < length a)%nat -> (i < length b)%nat ->
  nth i (map2 f a b) dc = f (nth i a da) (nth i b db).
Proof.
  revert b i; induction a as [|x a IH]; intros [|y b] [|i]; simpl;
    intros; try lia; auto.
  apply IH; lia.
Qed.

Lemma broadcast2_same {A B C} (f : A -> B -> C) a b :
  length a = length b -> broadcast2 f a b = Ok (map2 f a b).
Proof.
  intros E. unfold broadcast2. now rewrite E, Nat.eqb_refl.
Qed.

Lemma sum_ext (n : nat) (f g : nat -> Q) :
  (forall k, (k < n)%nat -> f k == g k) ->
  sum (map f (seq 0 n)) == sum (map g (seq 0 n)).
Proof.
  intros H.
  assert (G : forall l, (forall k, In k l -> (k < n)%nat) ->
                        sum (map f l) == sum (map g l)).
  { induction l as [|k l IH]; simpl; intros Hl.
    - reflexivity.
    - rewrite (H k), IH; [reflexivity | |]; auto. }
  apply G. intros k Hk. apply in_seq in Hk. lia.
Qed.

Lemma sum_opp (l : list nat) (f : nat -> Q) :
  sum (map (fun k => - f k) l) == - sum (map f l).
Proof.
  induction l as [|k l IH]; simpl.
  - reflexivity.
  - rewrite IH. ring.
Qed.

Lemma dotprod_ext n f g f' g' :
  (forall k, (k < n)%nat -> f k == f' k) ->
  (forall k, (k < n)%nat -> g k == g' k) ->
  dotprod n f g == dotprod n f' g'.
Proof.
  intros Hf Hg. unfold dotprod. apply sum_ext.
  intros k Hk. now rewrite Hf, Hg.
Qed.

Lemma dotprod_opp_r n f g :
  dotprod n f (fun k => - g k) == - dotprod n f g.
Proof.
  unfold dotprod. rewrite <- sum_opp. apply sum_ext.
  intros k _. ring.
Qed.

Lemma matvec_ok A v :
  ncols A = length v ->
  matvec A v
  = Ok (map (fun i => dotprod (ncols A) (mget A i) (fun k => nth k v 0))
          (seq 0 (nrows A))).
Proof.
  intros E. unfold matvec. now rewrite E, Nat.eqb_refl.
Qed.

Lemma nth_map_seq {A} (f : nat -> A) n i d :
  (i < n)%nat -> nth i (map f (seq 0 n)) d = f i.
Proof.
  intros Hi. rewrite (nth_indep _ d (f O)) by (now rewrite length_map, length_seq).
  rewrite (map_nth f). now rewrite seq_nth.
Qed.

Lemma nth_neg (l : vec) i : nth i (neg l) 0 == - nth i l 0.
Proof.
  unfold neg. revert i; induction l as [|x l IH]; intros [|i]; simpl;
    try reflexivity. apply IH.
Qed.

Lemma Forall2_nth {A B} (R : A -> B -> Prop) la lb da db :
  length la = length lb ->
  (forall i, (i < length la)%nat -> R (nth i la da) (nth i lb db)) ->
  Forall2 R la lb.
Proof.
  revert lb; induction la as [|a la IH]; intros [|b lb]; simpl;
    intros E H; try discriminate; constructor.
  - apply (H O). lia.
  - apply IH; [lia|]. intros i Hi. apply (H (S i)). lia.
Qed.

End NpFacts.

(** ** The two [cond_mean] call sites *)

Section CondMean.

Import Np NpFacts.

(** C1. For a 2-d array [logdens_linear] and 1-d arrays [s] (the score)
    and [c] (the offset) of matching dimensions, the expression of
    [marginal_screening.fit], [logdens_linear.dot(-s - c)], and the
    expression of [randomized_slope.fit], [-logdens_linear.dot(s + c)],
    both return, return the same 1-d array, and entry [i] of it is
    [- sum_k logdens_linear[i, k] * (s[k] + c[k])]. *)
Theorem cond_mean_call_sites_agree (logdens_linear : matrix) (s c : vec) :
  length s = ncols logdens_linear ->
  length c = ncols logdens_linear ->
  exists a b,
    Slope.cond_mean (Arr2 logdens_linear) s c = Ok (Arr1 a) /\
    Screening.cond_mean logdens_linear s c = Ok b /\
    Forall2 Qeq b a /\
    length a = nrows logdens_linear /\
    forall i, (i < nrows logdens_linear)%nat ->
      nth i a 0 ==
      - dotprod (ncols logdens_linear) (mget logdens_linear i)
          (fun k => nth k s 0 + nth k c 0).
Proof.
  intros Hs Hc.
  assert (Hadd : length (map2 Qplus s c) = ncols logdens_linear)
    by (rewrite map2_length; lia).
  assert (Hsub : length (map2 Qminus (neg s) c) = ncols logdens_linear)
    by (unfold neg; rewrite map2_length, length_map; lia).
  unfold Slope.cond_mean, Screening.cond_mean, add, sub.
  rewrite !broadcast2_same by (unfold neg; rewrite ?length_map; lia).
  cbn [Py.bind dot].
  rewrite !matvec_ok by (symmetry; assumption).
  cbn [Py.bind nd_neg].
  eexists; eexists; split; [reflexivity|]; split; [reflexivity|].
  assert (Hentry : forall i, (i < nrows logdens_linear)%nat ->
    nth i (neg (map (fun i0 => dotprod (ncols logdens_linear)
                                 (mget logdens_linear i0)
                                 (fun k => nth k (map2 Qplus s c) 0))
                  (seq 0 (nrows logdens_linear)))) 0 ==
    - dotprod (ncols logdens_linear) (mget logdens_linear i)
        (fun k => nth k s 0 + nth k c 0)).
  { intros i Hi. rewrite nth_neg, nth_map_seq by lia.
    apply Qopp_comp. apply dotprod_ext; intros k Hk; [reflexivity|].
    rewrite (map2_nth Qplus s c 0 0 0) by lia. reflexivity. }
  split; [|split].
  - apply Forall2_nth with (da := 0) (db := 0).
    + unfold neg. now rewrite !length_map.
    + rewrite length_map, length_seq. intros i Hi.
      rewrite Hentry, nth_map_seq by assumption.
      rewrite <- dotprod_opp_r.
      apply dotprod_ext; intros k Hk; [reflexivity|].
      rewrite (map2_nth Qminus (neg s) c 0 0 0)
        by (unfold neg; rewrite ?length_map; lia).
      rewrite nth_neg. ring.
  - unfold neg. now rewrite !length_map, length_seq.
  - exact Hentry.
Qed.

End CondMean.

Lemma cond_mean_call_sites_agree_witness :
  exists a b,
    Slope.cond_mean (Np.Arr2 (Np.Mat 1 2 [[1; 2]])) [1; 1] [0; 3]
    = Ok (Np.Arr1 a) /\
    Screening.cond_mean (Np.Mat 1 2 [[1; 2]]) [1; 1] [0; 3] = Ok b /\
    Forall2 Qeq b a /\
    length a = 1%nat /\
    forall i, (i < 1)%nat ->
      nth i a 0 ==
      - Np.dotprod 2 (Np.mget (Np.Mat 1 2 [[1; 2]]) i)
          (fun k => nth k [1; 1] 0 + nth k [0; 3] 0).
Proof.
  apply (cond_mean_call_sites_agree (Np.Mat 1 2 [[1; 2]]) [1; 1] [0; 3]);
    reflexivity.
Defined.

(** ** Marginal screening *)

Module ScreeningFacts.

Import Np NpFacts Screening.

(** The perturbation [fit] works with: the one supplied, else the one
    stored, else a fresh draw. *)
Definition omega_used (perturb : option vec) (draw : vec)
    (self : marginal_screening) : vec :=
  match perturb with
  | Some w => w
  | None =>
      match _initial_omega self with
      | Some w => w
      | None => draw
      end
  end.

(** An object as [__init__] leaves it, with one threshold per feature. *)
Definition well_shaped (self : marginal_screening) : Prop :=
  length (observed_score_state self) = nfeature self /\
  length (threshold self) = nfeature self.

Lemma select_length {A} (m : mask) (a : list A) :
  length m = length a -> length (select m a) = count_true m.
Proof.
  unfold count_true. revert a; induction m as [|b m IH]; intros [|x a];
    simpl; intros E; try discriminate; auto.
  destruct b; simpl; rewrite IH by lia; reflexivity.
Qed.

Lemma scatter_length {A} (m : mask) (a v : list A) :
  length (scatter m a v) = length a.
Proof.
  revert a v; induction m as [|b m IH]; intros [|x a] v; simpl; auto;
    try (destruct b; reflexivity).
  destruct b; [destruct v|]; simpl; now rewrite IH.
Qed.

Lemma getmask_ok {A} (a : list A) (m : mask) :
  length m = length a -> getmask a m = Ok (select m a).
Proof. intros E. unfold getmask. now rewrite E, Nat.eqb_refl. Qed.

Lemma setmask_ok {A} (a : list A) (m : mask) (v : list A) :
  length m = length a -> length v = count_true m ->
  setmask a m v = Ok (scatter m a v).
Proof.
  intros E1 E2. unfold setmask. now rewrite E1, E2, !Nat.eqb_refl.
Qed.

Lemma setmask_scalar_ok {A} (a : list A) (m : mask) (c : A) :
  length m = length a ->
  setmask_scalar a m c
  = Ok (map2 (fun (b : bool) x => if b then c else x) m a).
Proof. intros E. unfold setmask_scalar. now rewrite E, Nat.eqb_refl. Qed.

Lemma setmask_rows_ok A m B :
  length m = nrows A -> nrows B = count_true m -> ncols B = ncols A ->
  setmask_rows A m B
  = Ok (build (nrows A) (ncols A)
          (fun i j => if nth i m false then mget B (rank m i) j
                      else mget A i j)).
Proof.
  intros E1 E2 E3. unfold setmask_rows.
  now rewrite E1, E2, E3, !Nat.eqb_refl.
Qed.

(** The locals of [fit], as functions of the object and of the
    perturbation [omega] it works with. *)
Section Locals.

Variables (self : marginal_screening) (omega : vec).

Definition fit_randomized_score : vec :=
  map2 Qminus (observed_score_state self) omega.
Definition fit_Z : vec := neg fit_randomized_score.
Definition fit_soft_thresh : vec :=
  map2 Qmult
    (map2 Qmult (map sign fit_Z)
       (map2 Qminus (map fabs fit_Z) (threshold self)))
    (map of_bool (map2 ge (map fabs fit_Z) (threshold self))).
Definition fit_active : mask := map (fun x => ne x 0) fit_soft_thresh.
Definition fit_active_signs : vec := select fit_active (map sign fit_Z).
Definition fit_sign : vec :=
  map2 (fun (b : bool) x => if b then 0 else x) (invert fit_active)
    (map sign fit_Z).
Definition fit_opt_state : vec :=
  map fabs (select fit_active fit_soft_thresh).
Definition fit_opt_linear : matrix :=
  build (nfeature self) (length fit_opt_state)
    (fun i j =>
       if nth i fit_active false
       then mget (diag fit_active_signs) (rank fit_active i) j
       else mget (zeros2 (nfeature self) (length fit_opt_state)) i j).
Definition fit_opt_offset : vec :=
  scatter (invert fit_active)
    (scatter fit_active (zeros (nfeature self))
       (map2 Qmult fit_active_signs
          (select fit_active (threshold self))))
    (select (invert fit_active) fit_randomized_score).

Hypothesis shaped : well_shaped self.
Hypothesis omega_length : length omega = nfeature self.

Lemma fit_randomized_score_length :
  length fit_randomized_score = nfeature self.
Proof.
  destruct shaped as [H1 H2]. unfold fit_randomized_score.
  rewrite map2_length. lia.
Qed.

Lemma fit_Z_length : length fit_Z = nfeature self.
Proof.
  unfold fit_Z, neg. rewrite length_map.
  apply fit_randomized_score_length.
Qed.

Lemma fit_soft_thresh_length : length fit_soft_thresh = nfeature self.
Proof.
  destruct shaped as [H1 H2]. unfold fit_soft_thresh.
  repeat rewrite ?map2_length, ?length_map.
  rewrite fit_Z_length. lia.
Qed.

Lemma fit_active_length : length fit_active = nfeature self.
Proof.
  unfold fit_active. rewrite length_map. apply fit_soft_thresh_length.
Qed.

Lemma fit_sub_ok :
  sub (observed_score_state self) omega = Ok fit_randomized_score.
Proof. destruct shaped. apply broadcast2_same; lia. Qed.

Lemma fit_soft_threshold_ok :
  soft_threshold fit_Z (threshold self) = Ok fit_soft_thresh.
Proof.
  pose proof fit_Z_length as LZ. destruct shaped as [H1 H2].
  unfold soft_threshold, sub, mul.
  rewrite (broadcast2_same Qminus) by (rewrite length_map; lia).
  cbn [Py.bind].
  rewrite (broadcast2_same Qmult)
    by (repeat rewrite ?map2_length, ?length_map; lia).
  cbn [Py.bind].
  rewrite (broadcast2_same ge) by (rewrite length_map; lia).
  cbn [Py.bind].
  rewrite (broadcast2_same Qmult)
    by (repeat rewrite ?map2_length, ?length_map; lia).
  reflexivity.
Qed.

End Locals.

Lemma invert_length m : length (invert m) = length m.
Proof. apply length_map. Qed.

Lemma count_true_invert_select {A} (m : mask) (a : list A) :
  length m = length a ->
  length (select (invert m) a) = count_true (invert m).
Proof. intros E. apply select_length. now rewrite invert_length. Qed.

Ltac run :=
  cbn -[sub mul soft_threshold getmask setmask setmask_scalar setmask_rows
        conditional_gaussian cond_mean zeros zeros2 diag build invert
        select scatter identity mneg neg map2 rank count_true].

(** [fit] run on an object whose subtraction and thresholding are known
    to return [rs] and [soft]. *)
Lemma fit_raw self perturb draw omega rs soft :
  omega_used perturb draw self = omega ->
  sub (observed_score_state self) omega = Ok rs ->
  soft_threshold (neg rs) (threshold self) = Ok soft ->
  length rs = nfeature self ->
  length soft = nfeature self ->
  length (threshold self) = nfeature self ->
  let active := map (fun x => ne x 0) soft in
  let active_signs := select active (map sign (neg rs)) in
  let opt_state := map fabs (select active soft) in
  let opt_linear :=
    build (nfeature self) (length opt_state)
      (fun i j =>
         if nth i active false
         then mget (diag active_signs) (rank active i) j
         else mget (zeros2 (nfeature self) (length opt_state)) i j) in
  let opt_offset :=
    scatter (invert active)
      (scatter active (zeros (nfeature self))
         (map2 Qmult active_signs (select active (threshold self))))
      (select (invert active) rs) in
  let info :=
    {| Query.sign :=
         map2 (fun (b : bool) x => if b then 0 else x)
           (invert active) (map sign (neg rs));
       Query.variables := active |} in
  let self' := snd (fit perturb draw self) in
  (_initial_omega self' = Some omega /\
   initial_soln self' = Some soft /\
   _selected self' = Some active /\
   _not_selected self' = Some (invert active) /\
   selection_variable self' = Some info /\
   observed_opt_state self' = Some opt_state /\
   num_opt_var self' = Some (length opt_state) /\
   opt_transform self' = Some (opt_linear, opt_offset)) /\
  (forall cond_precision cond_cov logdens_linear mean,
      conditional_gaussian opt_linear (snd (Query.cov_prec (randomizer self)))
      = Ok (cond_precision, cond_cov, logdens_linear) ->
      cond_mean logdens_linear (observed_score_state self) opt_offset
      = Ok mean ->
      fst (fit perturb draw self) = Ok active /\
      sampler self'
      = Some {| Query.affine_con :=
                  {| Query.linear_part :=
                       mneg (identity (length active_signs));
                     Query.offset := zeros (length opt_state);
                     Query.mean := Arr1 mean;
                     Query.covariance := Arr2 cond_cov |};
                Query.sampler_observed_opt_state := opt_state;
                Query.sampler_observed_score_state :=
                  observed_score_state self;
                Query.sampler_log_density :=
                  {| Query.bound_logdens_linear := Arr2 logdens_linear;
                     Query.bound_offset := opt_offset;
                     Query.bound_cond_prec := Arr2 cond_precision |};
                Query.logdens_transform := (Arr2 logdens_linear, opt_offset);
                Query.sampler_selection_info := info |}).
Proof.
  intros Homega Hsub Hsoft Lrs Lsoft Lthr active active_signs opt_state.
  assert (Lact : length active = nfeature self)
    by (unfold active; now rewrite length_map).
  assert (LsZ : length (map sign (neg rs)) = nfeature self)
    by (unfold neg; now rewrite !length_map).
  assert (Lsigns : length active_signs = count_true active)
    by (apply select_length; lia).
  assert (Lstate : length opt_state = count_true active)
    by (unfold opt_state; rewrite length_map; apply select_length; lia).
  intros opt_linear opt_offset info.
  destruct self as [oss p cov rnd om lvl thr f7 f8 f9 f10 f11 f12 f13 f14 f15].
  cbn [observed_score_state nfeature threshold _initial_omega randomizer]
    in *.
  assert (Hrun : forall om',
    match om' with Some w => w | None => draw end = omega ->
    let run := fit None draw
      (Build_marginal_screening oss p cov rnd om' lvl thr
         f7 f8 f9 f10 f11 f12 f13 f14 f15) in
    let self' := snd run in
    (_initial_omega self' = Some omega /\
     initial_soln self' = Some soft /\
     _selected self' = Some active /\
     _not_selected self' = Some (invert active) /\
     selection_variable self' = Some info /\
     observed_opt_state self' = Some opt_state /\
     num_opt_var self' = Some (length opt_state) /\
     opt_transform self' = Some (opt_linear, opt_offset)) /\
    (forall cond_precision cond_cov logdens_linear mean,
        conditional_gaussian opt_linear (snd (Query.cov_prec rnd))
        = Ok (cond_precision, cond_cov, logdens_linear) ->
        cond_mean logdens_linear oss opt_offset = Ok mean ->
        fst run = Ok active /\
        sampler self'
        = Some {| Query.affine_con :=
                    {| Query.linear_part :=
                         mneg (identity (length active_signs));
                       Query.offset := zeros (length opt_state);
                       Query.mean := Arr1 mean;
                       Query.covariance := Arr2 cond_cov |};
                  Query.sampler_observed_opt_state := opt_state;
                  Query.sampler_observed_score_state := oss;
                  Query.sampler_log_density :=
                    {| Query.bound_logdens_linear := Arr2 logdens_linear;
                       Query.bound_offset := opt_offset;
                       Query.bound_cond_prec := Arr2 cond_precision |};
                  Query.logdens_transform :=
                    (Arr2 logdens_linear, opt_offset);
                  Query.sampler_selection_info := info |})).
  { intros om' Hom'. unfold fit.
    cbn [mbind read assign ret lift getattr of_option nfeature
         set_initial_omega _initial_omega].
    clear Homega.
    destruct om' as [w|]; run; rewrite Hom'; rewrite Hsub; run;
      rewrite Hsoft; run;
      fold active;
      rewrite (getmask_ok (map sign (neg rs)) active) by lia; run;
      rewrite (setmask_scalar_ok (map sign (neg rs)) (invert active) 0)
        by (rewrite invert_length; lia); run;
      rewrite (getmask_ok soft active) by lia; run;
      fold active_signs; fold opt_state;
      rewrite (@setmask_rows_ok (zeros2 p (length opt_state)) active
                 (diag active_signs))
        by (cbn [zeros2 diag build nrows ncols]; lia); run;
      rewrite (getmask_ok thr active) by lia; run;
      unfold mul;
      rewrite (broadcast2_same Qmult active_signs (select active thr))
        by (rewrite (select_length active thr) by lia; lia); run;
      rewrite (setmask_ok (zeros p) active)
        by (unfold zeros; rewrite ?repeat_length, ?map2_length,
              ?(select_length active thr) by lia; lia); run;
      rewrite (getmask_ok rs (invert active))
        by (rewrite invert_length; lia); run;
      rewrite (setmask_ok _ (invert active))
        by (rewrite ?scatter_length, ?invert_length; unfold zeros;
            rewrite ?repeat_length; try lia;
            apply select_length; rewrite invert_length; lia); run;
      cbn [zeros2 build nrows ncols]; fold (zeros2 p (length opt_state));
      fold opt_linear; fold opt_offset;
      (destruct (conditional_gaussian opt_linear _)
         as [[[cp cc] ll]|e] eqn:E1; run;
       [destruct (cond_mean ll oss opt_offset) as [mn|e] eqn:E2; run|]);
      (split; [repeat split; reflexivity|]);
      intros cp' cc' ll' mn' H1 H2; try discriminate;
      inversion H1; subst cp' cc' ll'; rewrite E2 in H2; try discriminate;
      inversion H2; subst mn'; split; reflexivity. }
  destruct perturb as [w|].
  - cbn [omega_used] in Homega.
    specialize (Hrun (Some w) Homega). exact Hrun.
  - cbn [omega_used _initial_omega] in Homega.
    specialize (Hrun om Homega). exact Hrun.
Qed.

Lemma rank_S b m i : rank (b :: m) (S i) = ((if b then 1 else 0) + rank m i)%nat.
Proof. unfold rank, count_true. simpl. now destruct b. Qed.

Lemma rank_lt m i :
  nth i m false = true -> (rank m i < count_true m)%nat.
Proof.
  revert i; induction m as [|b m IH]; intros [|i] H; simpl in H;
    try discriminate.
  - subst b. unfold rank, count_true. simpl. lia.
  - rewrite rank_S. specialize (IH i H).
    unfold count_true in *. destruct b; simpl; lia.
Qed.

Lemma select_nth {A} (m : mask) (a : list A) i d :
  length m = length a -> nth i m false = true ->
  nth (rank m i) (select m a) d = nth i a d.
Proof.
  revert a i; induction m as [|b m IH]; intros [|x a] [|i] E H;
    simpl in *; try discriminate.
  - now subst b.
  - rewrite rank_S. destruct b; simpl; apply IH; auto; lia.
Qed.

Lemma scatter_nth {A} (m : mask) (a v : list A) i d :
  length m = length a -> length v = count_true m ->
  nth i (scatter m a v) d
  = if nth i m false then nth (rank m i) v d else nth i a d.
Proof.
  revert a v i; induction m as [|b m IH]; intros [|x a] v i E Ev;
    try discriminate.
  - now destruct i.
  - unfold count_true in Ev. destruct b; cbn [filter length] in Ev.
    + destruct v as [|y v]; [discriminate|]. destruct i as [|i].
      * reflexivity.
      * rewrite rank_S. cbn [scatter nth Nat.add]. apply IH.
        -- simpl in E. lia.
        -- unfold count_true. simpl in Ev. lia.
    + destruct i as [|i].
      * reflexivity.
      * rewrite rank_S. cbn [scatter nth Nat.add]. apply IH.
        -- simpl in E. lia.
        -- unfold count_true. lia.
Qed.

Lemma invert_nth m i :
  (i < length m)%nat -> nth i (invert m) false = negb (nth i m false).
Proof.
  intros Hi. unfold invert.
  rewrite (nth_indep _ false (negb false)) by (now rewrite length_map).
  apply map_nth.
Qed.

Lemma mget_build n m f i j :
  (i < n)%nat -> (j < m)%nat -> mget (build n m f) i j = f i j.
Proof.
  intros Hi Hj. unfold mget, build. cbn [rows].
  rewrite (nth_map_seq (fun i => map (f i) (seq 0 m))) by assumption.
  now rewrite nth_map_seq.
Qed.

Lemma sign_pos x : 0 < x -> sign x = 1.
Proof.
  intros H. unfold sign. destruct (Qcompare_spec x 0); try reflexivity; exfalso; lra.
Qed.

Lemma sign_neg x : x < 0 -> sign x = -1.
Proof.
  intros H. unfold sign. destruct (Qcompare_spec x 0); try reflexivity; exfalso; lra.
Qed.

Lemma sign_zero x : x == 0 -> sign x = 0.
Proof.
  intros H. unfold sign. destruct (Qcompare_spec x 0); try reflexivity; exfalso; lra.
Qed.

Lemma ge_true x y : y <= x -> ge x y = true.
Proof. intros H. unfold ge. now apply Qle_bool_iff. Qed.

Lemma ge_false x y : x < y -> ge x y = false.
Proof.
  intros H. unfold ge. destruct (Qle_bool y x) eqn:E; [|reflexivity].
  apply Qle_bool_iff in E. lra.
Qed.

Lemma ne_true x y : ~ x == y -> ne x y = true.
Proof.
  intros H. unfold ne. destruct (Qeq_bool x y) eqn:E; [|reflexivity].
  apply Qeq_bool_iff in E. contradiction.
Qed.

Lemma ne_false x y : x == y -> ne x y = false.
Proof.
  intros H. unfold ne. apply Qeq_bool_iff in H. now rewrite H.
Qed.

(** Coordinate [i] of the locals of [fit]. *)
Section Coordinate.

Variables (self : marginal_screening) (omega : vec) (i : nat).
Hypothesis shaped : well_shaped self.
Hypothesis omega_length : length omega = nfeature self.
Hypothesis in_range : (i < nfeature self)%nat.

Let z := nth i (fit_Z self omega) 0.
Let t := nth i (threshold self) 0.

Lemma fit_soft_thresh_nth :
  nth i (fit_soft_thresh self omega) 0
  = sign z * (fabs z - t) * of_bool (ge (fabs z) t).
Proof.
  pose proof (@fit_Z_length self omega shaped omega_length) as LZ.
  destruct shaped as [H1 H2]. unfold fit_soft_thresh.
  rewrite (map2_nth Qmult _ _ 0 0 0)
    by (repeat rewrite ?map2_length, ?length_map; lia).
  rewrite (map2_nth Qmult _ _ 0 0 0)
    by (repeat rewrite ?map2_length, ?length_map; lia).
  rewrite (map2_nth Qminus _ _ 0 0 0)
    by (repeat rewrite ?map2_length, ?length_map; lia).
  rewrite (nth_indep (map of_bool _) 0 (of_bool false))
    by (repeat rewrite ?map2_length, ?length_map; lia).
  rewrite (map_nth of_bool).
  rewrite (map2_nth ge _ _ 0 0 false)
    by (repeat rewrite ?map2_length, ?length_map; lia).
  rewrite (nth_indep (map sign _) 0 (sign 0))
    by (rewrite length_map; lia).
  rewrite (map_nth sign).
  rewrite (nth_indep (map fabs _) 0 (fabs 0))
    by (rewrite length_map; lia).
  rewrite (map_nth fabs). reflexivity.
Qed.

Lemma fit_active_nth d :
  nth i (fit_active self omega) d
  = ne (nth i (fit_soft_thresh self omega) 0) 0.
Proof.
  pose proof (@fit_soft_thresh_length self omega shaped omega_length).
  unfold fit_active.
  rewrite (nth_indep _ d (ne 0 0)) by (rewrite length_map; lia).
  apply (map_nth (fun x => ne x 0)).
Qed.

Lemma fit_sign_Z_nth :
  nth i (map sign (fit_Z self omega)) 0 = sign z.
Proof.
  pose proof (@fit_Z_length self omega shaped omega_length) as LZ.
  rewrite (nth_indep (map sign _) 0 (sign 0))
    by (rewrite length_map; lia).
  apply (map_nth sign).
Qed.

(** A selected coordinate has a non-zero sign. *)
Lemma fit_active_sign :
  nth i (fit_active self omega) false = true -> ~ sign z == 0.
Proof.
  rewrite fit_active_nth, fit_soft_thresh_nth. intros H E.
  unfold ne in H. apply negb_true_iff in H.
  assert (G : Qeq_bool (sign z * (fabs z - t) * of_bool (ge (fabs z) t)) 0
              = true) by (apply Qeq_bool_iff; rewrite E; ring).
  congruence.
Qed.

End Coordinate.

Lemma fit_prefix self perturb draw :
  well_shaped self ->
  length (omega_used perturb draw self) = nfeature self ->
  let omega := omega_used perturb draw self in
  let self' := snd (fit perturb draw self) in
  _initial_omega self' = Some omega /\
  initial_soln self' = Some (fit_soft_thresh self omega) /\
  _selected self' = Some (fit_active self omega) /\
  _not_selected self' = Some (invert (fit_active self omega)) /\
  selection_variable self'
  = Some {| Query.sign := fit_sign self omega;
            Query.variables := fit_active self omega |} /\
  observed_opt_state self' = Some (fit_opt_state self omega) /\
  num_opt_var self' = Some (length (fit_opt_state self omega)) /\
  opt_transform self'
  = Some (fit_opt_linear self omega, fit_opt_offset self omega).
Proof.
  intros shaped Homega omega.
  apply (@fit_raw self perturb draw omega
           (fit_randomized_score self omega) (fit_soft_thresh self omega)).
  - reflexivity.
  - now apply fit_sub_ok.
  - now apply fit_soft_threshold_ok.
  - now apply fit_randomized_score_length.
  - now apply fit_soft_thresh_length.
  - apply shaped.
Qed.

Lemma fit_opt_state_length self omega :
  well_shaped self -> length omega = nfeature self ->
  length (fit_opt_state self omega) = count_true (fit_active self omega).
Proof.
  intros shaped Homega. unfold fit_opt_state. rewrite length_map.
  apply select_length.
  rewrite fit_active_length, fit_soft_thresh_length; auto.
Qed.

End ScreeningFacts.

Section ScreeningClaims.

Import Np NpFacts Screening ScreeningFacts.

Variables (self : marginal_screening) (perturb : option vec) (draw : vec).

Let omega := omega_used perturb draw self.
Let self' := snd (fit perturb draw self).

Hypothesis shaped : well_shaped self.
Hypothesis omega_length : length omega = nfeature self.

(** C4. In [marginal_screening.fit], for a coordinate [i] whose threshold
    is [1.0]: when the randomization-perturbed statistic [Z[i]] is [0.5]
    the coordinate is not selected; when [Z[i]] is [2.0] it is selected,
    its entry of [observed_opt_state] is [2.0 - 1.0 = 1.0] and the sign
    recorded in [selection_variable] is [+1]. *)
Theorem screening_threshold_one_cases (i : nat) :
  (i < nfeature self)%nat ->
  nth i (threshold self) 0 == 1 ->
  exists active opt_state info,
    _selected self' = Some active /\
    observed_opt_state self' = Some opt_state /\
    selection_variable self' = Some info /\
    (nth i (fit_Z self omega) 0 == 1 # 2 -> nth i active true = false) /\
    (nth i (fit_Z self omega) 0 == 2 ->
     nth i active false = true /\
     nth i (Query.variables info) false = true /\
     nth (rank active i) opt_state 0 == 2 - 1 /\
     nth i (Query.sign info) 0 == 1).
Proof.
  intros Hi Ht.
  destruct (@fit_prefix self perturb draw shaped omega_length)
    as (_ & _ & Hsel & _ & Hinfo & Hstate & _).
  fold omega in Hsel, Hinfo, Hstate. fold self' in Hsel, Hinfo, Hstate.
  exists (fit_active self omega), (fit_opt_state self omega).
  eexists. split; [exact Hsel|]. split; [exact Hstate|].
  split; [exact Hinfo|]. cbn [Query.sign Query.variables].
  pose proof (@fit_soft_thresh_nth self omega i shaped omega_length Hi)
    as Hsoft.
  pose proof (@fit_active_length self omega shaped omega_length) as Lact.
  pose proof (@fit_soft_thresh_length self omega shaped omega_length)
    as Lsoft.
  pose proof (@fit_Z_length self omega shaped omega_length) as LZ.
  split.
  - intros Hz. rewrite (@fit_active_nth self omega i shaped omega_length Hi), Hsoft.
    apply ne_false.
    rewrite (ge_false (x := fabs (nth i (fit_Z self omega) 0))).
    + cbn [of_bool]. ring.
    + unfold fabs. rewrite Hz, Ht. reflexivity.
  - intros Hz.
    assert (Hval : nth i (fit_soft_thresh self omega) 0 == 1).
    { rewrite Hsoft. rewrite ge_true.
      - rewrite sign_pos by (rewrite Hz; reflexivity).
        cbn [of_bool]. unfold fabs. rewrite Hz, Ht. reflexivity.
      - unfold fabs. rewrite Hz, Ht. discriminate. }
    assert (Hact : nth i (fit_active self omega) false = true).
    { rewrite (@fit_active_nth self omega i shaped omega_length Hi). apply ne_true.
      rewrite Hval. discriminate. }
    split; [exact Hact|]. split; [exact Hact|]. split.
    + unfold fit_opt_state.
      rewrite (nth_indep _ 0 (fabs 0))
        by (rewrite length_map, select_length by lia; now apply rank_lt).
      rewrite (map_nth fabs).
      rewrite select_nth by (auto; lia).
      unfold fabs. rewrite Hval. reflexivity.
    + unfold fit_sign.
      rewrite (map2_nth _ _ _ false 0 0)
        by (rewrite ?invert_length, ?length_map; lia).
      rewrite invert_nth by lia. rewrite Hact. cbn [negb].
      rewrite (@fit_sign_Z_nth self omega i shaped omega_length Hi).
      rewrite sign_pos by (rewrite Hz; reflexivity). reflexivity.
Qed.

(** C5 (amended). After [marginal_screening.fit], [opt_linear] has one
    row per feature and one column per selected coordinate; the row of
    the [j]-th selected coordinate [i] holds the selection sign of [i] in
    column [j] and zeros elsewhere, and the row of a coordinate that is
    not selected is zero.  [opt_offset] holds, on a selected row, the
    threshold multiplied by the selection sign and, on a row that is not
    selected, the raw randomization-perturbed score. *)
Theorem screening_affine_transform_structure :
  exists opt_linear opt_offset active info,
    opt_transform self' = Some (opt_linear, opt_offset) /\
    _selected self' = Some active /\
    selection_variable self' = Some info /\
    nrows opt_linear = nfeature self /\
    ncols opt_linear = count_true active /\
    length opt_offset = nfeature self /\
    forall i, (i < nfeature self)%nat ->
      let s := nth i (Query.sign info) 0 in
      (nth i active false = true ->
       (s == 1 \/ s == -1) /\
       (forall j, (j < ncols opt_linear)%nat ->
          mget opt_linear i j
          == if Nat.eqb j (rank active i) then s else 0) /\
       nth i opt_offset 0 == s * nth i (threshold self) 0) /\
      (nth i active false = false ->
       (forall j, (j < ncols opt_linear)%nat ->
          mget opt_linear i j == 0) /\
       nth i opt_offset 0 == nth i (fit_randomized_score self omega) 0).
Proof.
  destruct (@fit_prefix self perturb draw shaped omega_length)
    as (_ & _ & Hsel & _ & Hinfo & _ & _ & Htrans).
  fold omega in Hsel, Hinfo, Htrans. fold self' in Hsel, Hinfo, Htrans.
  pose proof (@fit_active_length self omega shaped omega_length) as Lact.
  pose proof (@fit_soft_thresh_length self omega shaped omega_length)
    as Lsoft.
  pose proof (@fit_Z_length self omega shaped omega_length) as LZ.
  pose proof (@fit_randomized_score_length self omega shaped omega_length)
    as Lrs.
  pose proof (@fit_opt_state_length self omega shaped omega_length) as Lk.
  destruct shaped as [Loss Lthr].
  assert (Lsigns : length (fit_active_signs self omega)
                   = count_true (fit_active self omega)).
  { unfold fit_active_signs. apply select_length.
    rewrite length_map. lia. }
  assert (Linner : length (scatter (fit_active self omega)
                     (zeros (nfeature self))
                     (map2 Qmult (fit_active_signs self omega)
                        (select (fit_active self omega) (threshold self))))
                   = nfeature self).
  { rewrite scatter_length. unfold zeros. apply repeat_length. }
  do 4 eexists. split; [exact Htrans|]. split; [exact Hsel|].
  split; [exact Hinfo|]. cbn [Query.sign].
  split; [reflexivity|]. split; [exact Lk|].
  split.
  { unfold fit_opt_offset. rewrite scatter_length. exact Linner. }
  intros i Hi.
  assert (Hsign_inactive :
    nth i (fit_sign self omega) 0
    = if nth i (fit_active self omega) false
      then sign (nth i (fit_Z self omega) 0) else 0).
  { unfold fit_sign.
    rewrite (map2_nth _ _ _ false 0 0)
      by (rewrite ?invert_length, ?length_map; lia).
    rewrite invert_nth by lia.
    rewrite (@fit_sign_Z_nth self omega i (conj Loss Lthr) omega_length Hi).
    now destruct (nth i (fit_active self omega) false). }
  cbv zeta. rewrite Hsign_inactive. split; intros Hact; rewrite ?Hact.
  - assert (Hr : (rank (fit_active self omega) i
                  < count_true (fit_active self omega))%nat)
      by now apply rank_lt.
    split; [|split].
    + pose proof (@fit_active_sign self omega i (conj Loss Lthr)
                    omega_length Hi Hact) as Hnz.
      unfold sign in *.
      destruct (nth i (fit_Z self omega) 0 ?= 0);
        [exfalso; apply Hnz; reflexivity | right | left]; reflexivity.
    + intros j Hj. unfold fit_opt_linear.
      cbn [ncols build fit_opt_linear] in Hj.
      rewrite mget_build by (auto; lia). rewrite Hact.
      unfold diag. rewrite mget_build by lia.
      unfold fit_active_signs at 1.
      rewrite select_nth by (rewrite ?length_map; auto; lia).
      rewrite (@fit_sign_Z_nth self omega i (conj Loss Lthr)
                 omega_length Hi).
      rewrite (Nat.eqb_sym j). reflexivity.
    + unfold fit_opt_offset.
      rewrite scatter_nth
        by (rewrite ?invert_length, ?Linner; try lia;
            apply select_length; rewrite invert_length; lia).
      rewrite invert_nth by lia. rewrite Hact. cbn [negb].
      rewrite scatter_nth
        by (unfold zeros; rewrite ?repeat_length, ?map2_length,
              ?(select_length (fit_active self omega) (threshold self))
              by lia; lia).
      rewrite Hact.
      rewrite (map2_nth Qmult _ _ 0 0 0)
        by (rewrite ?(select_length (fit_active self omega)
                        (threshold self)) by lia; lia).
      unfold fit_active_signs.
      rewrite !select_nth by (rewrite ?length_map; auto; lia).
      rewrite (@fit_sign_Z_nth self omega i (conj Loss Lthr)
                 omega_length Hi).
      reflexivity.
  - split.
    + intros j Hj. unfold fit_opt_linear.
      cbn [ncols build fit_opt_linear] in Hj.
      rewrite mget_build by (auto; lia). rewrite Hact.
      unfold zeros2. rewrite mget_build by lia. reflexivity.
    + unfold fit_opt_offset.
      rewrite scatter_nth
        by (rewrite ?invert_length, ?Linner; try lia;
            apply select_length; rewrite invert_length; lia).
      rewrite invert_nth by lia. rewrite Hact. cbn [negb].
      rewrite select_nth
        by (rewrite ?invert_length; try lia;
            rewrite invert_nth by lia; now rewrite Hact).
      reflexivity.
Qed.

Lemma conditional_gaussian_empty p f c :
  conditional_gaussian (build p 0 f) (Query.Scalar c)
  = Ok (Mat 0 0 [], Mat 0 0 [], Mat 0 p []).
Proof.
  unfold conditional_gaussian, matmul.
  cbn [transpose build nrows ncols seq map]. rewrite Nat.eqb_refl.
  cbn [Py.bind mscale build nrows ncols seq map].
  unfold inv. cbn [nrows ncols Nat.eqb gauss_jordan map Py.bind].
  reflexivity.
Qed.

(** An empty selection: [fit] returns the all-[False] mask and builds a
    sampler on zero optimization variables. *)
Lemma screening_empty_selection (c : Q) :
  snd (Query.cov_prec (randomizer self)) = Query.Scalar c ->
  count_true (fit_active self omega) = O ->
  fst (fit perturb draw self) = Ok (fit_active self omega) /\
  num_opt_var self' = Some O /\
  exists smp,
    sampler self' = Some smp /\
    Query.sampler_observed_opt_state smp = [] /\
    Query.mean (Query.affine_con smp) = Arr1 [] /\
    Query.covariance (Query.affine_con smp) = Arr2 (Mat 0 0 []).
Proof.
  intros Hprec Hempty.
  pose proof (@fit_opt_state_length self omega shaped omega_length) as Lk.
  rewrite Hempty in Lk.
  pose proof (@fit_randomized_score_length self omega shaped omega_length)
    as Lrs.
  destruct (@fit_raw self perturb draw omega
              (fit_randomized_score self omega) (fit_soft_thresh self omega)
              eq_refl (@fit_sub_ok self omega shaped omega_length)
              (@fit_soft_threshold_ok self omega shaped omega_length)
              Lrs
              (@fit_soft_thresh_length self omega shaped omega_length)
              (proj2 shaped)) as [Hpre Htail].
  cbv zeta in Hpre, Htail. fold self' in Hpre, Htail.
  destruct Hpre as (_ & _ & _ & _ & _ & _ & Hnum & _).
  change (map fabs (select (map (fun x => ne x 0)
                              (fit_soft_thresh self omega))
                      (fit_soft_thresh self omega)))
    with (fit_opt_state self omega) in Hnum, Htail.
  rewrite Lk in Hnum, Htail. rewrite Hprec in Htail.
  assert (Lstate : fit_opt_state self omega = [])
    by now apply length_zero_iff_nil.
  rewrite Lstate in Htail.
  edestruct Htail as [Hret Hsmp].
  - apply conditional_gaussian_empty.
  - unfold cond_mean, sub.
    rewrite broadcast2_same.
    + cbn [Py.bind]. unfold matvec. cbn [ncols nrows seq map].
      rewrite map2_length. unfold neg. rewrite length_map.
      rewrite !scatter_length. unfold zeros. rewrite repeat_length.
      destruct shaped as [H1 H2]. rewrite H1, Nat.min_id, Nat.eqb_refl.
      reflexivity.
    + unfold neg. rewrite length_map, !scatter_length. unfold zeros.
      rewrite repeat_length. apply shaped.
  - split; [exact Hret|]. split; [exact Hnum|].
    eexists. split; [exact Hsmp|]. cbn. repeat split.
Qed.

End ScreeningClaims.

Section ScreeningRefit.

Import Np NpFacts Screening ScreeningFacts.

Ltac run_in H :=
  cbn -[sub mul soft_threshold getmask setmask setmask_scalar setmask_rows
        conditional_gaussian cond_mean zeros zeros2 diag build invert
        select scatter identity mneg neg map2 rank count_true] in H.

Ltac run_goal :=
  cbn -[sub mul soft_threshold getmask setmask setmask_scalar setmask_rows
        conditional_gaussian cond_mean zeros zeros2 diag build invert
        select scatter identity mneg neg map2 rank count_true].

Ltac first_run H :=
  repeat match type of H with
         | context [match ?x with Ok _ => _ | Raise _ => _ end] =>
             destruct x eqn:?; run_in H
         | context [let '(_, _) := ?x in _] =>
             destruct x as [[? ?] ?]; run_in H
         end.

Ltac second_run :=
  repeat match goal with
         | E : ?x = _ |- context [match ?x with Ok _ => _ | Raise _ => _ end] =>
             rewrite E; run_goal
         end.

(** A second [fit] with [perturb=None] on an object left by a first
    [fit] that stored the perturbation. *)
Lemma screening_refit_from self perturb draw r self1 draw' :
  fit perturb draw self = (r, self1) ->
  fit None draw' self1 = (r, self1).
Proof.
  intros H.
  destruct self as [oss p cov rnd om lvl thr f7 f8 f9 f10 f11 f12 f13 f14 f15].
  unfold fit in H. run_in H.
  destruct perturb as [w|]; [|destruct om as [w|]]; run_in H;
    first_run H; inversion H; subst r self1; clear H;
    unfold fit; run_goal; second_run; reflexivity.
Qed.

Lemma screening_fit_stores_omega self perturb draw :
  _initial_omega (snd (fit perturb draw self))
  = Some (omega_used perturb draw self).
Proof.
  destruct (fit perturb draw self) as [r self1] eqn:H.
  destruct self as [oss p cov rnd om lvl thr f7 f8 f9 f10 f11 f12 f13 f14 f15].
  unfold fit in H. run_in H.
  destruct perturb as [w|]; [|destruct om as [w|]]; run_in H;
    first_run H; inversion H; reflexivity.
Qed.

End ScreeningRefit.

Section SlopeRefit.

Import Np NpFacts Slope.

Context {AS : ArgSort} {SV : Regreg.Solver}.

Ltac run_in H :=
  cbn -[add sub mul getmask setmask setmask_scalar take matvec matmul
        getmask_cols scale_rows transpose cluster_loop asarray T dot
        take_cols nd_neg cond_precision linalg_inv mul_prec cond_mean
        zeros identity mneg neg invert sort unique argsort rev
        Regreg.solve Regreg.restricted_estimator Regreg.quadratic_grad
        Regreg.smooth_objective_grad Regreg.saturated_loss_hessian] in H.

Ltac run_goal :=
  cbn -[add sub mul getmask setmask setmask_scalar take matvec matmul
        getmask_cols scale_rows transpose cluster_loop asarray T dot
        take_cols nd_neg cond_precision linalg_inv mul_prec cond_mean
        zeros identity mneg neg invert sort unique argsort rev
        Regreg.solve Regreg.restricted_estimator Regreg.quadratic_grad
        Regreg.smooth_objective_grad Regreg.saturated_loss_hessian].

Ltac first_run H :=
  repeat match type of H with
         | context [match ?x with Ok _ => _ | Raise _ => _ end] =>
             destruct x eqn:?; run_in H
         | context [let '(_, _) := ?x in _] =>
             destruct x eqn:?; run_in H
         end.

Ltac second_run :=
  repeat match goal with
         | E : ?x = _ |- context [match ?x with Ok _ => _ | Raise _ => _ end] =>
             rewrite E; run_goal
         | E : ?x = _ |- context [let '(_, _) := ?x in _] =>
             rewrite E; run_goal
         end.

Lemma slope_refit_from self args perturb draw r self1 draw' :
  fit args perturb draw self = (r, self1) ->
  fit args None draw' self1 = (r, self1).
Proof.
  intros H.
  destruct self as [like p fw rnd ridge pen om f7 f8 f9 f10 f11 f12 f13
                      f14 f15 f16 f17 f18 f19 f20 f21].
  unfold fit in H. run_in H.
  destruct perturb as [w|]; [|destruct om as [w|]]; run_in H;
    first_run H; inversion H; subst r self1; clear H;
    unfold fit; run_goal; second_run; reflexivity.
Qed.

(** The perturbation [fit] works with: the one supplied, else the one
    stored, else a fresh draw. *)
Definition slope_omega_used (perturb : option vec) (draw : vec)
    (self : randomized_slope) : vec :=
  match perturb with
  | Some w => w
  | None =>
      match _initial_omega self with
      | Some w => w
      | None => draw
      end
  end.

Lemma slope_fit_stores_omega self args perturb draw :
  _initial_omega (snd (fit args perturb draw self))
  = Some (slope_omega_used perturb draw self).
Proof.
  destruct (fit args perturb draw self) as [r self1] eqn:H.
  destruct self as [like p fw rnd ridge pen om f7 f8 f9 f10 f11 f12 f13
                      f14 f15 f16 f17 f18 f19 f20 f21].
  unfold fit in H. run_in H.
  destruct perturb as [w|]; [|destruct om as [w|]]; run_in H;
    first_run H; inversion H; reflexivity.
Qed.

End SlopeRefit.

(** ** [np.sort] and [np.unique] *)

Module SortFacts.

Import Np.

Lemma insert_perm x l : Permutation (insert x l) (x :: l).
Proof.
  induction l as [|y l IH]; simpl.
  - reflexivity.
  - destruct (Qle_bool x y); [reflexivity|].
    rewrite IH. apply perm_swap.
Qed.

Lemma sort_perm l : Permutation (sort l) l.
Proof.
  induction l as [|x l IH]; simpl.
  - reflexivity.
  - unfold sort in *. simpl. rewrite insert_perm. now constructor.
Qed.

Lemma Qle_bool_false x y : Qle_bool x y = false -> y < x.
Proof.
  intros H. apply Qnot_le_lt. intros G. apply Qle_bool_iff in G. congruence.
Qed.

Lemma insert_sorted x l : Sorted Qle l -> Sorted Qle (insert x l).
Proof.
  induction 1 as [|y l Hs IH Hd]; simpl.
  - repeat constructor.
  - destruct (Qle_bool x y) eqn:E.
    + apply Qle_bool_iff in E. repeat constructor; assumption.
    + apply Qle_bool_false in E. constructor; [exact IH|].
      destruct Hd as [|z l Hz]; simpl.
      * constructor. now apply Qlt_le_weak.
      * destruct (Qle_bool x z); constructor;
          [now apply Qlt_le_weak | assumption].
Qed.

Lemma sort_sorted l : Sorted Qle (sort l).
Proof.
  induction l as [|x l IH]; [constructor|].
  unfold sort in *. simpl. now apply insert_sorted.
Qed.

Lemma sort_sorted_id l : Sorted Qle l -> sort l = l.
Proof.
  induction 1 as [|x l Hs IH Hd]; [reflexivity|].
  unfold sort in *. simpl. rewrite IH.
  destruct Hd as [|y l Hy]; [reflexivity|]. simpl.
  apply Qle_bool_iff in Hy. now rewrite Hy.
Qed.

Lemma dedup_cons x y l :
  dedup (x :: y :: l)
  = if Qeq_bool x y then dedup (y :: l) else x :: dedup (y :: l).
Proof. reflexivity. Qed.

Lemma dedup_InA x l : InA Qeq x (dedup l) <-> InA Qeq x l.
Proof.
  induction l as [|y l IH]; [reflexivity|].
  destruct l as [|z l]; [reflexivity|].
  rewrite dedup_cons. destruct (Qeq_bool y z) eqn:E.
  - rewrite IH. apply Qeq_bool_iff in E. split; intros H.
    + now constructor 2.
    + inversion H as [? ? Hxy|]; subst; [|assumption].
      constructor. now rewrite Hxy.
  - rewrite !InA_cons, <- (InA_cons Qeq x z l), <- IH. reflexivity.
Qed.

Lemma dedup_head x l :
  exists y l', dedup (x :: l) = y :: l' /\ y == x.
Proof.
  revert x; induction l as [|z l IH]; intros x.
  - exists x, []. split; reflexivity.
  - rewrite dedup_cons. destruct (Qeq_bool x z) eqn:E.
    + destruct (IH z) as (y & l' & H1 & H2). exists y, l'.
      split; [exact H1|]. apply Qeq_bool_iff in E. now rewrite H2, E.
    + eexists; eexists; split; reflexivity.
Qed.

Lemma dedup_sorted l : Sorted Qle l -> Sorted Qlt (dedup l).
Proof.
  induction 1 as [|x l Hs IH Hd]; [constructor|].
  destruct l as [|z l]; [repeat constructor|].
  rewrite dedup_cons. destruct (Qeq_bool x z) eqn:E; [exact IH|].
  constructor; [exact IH|].
  destruct (dedup_head z l) as (y & l' & H1 & H2). rewrite H1.
  constructor. rewrite H2. inversion Hd as [|? ? Hxz]; subst.
  apply Qle_lteq in Hxz. destruct Hxz as [Hlt|Heq]; [exact Hlt|].
  apply Qeq_bool_iff in Heq. congruence.
Qed.

Lemma Sorted_lt_le l : Sorted Qlt l -> Sorted Qle l.
Proof.
  induction 1 as [|x l Hs IH Hd]; constructor; [exact IH|].
  destruct Hd; constructor. now apply Qlt_le_weak.
Qed.

Lemma unique_sorted l : Sorted Qlt (unique l).
Proof. unfold unique. apply dedup_sorted, sort_sorted. Qed.

Lemma InA_perm x l l' : Permutation l l' -> InA Qeq x l -> InA Qeq x l'.
Proof.
  intros P H. apply InA_alt in H. destruct H as (y & Hy & Hin).
  apply InA_alt. exists y. split; [exact Hy|].
  eapply Permutation_in; eassumption.
Qed.

Lemma unique_InA x l : InA Qeq x (unique l) <-> InA Qeq x l.
Proof.
  unfold unique. rewrite dedup_InA. split; apply InA_perm.
  - apply sort_perm.
  - symmetry. apply sort_perm.
Qed.

(** [np.sort(np.unique(a))[::-1]] is [np.unique(a)[::-1]]. *)
Lemma sort_unique l : sort (unique l) = unique l.
Proof. apply sort_sorted_id, Sorted_lt_le, unique_sorted. Qed.

Lemma Qlt_strict : StrictOrder Qlt.
Proof.
  split.
  - intros x H. now apply Qlt_irrefl in H.
  - intros x y z. apply Qlt_trans.
Qed.

(** A strictly increasing list with the values of [a] is [np.unique(a)],
    value by value. *)
Lemma unique_characterised a l :
  Sorted Qlt l -> equivlistA Qeq l a -> eqlistA Qeq (unique a) l.
Proof.
  intros Hs He.
  apply (SortA_equivlistA_eqlistA Q_Setoid Qlt_strict Qlt_compat).
  - apply unique_sorted.
  - exact Hs.
  - intros x. rewrite unique_InA. symmetry. apply He.
Qed.

End SortFacts.

(** ** The clustering loop *)

Module LoopFacts.

Import Np NpFacts Slope.

Lemma take_ok {A} (a : list A) (idx : list nat) d :
  Forall (fun i => (i < length a)%nat) idx ->
  take a idx = Ok (map (fun i => nth i a d) idx).
Proof.
  induction 1 as [|i idx Hi Hall IH]; [reflexivity|].
  unfold take in *. cbn [mapM]. rewrite IH.
  destruct (nth_error a i) eqn:E.
  - cbn. now rewrite (nth_error_nth _ _ d E).
  - apply nth_error_None in E. lia.
Qed.

Lemma take_inv {A} (a : list A) (idx : list nat) r d :
  take a idx = Ok r ->
  r = map (fun i => nth i a d) idx /\
  Forall (fun i => (i < length a)%nat) idx.
Proof.
  revert r; induction idx as [|i idx IH]; intros r H.
  - inversion H. split; constructor.
  - unfold take in *. cbn [mapM] in H.
    destruct (nth_error a i) eqn:E; [|discriminate]. cbn in H.
    destruct (mapM _ idx) as [r'|] eqn:E'; [|discriminate]. cbn in H.
    inversion H; subst r. destruct (IH r' eq_refl) as [-> Hall].
    split.
    + cbn. now rewrite (nth_error_nth _ _ d E).
    + constructor; [|exact Hall]. apply nth_error_Some. congruence.
Qed.

Lemma set_nth_length {A} i (x : A) a : length (set_nth i x a) = length a.
Proof.
  revert i; induction a as [|y a IH]; intros [|i]; simpl; auto.
Qed.

Lemma put_ok {A} (a : list A) idx v :
  Forall (fun i => (i < length a)%nat) idx -> length idx = length v ->
  exists r, put a idx v = Ok r /\ length r = length a.
Proof.
  revert a v; induction idx as [|i idx IH]; intros a [|x v] Hall E;
    try discriminate.
  - exists a. split; reflexivity.
  - inversion Hall as [|? ? Hi Hall']; subst. cbn [put].
    apply Nat.ltb_lt in Hi. rewrite Hi.
    destruct (IH (set_nth i x a) v) as (r & Hr & Lr).
    + now rewrite set_nth_length.
    + simpl in E. lia.
    + exists r. split; [exact Hr|]. now rewrite Lr, set_nth_length.
Qed.

(** The number of clusters the loop closes after a run that started at a
    coordinate of value [cur], on the coordinates [rest] that follow. *)
Fixpoint cluster_count (cur : Q) (rest : vec) : nat :=
  match rest with
  | [] => O
  | x :: rest' =>
      if ne (fabs x) (fabs cur)
      then S (if eq x 0 then O else cluster_count x rest')
      else cluster_count cur rest'
  end.

Section Loop.

Variables (p : nat) (initial_soln sorted_soln : vec) (indices : list nat).

Hypothesis sorted_length : length sorted_soln = p.
Hypothesis indices_length : length indices = p.
Hypothesis indices_range :
  Forall (fun i => (i < length initial_soln)%nat) indices.

Lemma loop_body_ok j st c :
  (S j < p)%nat -> (cur_indx st <= j)%nat ->
  nth_error sorted_soln (cur_indx st) = Some c ->
  nth_error (cur_indx_array st) (pointer st) = Some (cur_indx st) ->
  length (cur_indx_array st) = S (pointer st) ->
  exists x,
    nth_error sorted_soln (S j) = Some x /\
    if ne (fabs x) (fabs c)
    then exists sign_vec,
        length sign_vec = p /\
        loop_body p initial_soln sorted_soln indices j st
        = Ok ({| cur_indx_array := cur_indx_array st ++ [S j];
                 cur_indx := S j;
                 pointer := S (pointer st);
                 signs_cluster := signs_cluster st ++ [sign_vec] |},
              eq x 0)
    else loop_body p initial_soln sorted_soln indices j st = Ok (st, false).
Proof.
  intros Hj Hcur Hc Harr Hlen.
  destruct (nth_error sorted_soln (S j)) as [x|] eqn:Ex;
    [|apply nth_error_None in Ex; lia].
  exists x. split; [reflexivity|].
  unfold loop_body. rewrite Ex, Hc. cbn [of_option Py.bind].
  destruct (ne (fabs x) (fabs c)); [|reflexivity].
  rewrite nth_error_app1 by (rewrite Hlen; lia).
  rewrite Harr. cbn [of_option Py.bind].
  set (positions := map (fun t => (t + cur_indx st)%nat)
                      (arange (S j - cur_indx st))).
  assert (Hpos : Forall (fun i => (i < p)%nat) positions).
  { apply Forall_forall. intros i Hi. unfold positions in Hi.
    apply in_map_iff in Hi. destruct Hi as (t & <- & Ht).
    apply in_seq in Ht. lia. }
  rewrite (take_ok indices O)
    by (rewrite indices_length; exact Hpos).
  cbn [Py.bind].
  rewrite (take_ok initial_soln 0).
  2:{ apply Forall_forall. intros i Hi. apply in_map_iff in Hi.
      destruct Hi as (t & <- & Ht).
      rewrite Forall_forall in indices_range. apply indices_range.
      apply nth_In. rewrite indices_length.
      rewrite Forall_forall in Hpos. now apply Hpos. }
  cbn [Py.bind].
  destruct (@put_ok Q (zeros p) positions
              (map sign (map (fun i => nth i initial_soln 0)
                           (map (fun i => nth i indices O) positions))))
    as (sv & Hsv & Lsv).
  - unfold zeros. now rewrite repeat_length.
  - now rewrite !length_map.
  - rewrite Hsv. cbn [Py.bind]. exists sv. split; [|reflexivity].
    rewrite Lsv. unfold zeros. apply repeat_length.
Qed.

Lemma for_range_count n : forall j0 st c,
  (j0 + n < p)%nat -> (cur_indx st <= j0)%nat ->
  nth_error sorted_soln (cur_indx st) = Some c ->
  nth_error (cur_indx_array st) (pointer st) = Some (cur_indx st) ->
  length (cur_indx_array st) = S (pointer st) ->
  exists st',
    for_range (loop_body p initial_soln sorted_soln indices) (seq j0 n) st
    = Ok st' /\
    length (signs_cluster st')
    = (length (signs_cluster st)
       + cluster_count c (firstn n (skipn (S j0) sorted_soln)))%nat /\
    (Forall (fun v => length v = p) (signs_cluster st) ->
     Forall (fun v => length v = p) (signs_cluster st')).
Proof.
  induction n as [|n IH]; intros j0 st c Hn Hcur Hc Harr Hlen.
  - exists st. cbn. split; [reflexivity|]. split; [lia|auto].
  - cbn [seq for_range].
    destruct (@loop_body_ok j0 st c) as (x & Ex & Hbody); try assumption;
      try lia.
    assert (Hskip : skipn (S j0) sorted_soln
                    = x :: skipn (S (S j0)) sorted_soln).
    { clear - Ex. revert Ex. generalize (S j0) as k. revert x.
      induction sorted_soln as [|y l IHl]; intros x [|k] E; cbn in *;
        try discriminate.
      - now inversion E.
      - now apply IHl. }
    rewrite Hskip. cbn [firstn cluster_count].
    destruct (ne (fabs x) (fabs c)).
    + destruct Hbody as (sv & Lsv & ->). cbn [Py.bind].
      destruct (eq x 0).
      * eexists. split; [reflexivity|]. cbn [signs_cluster].
        rewrite length_app. cbn. split; [lia|].
        intros H. apply Forall_app. split; [exact H|]. now repeat constructor.
      * destruct (IH (S j0)
                    {| cur_indx_array := cur_indx_array st ++ [S j0];
                       cur_indx := S j0;
                       pointer := S (pointer st);
                       signs_cluster := signs_cluster st ++ [sv] |} x)
          as (st' & Hst' & Hcount & Hall); cbn [cur_indx cur_indx_array
            pointer signs_cluster]; try lia; try assumption.
        -- rewrite nth_error_app2 by lia. rewrite Hlen, Nat.sub_diag.
           reflexivity.
        -- rewrite length_app. cbn. lia.
        -- exists st'. split; [exact Hst'|].
           cbn [signs_cluster] in Hcount. rewrite length_app in Hcount.
           cbn [length] in Hcount. split; [lia|].
           intros H. apply Hall. apply Forall_app. split; [exact H|].
           now repeat constructor.
    + rewrite Hbody. cbn [Py.bind].
      destruct (IH (S j0) st c) as (st' & Hst' & Hcount & Hall);
        try lia; try assumption.
      exists st'. repeat split; assumption.
Qed.

(** The loop returns, with one vector of length [p] per closed cluster. *)
Lemma cluster_loop_count :
  exists clusters,
    cluster_loop p initial_soln sorted_soln indices = Ok clusters /\
    Forall (fun v => length v = p) clusters /\
    length clusters = cluster_count (hd 0 sorted_soln) (tl sorted_soln).
Proof.
  unfold cluster_loop, arange.
  destruct (Nat.eq_dec p 0) as [Hp|Hp].
  - replace (p - 1)%nat with O by lia. cbn.
    exists []. split; [reflexivity|]. split; [constructor|].
    assert (E : sorted_soln = [])
      by (apply length_zero_iff_nil; lia).
    now rewrite E.
  - assert (E : exists s0 rest, sorted_soln = s0 :: rest).
    { destruct sorted_soln as [|s0 rest] eqn:Es.
      - cbn in *. lia.
      - eauto. }
    destruct E as (s0 & rest & E).
    destruct (@for_range_count (p - 1) O loop_init s0)
      as (st' & Hst' & Hcount & Hall); cbn [loop_init cur_indx pointer
        cur_indx_array signs_cluster]; try reflexivity; try lia.
    + now rewrite E.
    + rewrite Hst'. cbn [Py.bind].
      exists (signs_cluster st'). split; [reflexivity|].
      split; [apply Hall; constructor|].
      rewrite Hcount. cbn [length Nat.add]. rewrite E. cbn [skipn hd tl].
      rewrite firstn_all2; [reflexivity|].
      pose proof sorted_length as SL. rewrite E in SL. cbn in SL. lia.
Qed.

End Loop.

End LoopFacts.

(** ** Clusters and distinct magnitudes *)

Module CountFacts.

Import Np NpFacts Slope SortFacts LoopFacts.

(** Non-increasing, and decreasing. *)
Definition Qge' (x y : Q) : Prop := y <= x.
Definition Qgt' (x y : Q) : Prop := y < x.

Lemma Qeq_bool_comm x y : Qeq_bool x y = Qeq_bool y x.
Proof.
  destruct (Qeq_bool x y) eqn:E1, (Qeq_bool y x) eqn:E2; try reflexivity.
  - apply Qeq_bool_iff in E1. symmetry in E1. apply Qeq_bool_iff in E1.
    congruence.
  - apply Qeq_bool_iff in E2. symmetry in E2. apply Qeq_bool_iff in E2.
    congruence.
Qed.

Lemma fabs_nonneg x : 0 <= fabs x.
Proof. apply Qabs_nonneg. Qed.

Lemma fabs_zero x : fabs x == 0 <-> x == 0.
Proof.
  unfold fabs. split; intros H.
  - pose proof (Qabs_nonneg x).
    destruct (Qlt_le_dec x 0) as [Hn|Hp].
    + rewrite Qabs_neg in H by lra. lra.
    + rewrite Qabs_pos in H by lra. exact H.
  - rewrite H. reflexivity.
Qed.

Lemma cluster_count_compat c c' rest :
  fabs c == fabs c' -> cluster_count c rest = cluster_count c' rest.
Proof.
  intros E. induction rest as [|x rest IH]; [reflexivity|].
  cbn [cluster_count]. unfold ne. rewrite E, IH. reflexivity.
Qed.

Lemma dedup_sorted_desc l : Sorted Qge' l -> Sorted Qgt' (dedup l).
Proof.
  induction 1 as [|x l Hs IH Hd]; [constructor|].
  destruct l as [|z l]; [repeat constructor|].
  rewrite dedup_cons. destruct (Qeq_bool x z) eqn:E; [exact IH|].
  constructor; [exact IH|].
  destruct (dedup_head z l) as (y & l' & H1 & H2). rewrite H1.
  constructor. unfold Qgt'. rewrite H2.
  inversion Hd as [|? ? Hxz]; subst. unfold Qge' in Hxz.
  apply Qle_lteq in Hxz. destruct Hxz as [Hlt|Heq]; [exact Hlt|].
  symmetry in Heq. apply Qeq_bool_iff in Heq. congruence.
Qed.

Lemma dedup_zero_tail l x :
  Sorted Qge' (x :: l) -> Forall (fun y => 0 <= y) l -> x == 0 ->
  length (dedup (x :: l)) = 1%nat.
Proof.
  revert x; induction l as [|y l IH]; intros x Hs Hpos Hx; [reflexivity|].
  rewrite dedup_cons.
  inversion Hs as [|? ? Hs' Hd]; subst.
  inversion Hd as [|? ? Hxy]; subst. unfold Qge' in Hxy.
  inversion Hpos as [|? ? Hy Hpos']; subst.
  assert (Ey : y == 0) by lra.
  assert (E : Qeq_bool x y = true)
    by (apply Qeq_bool_iff; rewrite Hx, Ey; reflexivity).
  rewrite E. now apply IH.
Qed.

(** On magnitudes in non-increasing order the loop closes one cluster
    less than there are distinct magnitudes, zero included. *)
Lemma cluster_count_distinct rest : forall c,
  Sorted Qge' (map fabs (c :: rest)) ->
  S (cluster_count c rest) = length (dedup (map fabs (c :: rest))).
Proof.
  induction rest as [|x rest IH]; intros c Hs; [reflexivity|].
  cbn [map] in *. rewrite dedup_cons. cbn [cluster_count].
  inversion Hs as [|? ? Hs' Hd]; subst.
  unfold ne. rewrite (Qeq_bool_comm (fabs x) (fabs c)).
  destruct (Qeq_bool (fabs c) (fabs x)) eqn:E; cbn [negb].
  - apply Qeq_bool_iff in E.
    rewrite (@cluster_count_compat c x rest E). now apply IH.
  - cbn [length]. f_equal.
    destruct (eq x 0) eqn:Ez.
    + unfold eq in Ez. apply Qeq_bool_iff in Ez.
      symmetry. apply dedup_zero_tail.
      * exact Hs'.
      * apply Forall_forall. intros y Hy. apply in_map_iff in Hy.
        destruct Hy as (v & <- & _). apply fabs_nonneg.
      * now apply fabs_zero.
    + now apply IH.
Qed.

Lemma StronglySorted_snoc {A} (R : A -> A -> Prop) l x :
  StronglySorted R l -> Forall (fun y => R y x) l ->
  StronglySorted R (l ++ [x]).
Proof.
  induction 1 as [|y l Hs IH Hall]; intros H; cbn.
  - repeat constructor.
  - inversion H as [|? ? Hyx H']; subst. constructor; [now apply IH|].
    apply Forall_app. split; [exact Hall|]. now repeat constructor.
Qed.

Lemma Sorted_desc_rev l : Sorted Qgt' l -> Sorted Qlt (rev l).
Proof.
  intros Hs. apply StronglySorted_Sorted.
  apply Sorted_StronglySorted in Hs.
  2:{ intros x y z Hxy Hyz. unfold Qgt' in *. lra. }
  induction Hs as [|x l Hs IH Hall]; cbn; [constructor|].
  apply StronglySorted_snoc; [exact IH|].
  apply Forall_rev. exact Hall.
Qed.

Lemma select_map_filter {A} (f : A -> bool) (l : list A) :
  select (map f l) l = filter f l.
Proof.
  induction l as [|x l IH]; [reflexivity|].
  cbn. rewrite IH. reflexivity.
Qed.

Lemma ne_sign_zero x : ne (sign x) 0 = true <-> ~ x == 0.
Proof.
  unfold ne, sign. destruct (Qcompare_spec x 0) as [H|H|H]; cbn;
    split; intros G; try discriminate; try reflexivity; try lra;
    contradiction.
Qed.

Section Distinct.

Variable soln : vec.

Let active : mask := map (fun x => ne x 0) (map sign soln).
Let nonzero_soln : vec := select active soln.

Lemma nonzero_soln_filter :
  nonzero_soln = filter (fun x => ne (sign x) 0) soln.
Proof.
  unfold nonzero_soln, active. rewrite map_map.
  apply (select_map_filter (fun x => ne (sign x) 0)).
Qed.

Lemma InA_fabs_nonzero x :
  InA Qeq x (map fabs nonzero_soln)
  <-> exists v, In v soln /\ ~ v == 0 /\ x == fabs v.
Proof.
  rewrite nonzero_soln_filter, InA_alt. split.
  - intros (y & Hxy & Hy). apply in_map_iff in Hy.
    destruct Hy as (v & <- & Hv). apply filter_In in Hv.
    destruct Hv as [Hv Hnz]. apply ne_sign_zero in Hnz. eauto.
  - intros (v & Hv & Hnz & Hx). exists (fabs v). split; [exact Hx|].
    apply in_map. apply filter_In. split; [exact Hv|].
    now apply ne_sign_zero.
Qed.

Lemma InA_fabs x :
  InA Qeq x (map fabs soln) <-> exists v, In v soln /\ x == fabs v.
Proof.
  rewrite InA_alt. split.
  - intros (y & Hxy & Hy). apply in_map_iff in Hy.
    destruct Hy as (v & <- & Hv). eauto.
  - intros (v & Hv & Hx). exists (fabs v). split; [exact Hx|].
    now apply in_map.
Qed.

(** With a zero coordinate, the magnitudes count one value more than the
    magnitudes of the active coordinates. *)
Lemma unique_with_zero :
  (exists z, In z soln /\ z == 0) ->
  length (unique (map fabs soln))
  = S (length (unique (map fabs nonzero_soln))).
Proof.
  intros (z & Hz & Ez).
  change (S (length (unique (map fabs nonzero_soln))))
    with (length (0 :: unique (map fabs nonzero_soln))).
  apply (eqlistA_length (eqA := Qeq)).
  apply unique_characterised.
  - constructor; [apply unique_sorted|].
    destruct (unique (map fabs nonzero_soln)) as [|u us] eqn:Eu;
      constructor.
    assert (Hu : InA Qeq u (unique (map fabs nonzero_soln)))
      by (rewrite Eu; now constructor).
    apply unique_InA, InA_fabs_nonzero in Hu.
    destruct Hu as (v & _ & Hnz & ->).
    pose proof (fabs_nonneg v). pose proof (fabs_zero v).
    destruct (Qlt_le_dec 0 (fabs v)); [assumption|].
    exfalso. apply Hnz. apply H0. lra.
  - intros x. rewrite InA_cons, unique_InA, InA_fabs_nonzero, InA_fabs.
    split.
    + intros [Hx|(v & Hv & _ & Hx)].
      * exists z. split; [exact Hz|]. rewrite Hx, Ez. reflexivity.
      * eauto.
    + intros (v & Hv & Hx).
      destruct (Qeq_dec v 0) as [Ev|Ev].
      * left. rewrite Hx, Ev. reflexivity.
      * right. eauto.
Qed.

(** Without one, they are the magnitudes of the active coordinates. *)
Lemma unique_without_zero :
  (forall z, In z soln -> ~ z == 0) -> nonzero_soln = soln.
Proof.
  intros H. rewrite nonzero_soln_filter.
  apply forallb_filter_id. apply forallb_forall. intros x Hx.
  apply ne_sign_zero. now apply H.
Qed.

(** A rearrangement of the solution by decreasing magnitude. *)
Variable sorted_soln : vec.
Hypothesis sorted_perm : Permutation sorted_soln soln.
Hypothesis sorted_desc : Sorted Qge' (map fabs sorted_soln).

Lemma unique_length_dedup :
  length (unique (map fabs soln)) = length (dedup (map fabs sorted_soln)).
Proof.
  rewrite <- (length_rev (dedup (map fabs sorted_soln))).
  apply (eqlistA_length (eqA := Qeq)).
  apply unique_characterised.
  - apply Sorted_desc_rev, dedup_sorted_desc, sorted_desc.
  - intros x. rewrite InA_rev, dedup_InA. split; apply InA_perm.
    + now apply Permutation_map.
    + apply Permutation_map. now symmetry.
Qed.

(** The count of the loop against the length of [observed_opt_state]. *)
Lemma cluster_count_opt_state :
  sorted_soln <> [] ->
  let clusters := cluster_count (hd 0 sorted_soln) (tl sorted_soln) in
  let opt_state := rev (sort (unique (map fabs nonzero_soln))) in
  ((exists z, In z soln /\ z == 0) -> clusters = length opt_state) /\
  ((forall z, In z soln -> ~ z == 0) -> S clusters = length opt_state).
Proof.
  intros Hne clusters opt_state.
  assert (Hc : S clusters = length (unique (map fabs soln))).
  { rewrite unique_length_dedup. unfold clusters.
    destruct sorted_soln as [|s0 rest] eqn:Es; [contradiction|].
    cbn [hd tl]. now apply cluster_count_distinct. }
  unfold opt_state. rewrite length_rev, sort_unique. split; intros H.
  - rewrite (unique_with_zero H) in Hc. lia.
  - now rewrite (unique_without_zero H).
Qed.

End Distinct.

End CountFacts.

(** ** SLOPE: running [fit] *)

Module SlopeFacts.

Import Np NpFacts Slope.

Section Locals.

Context {AS : ArgSort} {SV : Regreg.Solver}.

Variables (self : randomized_slope) (args : Regreg.solve_args)
          (omega : vec).

(** The locals of [fit], as functions of the object, of the solver
    arguments and of the perturbation [omega] it works with. *)
Definition fit_quad : Regreg.identity_quadratic :=
  {| Regreg.coef := ridge_term self;
     Regreg.center := 0;
     Regreg.linear_term := neg omega;
     Regreg.constant_term := 0 |}.
Definition fit_soln : vec :=
  Regreg.solve (loglike self) (penalty self) fit_quad args.
Definition fit_active_signs : vec := map sign fit_soln.
Definition fit_active : mask := map (fun x => ne x 0) fit_active_signs.
Definition fit_indices : list nat := argsort (neg (map fabs fit_soln)).
Definition fit_opt_state : vec :=
  rev (sort (unique (map fabs (select fit_active fit_soln)))).
Definition fit_beta_unpenalized : vec :=
  Regreg.restricted_estimator (loglike self) fit_active args.

End Locals.

Ltac run :=
  cbn -[add sub mul getmask setmask setmask_scalar take matvec matmul
        getmask_cols scale_rows transpose cluster_loop asarray T dot
        take_cols nd_neg cond_precision linalg_inv mul_prec cond_mean
        zeros identity mneg neg invert sort unique argsort rev
        Regreg.solve Regreg.restricted_estimator Regreg.quadratic_grad
        Regreg.smooth_objective_grad Regreg.saturated_loss_hessian].

Ltac replay :=
  repeat match goal with
         | E : ?x = _ |- context [match ?x with Ok _ => _ | Raise _ => _ end] =>
             rewrite E; run
         | E : ?x = _ |- context [let '(_, _) := ?x in _] =>
             rewrite E; run
         end.

Section Run.

Context {AS : ArgSort} {SV : Regreg.Solver}.

(** [fit] run on an object for which every step before the product with
    [signs_cluster] is known to return. *)
Lemma slope_fit_raw self args perturb draw omega X y
    total_grad sorted_soln active_soln beta_bar fitted hessian_active
    score0 score1 clusters :
  slope_omega_used perturb draw self = omega ->
  let like := loglike self in
  let soln := fit_soln self args omega in
  let active := fit_active self args omega in
  let indices := fit_indices self args omega in
  let beta_unpenalized := fit_beta_unpenalized self args omega in
  Regreg.data like = (X, y) ->
  add (Regreg.smooth_objective_grad like soln)
    (Regreg.quadratic_grad (fit_quad self omega) soln) = Ok total_grad ->
  take soln indices = Ok sorted_soln ->
  getmask soln active = Ok active_soln ->
  setmask (zeros (nfeature self)) active beta_unpenalized = Ok beta_bar ->
  matvec X beta_bar = Ok fitted ->
  (let? Xa := getmask_cols X active in
   let? XaW := scale_rows Xa (Regreg.saturated_loss_hessian like fitted) in
   matmul (transpose X) XaW) = Ok hessian_active ->
  matvec hessian_active beta_unpenalized = Ok score0 ->
  (let? a := getmask score0 (invert active) in
   let? g := getmask (Regreg.smooth_objective_grad like beta_bar)
               (invert active) in
   let? upd := add a g in
   setmask score0 (invert active) upd) = Ok score1 ->
  cluster_loop (nfeature self) soln sorted_soln indices = Ok clusters ->
  let opt_state := rev (sort (unique (map fabs active_soln))) in
  let product :=
    let? X_clustered :=
      (let? Xs := take_cols X indices in
       dot (Arr2 Xs) (T (asarray clusters))) in
    let? m := dot (Arr2 (transpose X)) X_clustered in
    Ok (nd_neg m) in
  let run := fit args perturb draw self in
  let self' := snd run in
  initial_soln self' = Some soln /\
  _active self' = Some active /\
  observed_opt_state self' = Some opt_state /\
  num_opt_var self' = Some (length opt_state) /\
  observed_score_state self' = Some score1 /\
  match product with
  | Ok opt_linear =>
      opt_transform self' = Some (opt_linear, neg total_grad)
  | Raise e => fst run = Raise e
  end.
Proof.
  intros Homega like soln active indices beta_unpenalized
    Hdata Hgrad Htake Hmask Hbar Hfitted Hhess Hscore0 Hscore1 Hloop
    opt_state product.
  subst like soln active indices beta_unpenalized product.
  unfold fit_beta_unpenalized, fit_indices, fit_active, fit_active_signs,
    fit_soln, fit_quad in *.
  destruct self as [like p fw rnd ridge pen om f7 f8 f9 f10 f11 f12 f13
                      f14 f15 f16 f17 f18 f19 f20 f21].
  cbn [loglike nfeature penalty ridge_term _initial_omega] in *.
  assert (Hrun : forall om',
    match om' with Some w => w | None => draw end = omega ->
    let run := fit args None draw
      (Build_randomized_slope like p fw rnd ridge pen om' f7 f8 f9 f10 f11
         f12 f13 f14 f15 f16 f17 f18 f19 f20 f21) in
    let self' := snd run in
    initial_soln self'
    = Some (Regreg.solve like pen
              {| Regreg.coef := ridge; Regreg.center := 0;
                 Regreg.linear_term := neg omega;
                 Regreg.constant_term := 0 |} args) /\
    _active self'
    = Some (map (fun x => ne x 0)
              (map sign
                 (Regreg.solve like pen
                    {| Regreg.coef := ridge; Regreg.center := 0;
                       Regreg.linear_term := neg omega;
                       Regreg.constant_term := 0 |} args))) /\
    observed_opt_state self' = Some opt_state /\
    num_opt_var self' = Some (length opt_state) /\
    observed_score_state self' = Some score1 /\
    match
      (let? X_clustered :=
         (let? Xs :=
            take_cols X
              (argsort
                 (neg (map fabs
                         (Regreg.solve like pen
                            {| Regreg.coef := ridge; Regreg.center := 0;
                               Regreg.linear_term := neg omega;
                               Regreg.constant_term := 0 |} args)))) in
          dot (Arr2 Xs) (T (asarray clusters))) in
       let? m := dot (Arr2 (transpose X)) X_clustered in
       Ok (nd_neg m))
    with
    | Ok opt_linear =>
        opt_transform self' = Some (opt_linear, neg total_grad)
    | Raise e => fst run = Raise e
    end).
  { intros om' Hom'. clear Homega. unfold fit.
    destruct om' as [w|]; run; rewrite Hom'; replay;
      (destruct (let? Xs := take_cols X _ in dot (Arr2 Xs) _)
         as [xc|e1] eqn:E1; run;
       [destruct (let? m := dot (Arr2 (transpose X)) xc in Ok (nd_neg m))
          as [ol|e2] eqn:E2; run;
        [destruct (cond_precision ol _) as [cp|e3]; run;
         [destruct (linalg_inv cp) as [cc|e4]; run;
          [destruct (let? m := dot cc (T ol) in mul_prec m _)
             as [ll|e5]; run;
           [destruct (cond_mean ll _ _) as [mn|e6]; run|]|]|]|]|]);
      cbn [Py.bind]; rewrite ?E2; repeat split; reflexivity. }
  destruct perturb as [w|].
  - cbn [slope_omega_used] in Homega.
    specialize (Hrun (Some w) Homega). exact Hrun.
  - cbn [slope_omega_used _initial_omega] in Homega.
    specialize (Hrun om Homega). exact Hrun.
Qed.

(** The contract of the collaborators on the shapes of what they return:
    the solver returns one coefficient per column of the design, the
    gradients one entry per coefficient, the restricted estimator one
    coefficient per active feature, the hessian one weight per
    observation. *)
Definition oracle_shaped (like : Regreg.glm) : Prop :=
  let X := fst (Regreg.data like) in
  (forall pen quad a, length (Regreg.solve like pen quad a) = ncols X) /\
  (forall b, length b = ncols X ->
             length (Regreg.smooth_objective_grad like b) = ncols X) /\
  (forall quad b, length b = ncols X ->
                  length (Regreg.quadratic_grad quad b) = ncols X) /\
  (forall m a, length m = ncols X ->
               length (Regreg.restricted_estimator like m a)
               = count_true m) /\
  (forall eta, length eta = nrows X ->
               length (Regreg.saturated_loss_hessian like eta) = nrows X).

Lemma nonzero_from_spec m : forall k,
  length (nonzero_from k m) = count_true m /\
  Forall (fun i => (i < k + length m)%nat) (nonzero_from k m).
Proof.
  induction m as [|b m IH]; intros k; cbn.
  - split; [reflexivity|constructor].
  - destruct (IH (S k)) as [H1 H2]. unfold count_true in *.
    destruct b; cbn.
    + split; [now rewrite H1|]. constructor; [lia|].
      eapply Forall_impl; [|exact H2]. cbn. intros; lia.
    + split; [exact H1|].
      eapply Forall_impl; [|exact H2]. cbn. intros; lia.
Qed.

Lemma forallb_ltb n idx :
  Forall (fun i => (i < n)%nat) idx ->
  forallb (fun j => Nat.ltb j n) idx = true.
Proof.
  intros H. apply forallb_forall. intros i Hi.
  rewrite Forall_forall in H. apply Nat.ltb_lt. now apply H.
Qed.

Lemma argsort_range a :
  Forall (fun i => (i < length a)%nat) (argsort a).
Proof.
  apply Forall_forall. intros i Hi.
  apply (Permutation_in _ (argsort_perm a)) in Hi.
  apply in_seq in Hi. lia.
Qed.

Lemma argsort_length a : length (argsort a) = length a.
Proof.
  rewrite (Permutation_length (argsort_perm a)). apply length_seq.
Qed.

Lemma slope_fit_prefix self args perturb draw :
  oracle_shaped (loglike self) ->
  nfeature self = Regreg.shape (loglike self) ->
  let omega := slope_omega_used perturb draw self in
  let soln := fit_soln self args omega in
  let indices := fit_indices self args omega in
  let sorted_soln := map (fun i => nth i soln 0) indices in
  let run := fit args perturb draw self in
  exists clusters,
    cluster_loop (nfeature self) soln sorted_soln indices = Ok clusters /\
    Forall (fun v => length v = nfeature self) clusters /\
    length clusters
    = LoopFacts.cluster_count (hd 0 sorted_soln) (tl sorted_soln) /\
    initial_soln (snd run) = Some soln /\
    observed_opt_state (snd run) = Some (fit_opt_state self args omega) /\
    num_opt_var (snd run)
    = Some (length (fit_opt_state self args omega)) /\
    match clusters with
    | [] => nfeature self <> O -> fst run = Raise ValueError
    | _ :: _ =>
        exists opt_linear opt_offset,
          opt_transform (snd run) = Some (Arr2 opt_linear, opt_offset) /\
          nrows opt_linear = nfeature self /\
          ncols opt_linear = length clusters
    end.
Proof.
  intros (Osolve & Ograd & Oquad & Orest & Ohess) Hp
    omega soln indices sorted_soln run.
  unfold Regreg.shape in Hp.
  destruct (Regreg.data (loglike self)) as [X y] eqn:Hdata.
  cbn [fst] in *.
  set (p := nfeature self) in *.
  set (like := loglike self) in *.
  set (active := fit_active self args omega).
  set (beta_unpenalized := fit_beta_unpenalized self args omega).
  assert (Lsoln : length soln = p) by (unfold soln, fit_soln; rewrite Osolve; lia).
  assert (Lact : length active = p)
    by (unfold active, fit_active, fit_active_signs; now rewrite !length_map).
  assert (Lidx : length indices = p).
  { unfold indices, fit_indices. rewrite argsort_length.
    unfold neg. now rewrite !length_map. }
  assert (Ridx : Forall (fun i => (i < p)%nat) indices).
  { unfold indices, fit_indices.
    pose proof (argsort_range (neg (map fabs (fit_soln self args omega))))
      as H. unfold neg in H. rewrite !length_map in H.
    fold soln in H. now rewrite Lsoln in H. }
  assert (Lbeta : length beta_unpenalized = count_true active)
    by (unfold beta_unpenalized, fit_beta_unpenalized; apply Orest;
        fold active; lia).
(* each step returns *)
assert (Hgrad : add (Regreg.smooth_objective_grad like soln)
                  (Regreg.quadratic_grad (fit_quad self omega) soln)
                = Ok (map2 Qplus (Regreg.smooth_objective_grad like soln)
                        (Regreg.quadratic_grad (fit_quad self omega) soln)))
  by (apply broadcast2_same; rewrite Ograd, Oquad by lia; reflexivity).
assert (Htake : take soln indices = Ok sorted_soln)
  by (apply LoopFacts.take_ok; now rewrite Lsoln).
assert (Hmask : getmask soln active = Ok (select active soln))
  by (apply ScreeningFacts.getmask_ok; lia).
assert (Hbar : setmask (zeros p) active beta_unpenalized
               = Ok (scatter active (zeros p) beta_unpenalized))
  by (apply ScreeningFacts.setmask_ok;
      [unfold zeros; rewrite repeat_length; lia | exact Lbeta]).
set (beta_bar := scatter active (zeros p) beta_unpenalized) in *.
assert (Lbar : length beta_bar = p)
  by (unfold beta_bar; rewrite ScreeningFacts.scatter_length;
      unfold zeros; apply repeat_length).
assert (Hfitted : matvec X beta_bar
                  = Ok (map (fun i => dotprod (ncols X) (mget X i)
                                        (fun k => nth k beta_bar 0))
                          (seq 0 (nrows X))))
  by (apply matvec_ok; lia).
set (fitted := map (fun i => dotprod (ncols X) (mget X i)
                               (fun k => nth k beta_bar 0))
                 (seq 0 (nrows X))) in *.
assert (LW : length (Regreg.saturated_loss_hessian like fitted) = nrows X)
  by (apply Ohess; unfold fitted; now rewrite length_map, length_seq).
destruct (nonzero_from_spec active O) as [Lnz Rnz].
fold (nonzero active) in Lnz, Rnz.
set (W := Regreg.saturated_loss_hessian like fitted) in *.
set (Xa := build (nrows X) (length (nonzero active))
             (fun i j => mget X i (nth j (nonzero active) O))).
set (XaW := build (nrows Xa) (ncols Xa)
              (fun i j => mget Xa i j * nth i W 0)).
set (hessian_active :=
       build (nrows (transpose X)) (ncols XaW)
         (fun i j => dotprod (ncols (transpose X)) (mget (transpose X) i)
                       (fun k => mget XaW k j))).
assert (Hhess :
  (let? Xa := getmask_cols X active in
   let? XaW := scale_rows Xa W in
   matmul (transpose X) XaW) = Ok hessian_active).
{ unfold getmask_cols, take_cols.
  replace (Nat.eqb (length active) (ncols X)) with true
    by (symmetry; apply Nat.eqb_eq; lia).
  rewrite forallb_ltb
    by (eapply Forall_impl; [|exact Rnz]; cbn; intros; lia).
  cbn [Py.bind]. fold Xa. unfold scale_rows.
  replace (Nat.eqb (length W) (nrows Xa)) with true
    by (symmetry; apply Nat.eqb_eq; cbn; lia).
  cbn [Py.bind]. fold XaW. unfold matmul.
  replace (Nat.eqb (ncols (transpose X)) (nrows XaW)) with true
    by (symmetry; apply Nat.eqb_eq; reflexivity).
  reflexivity. }
assert (Hscore0 :
  matvec hessian_active beta_unpenalized
  = Ok (map (fun i => dotprod (ncols hessian_active)
                        (mget hessian_active i)
                        (fun k => nth k beta_unpenalized 0))
          (seq 0 (nrows hessian_active))))
  by (apply matvec_ok; cbn; lia).
set (score0 := map (fun i => dotprod (ncols hessian_active)
                               (mget hessian_active i)
                               (fun k => nth k beta_unpenalized 0))
                 (seq 0 (nrows hessian_active))) in *.
assert (Lscore0 : length score0 = p)
  by (unfold score0; rewrite length_map, length_seq; cbn; lia).
set (inactive := invert active).
assert (Linact : length inactive = p)
  by (unfold inactive; now rewrite ScreeningFacts.invert_length).
set (score1 :=
       scatter inactive score0
         (map2 Qplus (select inactive score0)
            (select inactive
               (Regreg.smooth_objective_grad like beta_bar)))).
assert (Hscore1 :
  (let? a := getmask score0 inactive in
   let? g := getmask (Regreg.smooth_objective_grad like beta_bar)
               inactive in
   let? upd := add a g in
   setmask score0 inactive upd) = Ok score1).
{ rewrite ScreeningFacts.getmask_ok by lia. cbn [Py.bind].
  rewrite ScreeningFacts.getmask_ok by (rewrite Ograd; lia).
  cbn [Py.bind]. unfold add.
  rewrite broadcast2_same
    by (rewrite !ScreeningFacts.select_length;
        rewrite ?Ograd; lia).
  cbn [Py.bind]. apply ScreeningFacts.setmask_ok; [lia|].
  rewrite map2_length, !ScreeningFacts.select_length;
    rewrite ?Ograd; lia. }
destruct (@LoopFacts.cluster_loop_count p soln sorted_soln indices)
  as (clusters & Hloop & Hall & Hcount).
{ unfold sorted_soln. now rewrite length_map. }
{ exact Lidx. }
{ now rewrite Lsoln. }
exists clusters. split; [exact Hloop|]. split; [exact Hall|].
split; [exact Hcount|].
pose proof (@slope_fit_raw self args perturb draw omega X y _ _ _ _ _ _ _ _
              clusters eq_refl Hdata Hgrad Htake Hmask Hbar Hfitted
              Hhess Hscore0 Hscore1 Hloop) as Hraw.
cbv zeta in Hraw. fold run in Hraw.
destruct Hraw as (Hsoln & _ & Hstate & Hnum & _ & Hprod).
split; [exact Hsoln|]. split; [exact Hstate|]. split; [exact Hnum|].
fold indices in Hprod.
unfold take_cols in Hprod.
rewrite forallb_ltb in Hprod
  by (eapply Forall_impl; [|exact Ridx]; cbn; intros; lia).
cbn [Py.bind] in Hprod.
destruct clusters as [|v clusters].
- intros Hp0. cbn [asarray T dot] in Hprod.
  unfold matvec in Hprod. cbn [ncols build length] in Hprod.
  replace (Nat.eqb (length indices) 0) with false in Hprod
    by (symmetry; apply Nat.eqb_neq; lia).
  exact Hprod.
- cbn [asarray T dot] in Hprod.
  inversion Hall as [|? ? Lv Hall']; subst.
  unfold matmul in Hprod at 1. cbn [ncols nrows build transpose] in Hprod.
  replace (Nat.eqb (length indices) (length v)) with true in Hprod
    by (symmetry; apply Nat.eqb_eq; lia).
  cbn [Py.bind] in Hprod.
  unfold matmul in Hprod. cbn [ncols nrows build transpose] in Hprod.
  rewrite Nat.eqb_refl in Hprod. cbn [Py.bind nd_neg mneg] in Hprod.
  eexists; eexists. split; [exact Hprod|].
  cbn [nrows ncols build mneg transpose]. split; [lia|reflexivity].
Qed.

Lemma map_nth_seq {A} (l : list A) d :
  map (fun i => nth i l d) (seq 0 (length l)) = l.
Proof.
  induction l as [|x l IH]; [reflexivity|].
  cbn [length seq map nth]. f_equal.
  rewrite <- seq_shift, map_map. exact IH.
Qed.

Lemma Sorted_map_rel {A B} (R : B -> B -> Prop) (R' : B -> B -> Prop)
    (g h : A -> B) (l : list A) :
  (forall i j, In i l -> In j l -> R (g i) (g j) -> R' (h i) (h j)) ->
  Sorted R (map g l) -> Sorted R' (map h l).
Proof.
  induction l as [|i l IH]; intros H Hs; cbn in *; [constructor|].
  inversion Hs as [|? ? Hs' Hd]; subst. constructor.
  - apply IH; [|exact Hs']. intros; apply H; auto.
  - destruct l as [|j l]; cbn in *; constructor.
    inversion Hd; subst. apply H; auto.
Qed.

(** [sorted_soln = initial_soln[indices]] lists the solution by
    non-increasing magnitude. *)
Lemma sorted_soln_desc (soln : vec) :
  let sorted_soln :=
    map (fun i => nth i soln 0) (argsort (neg (map fabs soln))) in
  Permutation sorted_soln soln /\
  Sorted CountFacts.Qge' (map fabs sorted_soln).
Proof.
  intros sorted_soln. unfold sorted_soln.
  pose proof (argsort_perm (neg (map fabs soln))) as P.
  pose proof (argsort_sorted (neg (map fabs soln))) as S.
  unfold neg in P. rewrite !length_map in P.
  split.
  - rewrite <- (map_nth_seq soln 0) at 2. now apply Permutation_map.
  - rewrite map_map. apply StronglySorted_Sorted in S.
    revert S. apply Sorted_map_rel. intros i j Hi Hj H.
    apply (Permutation_in _ P), in_seq in Hi.
    apply (Permutation_in _ P), in_seq in Hj.
    unfold CountFacts.Qge'.
    assert (E : forall k, (k < length soln)%nat ->
                nth k (neg (map fabs soln)) 0 == - fabs (nth k soln 0)).
    { intros k Hk. rewrite nth_neg.
      rewrite (nth_indep _ 0 (fabs 0)) by (rewrite length_map; lia).
      now rewrite (map_nth fabs). }
    rewrite !E in H by lia. lra.
Qed.

Lemma cond_precision_shape (opt_linear : matrix) (c : Q) :
  exists M,
    cond_precision (Arr2 opt_linear) (Query.Scalar c) = Ok (Arr2 M) /\
    nrows M = ncols opt_linear /\ ncols M = ncols opt_linear.
Proof.
  unfold cond_precision. cbn [T dot]. unfold matmul.
  cbn [ncols nrows transpose build]. rewrite Nat.eqb_refl.
  cbn [Py.bind mul_prec nd_scale mscale]. eexists. split; [reflexivity|].
  cbn [nrows ncols build]. split; reflexivity.
Qed.

End Run.

End SlopeFacts.

Section SlopeClaims.

Import Np NpFacts Slope SlopeFacts.

Context {AS : ArgSort} {SV : Regreg.Solver}.

Variables (self : randomized_slope) (args : Regreg.solve_args)
          (perturb : option vec) (draw : vec).

Let omega := slope_omega_used perturb draw self.
Let soln := fit_soln self args omega.
Let indices := fit_indices self args omega.
Let sorted_soln := map (fun i => nth i soln 0) indices.
Let self' := snd (fit args perturb draw self).

Hypothesis shaped : oracle_shaped (loglike self).
Hypothesis features : nfeature self = Regreg.shape (loglike self).

Lemma opt_state_nonempty :
  (exists v, In v soln /\ ~ v == 0) ->
  fit_opt_state self args omega <> [].
Proof.
  intros (v & Hv & Hnz) E.
  assert (H : InA Qeq (fabs v)
                (unique (map fabs (select (fit_active self args omega)
                                     soln)))).
  { apply SortFacts.unique_InA. apply CountFacts.InA_fabs_nonzero.
    exists v. split; [exact Hv | split; [exact Hnz | reflexivity]]. }
  unfold fit_opt_state in E. fold soln in E.
  rewrite SortFacts.sort_unique in E.
  apply (f_equal (@rev Q)) in E. rewrite rev_involutive in E. cbn in E.
  rewrite E in H. inversion H.
Qed.

(** C9 (amended). For a SLOPE fit whose solution has a zero coordinate
    and a non-zero one, the clustering loop emits one sign vector per
    distinct non-zero magnitude: [opt_linear] has [num_opt_var] columns,
    the length of [observed_opt_state], and [cond_precision] is
    [num_opt_var x num_opt_var].  The agreement rests on the zero
    coordinate: when no coordinate is zero the last cluster is never
    closed and the loop emits one vector less than there are entries in
    [observed_opt_state]. *)
Theorem slope_cluster_columns (c : Q) :
  snd (Query.cov_prec (randomizer self)) = Query.Scalar c ->
  (exists v, In v soln /\ ~ v == 0) ->
  exists clusters opt_state,
    cluster_loop (nfeature self) soln sorted_soln indices = Ok clusters /\
    observed_opt_state self' = Some opt_state /\
    num_opt_var self' = Some (length opt_state) /\
    ((exists z, In z soln /\ z == 0) ->
     length clusters = length opt_state /\
     exists opt_linear opt_offset cond_prec,
       opt_transform self' = Some (Arr2 opt_linear, opt_offset) /\
       nrows opt_linear = nfeature self /\
       ncols opt_linear = length opt_state /\
       cond_precision (Arr2 opt_linear)
         (snd (Query.cov_prec (randomizer self))) = Ok (Arr2 cond_prec) /\
       nrows cond_prec = length opt_state /\
       ncols cond_prec = length opt_state) /\
    ((forall z, In z soln -> ~ z == 0) ->
     S (length clusters) = length opt_state).
Proof.
  intros Hprec Hnz.
  destruct (@slope_fit_prefix AS SV self args perturb draw shaped features)
    as (clusters & Hloop & Hall & Hcount & _ & Hstate & Hnum & Hprod).
  fold omega soln indices sorted_soln self' in Hloop, Hcount, Hstate,
    Hnum, Hprod.
  fold omega in Hstate, Hnum.
  destruct (sorted_soln_desc soln) as [Hperm Hdesc].
  fold indices sorted_soln in Hperm, Hdesc.
  unfold indices, fit_indices in Hperm, Hdesc. fold soln in Hperm, Hdesc.
  fold indices in Hperm, Hdesc. fold sorted_soln in Hperm, Hdesc.
  assert (Hne : sorted_soln <> []).
  { destruct Hnz as (v & Hv & _). intros E.
    assert (Hv' : In v sorted_soln)
      by (apply (Permutation_in _ (Permutation_sym Hperm)); exact Hv).
    rewrite E in Hv'. exact Hv'. }
  destruct (@CountFacts.cluster_count_opt_state soln sorted_soln Hperm
              Hdesc Hne) as [Hzero Hnozero].
  rewrite <- Hcount in Hzero, Hnozero.
  exists clusters, (fit_opt_state self args omega).
  split; [exact Hloop|]. split; [exact Hstate|]. split; [exact Hnum|].
  split.
  - intros Hz. specialize (Hzero Hz). split; [exact Hzero|].
    pose proof (opt_state_nonempty Hnz) as Hnonempty.
    destruct clusters as [|v clusters].
    + exfalso. apply Hnonempty. apply length_zero_iff_nil.
      symmetry. exact Hzero.
    + destruct Hprod as (L & off & Htrans & HrL & HcL).
      destruct (cond_precision_shape L c) as (M & HM & HrM & HcM).
      exists L, off, M. rewrite Hprec.
      assert (Hk : ncols L = length (fit_opt_state self args omega))
        by (rewrite HcL; exact Hzero).
      split; [exact Htrans|]. split; [exact HrL|]. split; [exact Hk|].
      split; [exact HM|]. split; congruence.
  - intros Hz. apply Hnozero. exact Hz.
Qed.

Lemma indices_length : length indices = nfeature self.
Proof.
  unfold indices, fit_indices. fold soln.
  rewrite argsort_length. unfold neg. rewrite !length_map.
  destruct shaped as (Osolve & _). unfold soln, fit_soln.
  rewrite Osolve. symmetry. exact features.
Qed.

Lemma indices_range :
  Forall (fun i => (i < length soln)%nat) indices.
Proof.
  unfold indices, fit_indices. fold soln.
  pose proof (argsort_range (neg (map fabs soln))) as H.
  unfold neg in H. now rewrite !length_map in H.
Qed.




Lemma cluster_count_zero c rest :
  c == 0 -> Forall (fun x => x == 0) rest ->
  LoopFacts.cluster_count c rest = O.
Proof.
  intros Hc. induction 1 as [|x rest Hx Hall IH]; [reflexivity|].
  cbn [LoopFacts.cluster_count].
  rewrite ScreeningFacts.ne_false; [exact IH|].
  unfold fabs. rewrite Hx, Hc. reflexivity.
Qed.

(** An all-zero solution: the loop closes no cluster, [signs_cluster] is
    the empty 1-d array and the product [X[:, indices].dot(signs_cluster)]
    raises on the shapes, before any matrix is inverted. *)
Lemma slope_empty_active_raises :
  (forall v, In v soln -> v == 0) -> nfeature self <> O ->
  cluster_loop (nfeature self) soln sorted_soln indices = Ok [] /\
  fst (fit args perturb draw self) = Raise ValueError.
Proof.
  intros Hzero Hp.
  destruct (@slope_fit_prefix AS SV self args perturb draw shaped features)
    as (clusters & Hloop & _ & Hcount & _ & _ & _ & Hprod).
  fold omega soln indices sorted_soln in Hloop, Hcount, Hprod.
  destruct (sorted_soln_desc soln) as [Hperm _].
  change (Permutation sorted_soln soln) in Hperm.
  assert (Hall : Forall (fun x => x == 0) sorted_soln).
  { apply Forall_forall. intros x Hx. apply Hzero.
    now apply (Permutation_in _ Hperm). }
  assert (Hc : length clusters = O).
  { rewrite Hcount. destruct sorted_soln as [|s0 rest]; [reflexivity|].
    inversion Hall; subst. now apply cluster_count_zero. }
  apply length_zero_iff_nil in Hc. subst clusters.
  split; [exact Hloop|]. now apply Hprod.
Qed.

End SlopeClaims.

(** C7. On a builder, marginal screening or SLOPE, on which [fit] has run,
    a second [fit] with [perturb=None] works with the perturbation the
    first one stored, whatever a fresh draw would have been, and, the
    solver being a function of its inputs, returns the same value and
    leaves every attribute as the first call left it: the same active set,
    signs, [observed_opt_state] and sampler. *)
Theorem refit_reuses_stored_perturbation :
  (forall (self : Screening.marginal_screening) perturb draw draw',
      let first := Screening.fit perturb draw self in
      Screening._initial_omega (snd first)
      = Some (ScreeningFacts.omega_used perturb draw self) /\
      Screening.fit None draw' (snd first) = first) /\
  (forall (AS : Np.ArgSort) (SV : Regreg.Solver)
          (self : Slope.randomized_slope) args perturb draw draw',
      let first := Slope.fit args perturb draw self in
      Slope._initial_omega (snd first)
      = Some (slope_omega_used perturb draw self) /\
      Slope.fit args None draw' (snd first) = first).
Proof.
  split.
  - intros self perturb draw draw' first. split.
    + apply screening_fit_stores_omega.
    + subst first. destruct (Screening.fit perturb draw self) as [r s1] eqn:E.
      cbn [snd]. eapply screening_refit_from; eassumption.
  - intros AS SV self args perturb draw draw' first. split.
    + apply slope_fit_stores_omega.
    + subst first.
      destruct (Slope.fit args perturb draw self) as [r s1] eqn:E.
      cbn [snd]. eapply slope_refit_from; eassumption.
Qed.

(** C3 (amended). On an empty active set neither builder reports a
    singular matrix.  [marginal_screening.fit] returns: the mask is all
    [False], [num_opt_var] is 0 and the sampler is built on zero
    optimization variables, the 0 x 0 [cond_precision] being inverted to
    the 0 x 0 matrix.  [randomized_slope.fit], on a solution that is zero
    on each of its [p >= 1] coordinates, does not return: the loop closes
    no cluster and the product with the empty [signs_cluster] raises on
    the shapes. *)
Theorem empty_active_set_behaviour :
  (forall (self : Screening.marginal_screening) perturb draw c,
      let omega := ScreeningFacts.omega_used perturb draw self in
      let run := Screening.fit perturb draw self in
      ScreeningFacts.well_shaped self ->
      length omega = Screening.nfeature self ->
      snd (Query.cov_prec (Screening.randomizer self)) = Query.Scalar c ->
      Np.count_true (ScreeningFacts.fit_active self omega) = O ->
      fst run = Ok (ScreeningFacts.fit_active self omega) /\
      Screening.num_opt_var (snd run) = Some O /\
      exists smp,
        Screening.sampler (snd run) = Some smp /\
        Query.sampler_observed_opt_state smp = [] /\
        Query.mean (Query.affine_con smp) = Np.Arr1 [] /\
        Query.covariance (Query.affine_con smp)
        = Np.Arr2 (Np.Mat 0 0 [])) /\
  (forall (AS : Np.ArgSort) (SV : Regreg.Solver)
          (self : Slope.randomized_slope) args perturb draw,
      let omega := slope_omega_used perturb draw self in
      let soln := SlopeFacts.fit_soln self args omega in
      SlopeFacts.oracle_shaped (Slope.loglike self) ->
      Slope.nfeature self = Regreg.shape (Slope.loglike self) ->
      (forall v, In v soln -> v == 0) ->
      Slope.nfeature self <> O ->
      fst (Slope.fit args perturb draw self) = Raise ValueError).
Proof.
  split.
  - intros self perturb draw c omega run Hs Ho Hp He.
    exact (@screening_empty_selection self perturb draw Hs Ho c Hp He).
  - intros AS SV self args perturb draw omega soln Hs Hf Hz Hp.
    exact (proj2 (@slope_empty_active_raises AS SV self args perturb draw
                    Hs Hf Hz Hp)).
Qed.

(** ** Instances of the collaborators *)

Module Instances.

Import Np.

(** A stable [argsort]: insertion of the positions by their keys. *)
Fixpoint insert_index (a : vec) (i : nat) (l : list nat) : list nat :=
  match l with
  | [] => [i]
  | j :: l' =>
      if Qle_bool (nth i a 0) (nth j a 0) then i :: l
      else j :: insert_index a i l'
  end.

Definition stable_argsort (a : vec) : list nat :=
  fold_right (insert_index a) [] (seq 0 (length a)).

Lemma insert_index_perm a i l : Permutation (insert_index a i l) (i :: l).
Proof.
  induction l as [|j l IH]; cbn.
  - reflexivity.
  - destruct (Qle_bool _ _); [reflexivity|].
    rewrite IH. apply perm_swap.
Qed.

Lemma insert_index_sorted a i l :
  Sorted Qle (map (fun k => nth k a 0) l) ->
  Sorted Qle (map (fun k => nth k a 0) (insert_index a i l)).
Proof.
  induction l as [|j l IH]; intros Hs; cbn.
  - repeat constructor.
  - inversion Hs as [|? ? Hs' Hd]; subst.
    destruct (Qle_bool (nth i a 0) (nth j a 0)) eqn:E.
    + apply Qle_bool_iff in E. cbn. repeat constructor; assumption.
    + apply SortFacts.Qle_bool_false in E. cbn.
      constructor; [now apply IH|].
      destruct l as [|k l]; cbn.
      * constructor. now apply Qlt_le_weak.
      * inversion Hd; subst.
        destruct (Qle_bool (nth i a 0) (nth k a 0)); cbn; constructor;
          [now apply Qlt_le_weak | assumption].
Qed.

Lemma fold_insert_index_spec a l :
  Permutation (fold_right (insert_index a) [] l) l /\
  Sorted Qle (map (fun k => nth k a 0) (fold_right (insert_index a) [] l)).
Proof.
  induction l as [|i l [IHp IHs]]; cbn.
  - split; constructor.
  - split.
    + rewrite insert_index_perm. now constructor.
    + now apply insert_index_sorted.
Qed.

#[export] Instance stable : ArgSort.
Proof.
  refine {| argsort := stable_argsort |}.
  - intros a. apply fold_insert_index_spec.
  - intros a. apply Sorted_StronglySorted.
    + intros x y z. apply Qle_trans.
    + apply fold_insert_index_spec.
Defined.

(** The least-squares loss [rr.glm.gaussian(X, y)]: gradient
    [X^T (X b - y)], unit hessian, identity mean function. *)
Definition gaussian (X : matrix) (y : vec) : Regreg.glm :=
  {| Regreg.data := (X, y);
     Regreg.smooth_objective_grad := fun b =>
       map (fun j =>
              dotprod (nrows X) (fun i => mget X i j)
                (fun i => dotprod (ncols X) (mget X i)
                            (fun k => nth k b 0) - nth i y 0))
         (seq 0 (ncols X));
     Regreg.saturated_loss_hessian := fun eta => map (fun _ => 1) eta;
     Regreg.saturated_loss_mean_function := fun eta => eta |}.

(** A solver that has converged to [soln]: [solve] returns it and the
    restricted estimator is its restriction to the active features; the
    gradient of the quadratic is [coef * (x - center) + linear_term]. *)
Definition converged (soln : vec) : Regreg.Solver :=
  {| Regreg.quadratic_grad := fun quad b =>
       map (fun k => Regreg.coef quad * (nth k b 0 - Regreg.center quad)
                     + nth k (Regreg.linear_term quad) 0)
         (seq 0 (length b));
     Regreg.solve := fun _ _ _ _ => soln;
     Regreg.restricted_estimator := fun _ m _ => select m soln |}.

Lemma converged_shaped X y soln :
  length soln = ncols X ->
  @SlopeFacts.oracle_shaped (converged soln) (gaussian X y).
Proof.
  intros L. unfold SlopeFacts.oracle_shaped. cbn. repeat split.
  - intros. exact L.
  - intros. now rewrite length_map, length_seq.
  - intros quad b Hb. now rewrite length_map, length_seq.
  - intros m a Hm. apply ScreeningFacts.select_length. congruence.
  - intros eta He. now rewrite length_map.
Qed.

(** A SLOPE problem on the identity design with four features, whose
    solution is [0, -3, 2, 3]. *)
Definition slope_four : Slope.randomized_slope :=
  Slope.init (gaussian (identity 4) [0; 0; 0; 0]) (Slope.Float 1) 0 1 None.

Definition soln_four : vec := [0; -3; 2; 3].

(** A SLOPE problem with one feature, whose solution is zero. *)
Definition slope_one : Slope.randomized_slope :=
  Slope.init (gaussian (identity 1) [3]) (Slope.Float 1) 0 1 None.

(** A screening problem with two features of threshold 1, observed data
    [0.5, 2]. *)
Definition screening_two : Screening.marginal_screening :=
  {| Screening.observed_score_state := [-(1 # 2); -2];
     Screening.nfeature := 2;
     Screening.covariance := identity 2;
     Screening.randomizer := Query.isotropic_gaussian 2 1;
     Screening._initial_omega := None;
     Screening.marginal_level := 1 # 10;
     Screening.threshold := [1; 1];
     Screening.initial_soln := None;
     Screening._selected := None;
     Screening._not_selected := None;
     Screening.selection_variable := None;
     Screening.observed_opt_state := None;
     Screening.num_opt_var := None;
     Screening.opt_transform := None;
     Screening._setup := None;
     Screening.sampler := None |}.

(** A screening problem with one feature of threshold 1 and observed
    datum [d]. *)
Definition screening_one (d : Q) : Screening.marginal_screening :=
  {| Screening.observed_score_state := [- d];
     Screening.nfeature := 1;
     Screening.covariance := identity 1;
     Screening.randomizer := Query.isotropic_gaussian 1 1;
     Screening._initial_omega := None;
     Screening.marginal_level := 1 # 10;
     Screening.threshold := [1];
     Screening.initial_soln := None;
     Screening._selected := None;
     Screening._not_selected := None;
     Screening.selection_variable := None;
     Screening.observed_opt_state := None;
     Screening.num_opt_var := None;
     Screening.opt_transform := None;
     Screening._setup := None;
     Screening.sampler := None |}.

(** Rational stand-ins for the special functions, to run the code on a
    concrete input: the identity for [np.sqrt] (exact at 0 and 1), and the
    sigmoid [(1 + x / (1 + |x|)) / 2] with its inverse for the normal
    distribution function and its quantile function. *)
Definition rational_special : Special :=
  {| np_sqrt := fun x => x;
     norm_ppf := fun q => (2 * q - 1) / (1 - Qabs (2 * q - 1));
     norm_cdf := fun x => (1 + x / (1 + Qabs x)) / 2 |}.

End Instances.

(** ** The claims on concrete problems *)

Section Concrete.

Import Np Instances.


Lemma slope_cluster_columns_witness :
  exists clusters opt_state,
    Slope.observed_opt_state
      (snd (@Slope.fit stable (converged soln_four) Slope.fit_solve_args
              None [0; 0; 0; 0] slope_four))
    = Some opt_state /\
    Slope.cluster_loop 4 soln_four [-3; 3; 2; 0] [1; 3; 2; 0]%nat
    = Ok clusters /\
    length clusters = length opt_state.
Proof.
  destruct (@slope_cluster_columns stable (converged soln_four)
              slope_four Slope.fit_solve_args None [0; 0; 0; 0]
              (@converged_shaped (identity 4) [0; 0; 0; 0] soln_four
                 eq_refl)
              eq_refl (/ (1 * 1)) eq_refl)
    as (clusters & opt_state & Hloop & Hstate & _ & Hzero & _).
  - exists 3. split; [cbn; auto | discriminate].
  - exists clusters, opt_state. split; [exact Hstate|].
    split; [exact Hloop|]. apply Hzero.
    exists 0. split; [cbn; auto | reflexivity].
Defined.

(** The claim C9 as stated fails on a solution that is zero everywhere:
    it has a zero coordinate, yet [fit] raises and [opt_linear] is never
    formed. *)
Lemma slope_all_zero_counterexample :
  let run := @Slope.fit stable (converged [0]) Slope.fit_solve_args
               None [0] slope_one in
  In 0 (@SlopeFacts.fit_soln (converged [0]) slope_one
          Slope.fit_solve_args [0]) /\
  fst run = Raise ValueError /\
  Slope.opt_transform (snd run) = None /\
  Slope.num_opt_var (snd run) = Some O.
Proof. vm_compute. repeat split. now left. Qed.

Lemma screening_two_shaped : ScreeningFacts.well_shaped screening_two.
Proof. split; reflexivity. Qed.

Lemma screening_threshold_one_cases_witness :
  exists active,
    Screening._selected (snd (Screening.fit None [0; 0] screening_two))
    = Some active /\
    nth 0 active true = false /\ nth 1 active false = true.
Proof.
  destruct (@screening_threshold_one_cases screening_two None [0; 0]
              screening_two_shaped eq_refl 1%nat)
    as (active & opt_state & info & Hsel & _ & _ & _ & Hin).
  - cbn. lia.
  - reflexivity.
  - destruct (@screening_threshold_one_cases screening_two None [0; 0]
                screening_two_shaped eq_refl 0%nat)
      as (active' & opt_state' & info' & Hsel' & _ & _ & Hout & _).
    + cbn. lia.
    + reflexivity.
    + exists active. split; [exact Hsel|]. split.
      * assert (E : active' = active) by congruence. rewrite <- E.
        apply Hout. reflexivity.
      * apply Hin. reflexivity.
Defined.

Lemma screening_affine_transform_structure_witness :
  exists opt_linear opt_offset,
    Screening.opt_transform
      (snd (Screening.fit None [0; 0] screening_two))
    = Some (opt_linear, opt_offset) /\
    nrows opt_linear = 2%nat /\ length opt_offset = 2%nat.
Proof.
  destruct (@screening_affine_transform_structure screening_two None
              [0; 0] screening_two_shaped eq_refl)
    as (L & off & active & info & Htrans & _ & _ & HrL & _ & Loff & _).
  exists L, off. split; [exact Htrans|]. split; assumption.
Defined.

(** The claim C5 as stated fails on a coordinate selected with a negative
    sign: its row of [opt_offset] is minus the threshold. *)
Lemma screening_offset_counterexample :
  let run := Screening.fit None [0] (screening_one (-2)) in
  exists opt_linear opt_offset,
    Screening.opt_transform (snd run) = Some (opt_linear, opt_offset) /\
    Screening._selected (snd run) = Some [true] /\
    nth 0 opt_offset 0 == -1 /\
    nth 0 (Screening.threshold (screening_one (-2))) 0 == 1 /\
    ~ nth 0 opt_offset 0
      == nth 0 (Screening.threshold (screening_one (-2))) 0.
Proof.
  eexists; eexists. vm_compute.
  split; [reflexivity|]. split; [reflexivity|]. split; [reflexivity|].
  split; [reflexivity|]. discriminate.
Qed.

(** The claim C3 as stated fails on marginal screening: with every
    coordinate under its threshold, [fit] returns. *)
Lemma screening_empty_counterexample :
  let run := Screening.fit None [0] (screening_one 0) in
  fst run = Ok [false] /\
  Screening.num_opt_var (snd run) = Some O /\
  (forall e, fst run <> Raise e).
Proof.
  vm_compute. split; [reflexivity|]. split; [reflexivity|].
  intros e H. discriminate H.
Qed.

Lemma empty_active_set_behaviour_witness :
  fst (Screening.fit None [0] (screening_one 0)) = Ok [false] /\
  fst (@Slope.fit stable (converged [0]) Slope.fit_solve_args None [0]
         slope_one)
  = Raise ValueError.
Proof.
  split.
  - apply (proj1 empty_active_set_behaviour (screening_one 0) None [0]
             (/ (1 * 1))); try reflexivity.
    split; reflexivity.
  - apply (proj2 empty_active_set_behaviour stable (converged [0])
             slope_one Slope.fit_solve_args None [0]).
    + apply (@converged_shaped (identity 1) [3] [0]). reflexivity.
    + reflexivity.
    + intros v [<-|[]]. reflexivity.
    + discriminate.
Defined.

End Concrete.

(** ** Pearson's dispersion without residual degrees of freedom *)

Section Dispersion.

Import Np Slope.

Lemma div_by_zero_not_finite (x : NpFloat.t) :
  NpFloat.is_finite (NpFloat.div x (NpFloat.Fin (inject_Z 0))) = false.
Proof.
  destruct x as [a| | |]; cbn; try reflexivity.
  unfold NpFloat.div_fin, NpFloat.inf_of_sign. cbn.
  destruct (a ?= 0); reflexivity.
Qed.

(** C8 (amended). When [selected_targets] is called with [dispersion]
    unspecified and the number of observations equals the number of target
    features, nothing guards the zero residual degrees of freedom:
    Pearson's X^2 is divided by zero as floats are, the dispersion is
    [inf] or [nan], and the call returns the targets scaled by it. *)
Theorem pearson_without_degrees_of_freedom
    (self : randomized_slope) (features : option mask)
    (t : target_locals) (W : vec) (d : NpFloat.t) :
  target_branches features self = Ok t ->
  _W self = Some W ->
  pearson_dispersion (loglike self) W (local_Xfeat t)
    (local_observed_target t) = Ok d ->
  nrows (fst (Regreg.data (loglike self))) = ncols (local_Xfeat t) ->
  NpFloat.is_finite d = false /\
  selected_targets features None self
  = Ok {| observed_target := local_observed_target t;
          cov_target := NpFloat.scale (local_cov_target t) d;
          crosscov_target_score :=
            NpFloat.scale (transpose (local_crosscov_target_score t)) d;
          alternatives := local_alternatives t |}.
Proof.
  intros Ht HW Hd Hn. split.
  - unfold pearson_dispersion in Hd.
    destruct (Regreg.data (loglike self)) as [X y]. cbn [fst] in Hn.
    destruct (matvec _ _) as [fitted|]; [|discriminate]. cbn [Py.bind] in Hd.
    destruct (sub _ _) as [resid|]; [|discriminate]. cbn [Py.bind] in Hd.
    destruct (broadcast2 _ _ _) as [terms|]; [|discriminate].
    cbn [Py.bind] in Hd. inversion Hd; subst d.
    rewrite Hn, Z.sub_diag. apply div_by_zero_not_finite.
  - unfold selected_targets. rewrite Ht. cbn [Py.bind].
    unfold attr. rewrite HW. cbn [of_option Py.bind]. rewrite Hd.
    reflexivity.
Qed.

End Dispersion.

Section ConcreteDispersion.

Import Np Instances.

(** One observation, two features, the first one active. *)
Definition slope_square : Slope.randomized_slope :=
  snd (@Slope.fit stable (converged [2; 0]) Slope.fit_solve_args None
         [0; 0]
         (Slope.init (gaussian (Mat 1 2 [[1; 1]]) [3]) (Slope.Float 1)
            0 1 None)).

(** The claim C8 as stated fails: with one observation and one target
    feature the call returns, scaled by an infinite dispersion. *)
Lemma dispersion_counterexample :
  nrows (fst (Regreg.data (Slope.loglike slope_square))) = 1%nat /\
  option_map count_true (Slope._active slope_square) = Some 1%nat /\
  Slope.selected_targets None None slope_square
  = Ok {| Slope.observed_target := [2];
          Slope.cov_target := NpFloat.Mat 1 1 [[NpFloat.NInf]];
          Slope.crosscov_target_score :=
            NpFloat.Mat 1 2 [[NpFloat.NInf; NpFloat.NInf]];
          Slope.alternatives := [Slope.greater] |}.
Proof. vm_compute. repeat split. Qed.

Lemma pearson_without_degrees_of_freedom_witness :
  exists t,
    Slope.selected_targets None None slope_square = Ok t /\
    Slope.cov_target t = NpFloat.Mat 1 1 [[NpFloat.NInf]].
Proof.
  destruct (Slope.target_branches None slope_square) as [t|] eqn:Ht;
    [|vm_compute in Ht; discriminate].
  destruct (Slope.pearson_dispersion (Slope.loglike slope_square) [1]
              (Slope.local_Xfeat t) (Slope.local_observed_target t))
    as [d|] eqn:Hd.
  - destruct (@pearson_without_degrees_of_freedom slope_square None t [1]
                d Ht eq_refl Hd) as [_ Hsel].
    + vm_compute in Ht. inversion Ht. reflexivity.
    + eexists. split; [exact Hsel|].
      vm_compute in Ht. inversion Ht; subst t.
      vm_compute in Hd. inversion Hd; subst d. reflexivity.
  - vm_compute in Ht. inversion Ht; subst t. vm_compute in Hd.
    discriminate.
Defined.

End ConcreteDispersion.

(** ** Rounding to binary64 keeps signs *)

Module Binary64Facts.

Import NpFloat Binary64.

Lemma pow2_pos z : 0 < 2 ^ z.
Proof. apply Qpower_0_lt. reflexivity. Qed.

Lemma two_neq_0 : ~ 2 == 0.
Proof. discriminate. Qed.

(** [2 ^ ilog2 x <= |x|]: the exponent is not over-estimated. *)
Lemma ilog2_le x : ~ x == 0 -> 2 ^ ilog2 x <= Qabs x.
Proof.
  intros Hx. unfold ilog2.
  set (a := Z.log2 (Z.abs (Qnum x))). set (b := Z.log2 (Zpos (Qden x))).
  destruct (Qle_bool (2 ^ (a - b)) (Qabs x)) eqn:E.
  - now apply Qle_bool_iff.
  - clear E.
    assert (Hn : (0 < Z.abs (Qnum x))%Z).
    { destruct x as [n dd]. cbn. unfold Qeq in Hx. cbn in Hx. lia. }
    assert (Ha : (2 ^ a <= Z.abs (Qnum x))%Z)
      by (apply Z.log2_spec; exact Hn).
    assert (Hb : (Zpos (Qden x) < 2 ^ Z.succ b)%Z)
      by (apply Z.log2_spec; reflexivity).
    assert (Ha0 : (0 <= a)%Z) by apply Z.log2_nonneg.
    assert (Hb0 : (0 <= b)%Z) by apply Z.log2_nonneg.
    replace (a - b - 1)%Z with (a - Z.succ b)%Z by lia.
    rewrite (Qpower_minus 2 a (Z.succ b) two_neq_0).
    rewrite <- (Zpower_Qpower 2 a Ha0).
    rewrite <- (Zpower_Qpower 2 (Z.succ b)) by lia.
    assert (Hp : (0 < 2 ^ Z.succ b)%Z) by (apply Z.pow_pos_nonneg; lia).
    assert (E : Qabs x == inject_Z (Z.abs (Qnum x)) / inject_Z (Zpos (Qden x))).
    { destruct x as [n dd]. cbn [Qabs Qnum Qden].
      rewrite (Qmake_Qdiv (Z.abs n) dd). reflexivity. }
    rewrite E.
    apply Qle_shift_div_l; [reflexivity|].
    unfold Qdiv. rewrite <- Qmult_assoc, (Qmult_comm (/ _)), Qmult_assoc.
    apply Qle_shift_div_r.
    { rewrite <- (Zlt_Qlt 0). exact Hp. }
    rewrite <- !inject_Z_mult. rewrite <- Zle_Qle. nia.
Qed.

Lemma ulp_pos x : 0 < ulp x.
Proof. apply pow2_pos. Qed.

(** A positive multiple of the least subnormal is at least its spacing. *)
Lemma ulp_le x : 2 ^ (-1074) <= x -> ulp x <= x.
Proof.
  intros H. unfold ulp.
  assert (Hx : 0 < x) by (eapply Qlt_le_trans; [apply (pow2_pos (-1074))|exact H]).
  destruct (Z.max_spec (ilog2 x - 52) (-1074)) as [[_ ->]|[_ ->]];
    [exact H|].
  apply Qle_trans with (2 ^ ilog2 x).
  - apply Qpower_le_compat_l; [lia|discriminate].
  - rewrite <- (Qabs_pos x) at 2 by (apply Qlt_le_weak; exact Hx).
    apply ilog2_le. intros E. rewrite E in Hx. discriminate.
Qed.

Lemma rint_cases t : rint t = Qfloor t \/ rint t = (Qfloor t + 1)%Z.
Proof.
  unfold rint. destruct (Qcompare _ _); [destruct (Z.even _)| |]; auto.
Qed.

Lemma rint_ge1 t : 1 <= t -> (1 <= rint t)%Z.
Proof.
  intros H. assert (F : (1 <= Qfloor t)%Z).
  { change 1%Z with (Qfloor 1). apply Qfloor_resp_le. exact H. }
  destruct (rint_cases t) as [-> | ->]; lia.
Qed.

Lemma rint_nonpos t : t < 0 -> (rint t <= 0)%Z.
Proof.
  intros H. assert (F : (Qfloor t < 0)%Z).
  { assert (G := Qfloor_le t). rewrite Zlt_Qlt.
    eapply Qle_lt_trans; [exact G|exact H]. }
  destruct (rint_cases t) as [-> | ->]; lia.
Qed.

(** Rounding keeps the sign of what is not positive ... *)
Lemma round_nonpos x : x <= 0 -> le (round x) (Fin 0) = true.
Proof.
  intros H. unfold round. destruct (Qeq_bool x 0) eqn:E; [reflexivity|].
  assert (Hx : x < 0).
  { apply Qle_lteq in H. destruct H as [H|H]; [exact H|].
    apply Qeq_bool_iff in H. congruence. }
  cbv zeta.
  destruct (Qle_bool _ _).
  - assert (C : (x ?= 0) = Lt) by (now apply Qlt_alt).
    unfold inf_of_sign. now rewrite C.
  - cbn [le]. apply Qle_bool_iff.
    assert (R : (rint (x / ulp x) <= 0)%Z).
    { apply rint_nonpos. apply Qlt_shift_div_r; [apply ulp_pos|].
      now rewrite Qmult_0_l. }
    rewrite Zle_Qle in R. pose proof (ulp_pos x) as U.
    setoid_replace 0 with (0 * ulp x) by ring.
    apply Qmult_le_compat_r; [exact R|now apply Qlt_le_weak].
Qed.

(** ... and of a positive multiple of the least subnormal. *)
Lemma round_pos x : 2 ^ (-1074) <= x -> le (round x) (Fin 0) = false.
Proof.
  intros H.
  assert (Hx : 0 < x) by (eapply Qlt_le_trans; [apply (pow2_pos (-1074))|exact H]).
  unfold round. destruct (Qeq_bool x 0) eqn:E.
  { apply Qeq_bool_iff in E. rewrite E in Hx. discriminate. }
  cbv zeta. destruct (Qle_bool _ _).
  - assert (C : (x ?= 0) = Gt) by (now apply Qgt_alt).
    unfold inf_of_sign. now rewrite C.
  - cbn [le]. destruct (Qle_bool _ 0) eqn:L; [|reflexivity].
    apply Qle_bool_iff in L. exfalso.
    assert (R : (1 <= rint (x / ulp x))%Z).
    { apply rint_ge1. apply Qle_shift_div_l; [apply ulp_pos|].
      rewrite Qmult_1_l. now apply ulp_le. }
    rewrite Zle_Qle in R. pose proof (ulp_pos x) as U.
    assert (1 * ulp x <= inject_Z (rint (x / ulp x)) * ulp x)
      by (apply Qmult_le_compat_r; [exact R|now apply Qlt_le_weak]).
    lra.
Qed.

(** The finite doubles are multiples of the least subnormal. *)
Definition on_grid (q : Q) : Prop :=
  exists k : Z, q == inject_Z k * 2 ^ (-1074).

Lemma round_on_grid x y : round x = Fin y -> on_grid y.
Proof.
  unfold round. destruct (Qeq_bool x 0).
  { intros E. inversion E. exists 0%Z. ring. }
  cbv zeta. destruct (Qle_bool _ _).
  { unfold inf_of_sign. destruct (x ?= 0); discriminate. }
  intros E. inversion E. clear E.
  set (z := Z.max (ilog2 x - 52) (-1074)).
  assert (Hz : (0 <= z + 1074)%Z) by lia.
  exists (rint (x / ulp x) * 2 ^ (z + 1074))%Z.
  rewrite inject_Z_mult, (Zpower_Qpower 2 _ Hz).
  rewrite <- Qmult_assoc. rewrite <- Qpower_plus by discriminate.
  unfold ulp. fold z. replace (z + 1074 + -1074)%Z with z by lia.
  reflexivity.
Qed.

Lemma is_double_on_grid q : is_double q = true -> on_grid q.
Proof.
  unfold is_double. destruct (round q) as [y| | |] eqn:E; try discriminate.
  intros H. apply Qeq_bool_iff in H. apply round_on_grid in E.
  destruct E as [k E]. exists k. now rewrite <- H.
Qed.

(** The sign of a rounded difference of doubles is the sign of the exact
    difference: [a - b <= 0] in doubles exactly when [a <= b]. *)
Lemma sub_le0 a y :
  on_grid a -> (forall b, y = Fin b -> on_grid b) ->
  le (sub (Fin a) y) (Fin 0) = le (Fin a) y.
Proof.
  intros [ka Ha] Hy. destruct y as [b| | |]; try reflexivity.
  destruct (Hy b eq_refl) as [kb Hb].
  unfold sub. cbn [opp NpFloat.add rnd le].
  destruct (Qle_bool a b) eqn:L.
  - apply Qle_bool_iff in L. apply round_nonpos. lra.
  - apply round_pos.
    assert (Hk : (kb < ka)%Z).
    { destruct (Z.lt_ge_cases kb ka) as [G|G]; [exact G|exfalso].
      assert (a <= b); [|apply Qle_bool_iff in H; congruence].
      rewrite Ha, Hb. apply Qmult_le_compat_r;
        [now rewrite <- Zle_Qle | apply Qlt_le_weak, pow2_pos]. }
    rewrite Ha, Hb.
    setoid_replace (inject_Z ka * 2 ^ (-1074) + - (inject_Z kb * 2 ^ (-1074)))
      with (inject_Z (ka - kb) * 2 ^ (-1074))
      by (unfold Z.sub; rewrite inject_Z_plus, inject_Z_opp; ring).
    rewrite <- (Qmult_1_l (2 ^ (-1074))) at 1.
    apply Qmult_le_compat_r; [|apply Qlt_le_weak, pow2_pos].
    change 1 with (inject_Z 1). rewrite <- Zle_Qle. lia.
Qed.

Lemma rnd_on_grid x b : rnd x = Fin b -> on_grid b.
Proof.
  destruct x as [q| | |]; cbn [rnd]; try discriminate.
  apply round_on_grid.
Qed.

End Binary64Facts.

(** ** The Benjamini-Hochberg sieve and the Simes selection *)

Module SimesFacts.

Import Np NpFacts Simes.

Lemma sort_length a : length (sort a) = length a.
Proof. apply Permutation_length, SortFacts.sort_perm. Qed.

Lemma select_In {A} (m : mask) (a : list A) x :
  length m = length a ->
  (In x (select m a)
   <-> exists i, nth i m false = true /\ nth_error a i = Some x).
Proof.
  revert a; induction m as [|b m IH]; intros [|y a] E; try discriminate.
  - cbn. split; [intros []|]. intros (i & H & _). now destruct i.
  - cbn [select]. cbn in E. assert (E' : length m = length a) by lia.
    destruct b.
    + cbn [In]. rewrite (IH a E'). split.
      * intros [<-|(i & H1 & H2)].
        -- exists O. split; reflexivity.
        -- exists (S i). split; assumption.
      * intros ([|i] & H1 & H2).
        -- left. now inversion H2.
        -- right. exists i. split; assumption.
    + rewrite (IH a E'). split.
      * intros (i & H1 & H2). exists (S i). split; assumption.
      * intros ([|i] & H1 & H2); [discriminate|].
        exists i. split; assumption.
Qed.

Lemma fold_max_spec l : forall x,
  let k := fold_left Nat.max l x in
  (k = x \/ In k l) /\ (x <= k)%nat /\ Forall (fun y => (y <= k)%nat) l.
Proof.
  induction l as [|y l IH]; intros x; cbn [fold_left].
  - split; [now left|]. split; [lia|constructor].
  - destruct (IH (Nat.max x y)) as (H1 & H2 & H3). split; [|split].
    + destruct H1 as [H1|H1]; [|right; right; exact H1].
      rewrite H1.
      destruct (Nat.max_spec x y) as [[_ E]|[_ E]]; rewrite E.
      * right. left. reflexivity.
      * left. reflexivity.
    + lia.
    + constructor; [lia|exact H3].
Qed.

Lemma max_nat_spec l k :
  max_nat l = Ok k -> In k l /\ Forall (fun y => (y <= k)%nat) l.
Proof.
  destruct l as [|x l]; [discriminate|]. cbn [max_nat]. intros E.
  inversion E; subst k.
  destruct (fold_max_spec l x) as (G1 & G2 & G3). split.
  - destruct G1 as [G1|G1]; [left; now rewrite G1 | now right].
  - constructor; assumption.
Qed.

Lemma any_false_nth m i : any m = false -> nth i m false = false.
Proof.
  unfold any. revert i; induction m as [|b m IH]; intros i H.
  - now destruct i.
  - cbn in H. apply orb_false_iff in H. destruct H as [-> H].
    destruct i; [reflexivity|]. now apply IH.
Qed.

Lemma any_true_select {A} m (a : list A) :
  length m = length a -> any m = true -> select m a <> [].
Proof.
  unfold any. revert a; induction m as [|b m IH]; intros [|x a] E H;
    try discriminate.
  cbn in *. destruct b; [discriminate|]. apply IH; [lia|exact H].
Qed.

Lemma le_iff x y : le x y = true <-> x <= y.
Proof. unfold le. apply Qle_bool_iff. Qed.

Section Sieve.

Context {AS : ArgSort}.

Variables (p_value : vec) (level : Q).

(** The p-values are floats. *)
Hypothesis doubles : Forall (fun q => Binary64.is_double q = true) p_value.

Let m := length p_value.
Let p_sorted := sort p_value.

Lemma sorted_on_grid i :
  (i < m)%nat -> Binary64Facts.on_grid (nth i p_sorted 0).
Proof.
  intros Hi. apply Binary64Facts.is_double_on_grid.
  apply (proj1 (Forall_forall _ _) doubles).
  apply (Permutation_in _ (SortFacts.sort_perm p_value)).
  apply nth_In. unfold p_sorted. rewrite sort_length. exact Hi.
Qed.

(** The float test [p_sorted[i] - bound <= 0] is [p_sorted[i] <= bound]. *)
Lemma bh_mask_nth i :
  (i < m)%nat ->
  nth i (bh_mask level m p_sorted) false
  = Binary64.le (NpFloat.Fin (nth i p_sorted 0)) (bh_bound level m i).
Proof.
  intros Hi. unfold bh_mask, arange.
  rewrite (map2_nth _ _ _ O 0 false)
    by (rewrite ?length_seq; unfold p_sorted; rewrite ?sort_length; exact Hi).
  rewrite seq_nth by exact Hi. cbn [Nat.add].
  apply Binary64Facts.sub_le0; [now apply sorted_on_grid|].
  intros b Hb. unfold bh_bound, Binary64.div in Hb.
  now apply Binary64Facts.rnd_on_grid in Hb.
Qed.

Lemma bh_mask_length : length (bh_mask level m p_sorted) = m.
Proof.
  unfold bh_mask, arange. rewrite map2_length, length_seq.
  unfold p_sorted. rewrite sort_length. fold m. lia.
Qed.

(** C10. [BH_q] never raises.  When it returns arrays, they are the first
    [k] sorted p-values and the first [k] positions of the sorting order,
    where [k] is the largest 0-based rank [i] with
    [p_sorted[i] <= level * (i + 1) / (2 m)], the bound being the double
    that the source computes: the product [level * (i + 1.)] rounded, then
    its quotient by [2. * m] rounded.  Rank [k] itself is left out, so
    that [k = 0] gives two empty arrays.  It returns [None] exactly when
    no rank is below its bound. *)
Theorem BH_q_returns_ranks_below_last_pass :
  let bound i :=
    Binary64.div
      (Binary64.mul (NpFloat.Fin level)
         (Binary64.add (Binary64.of_nat i) (NpFloat.Fin 1)))
      (Binary64.mul (NpFloat.Fin 2) (Binary64.of_nat m)) in
  let passes i :=
    Binary64.le (NpFloat.Fin (nth i p_sorted 0)) (bound i) = true in
  match BH_q p_value level with
  | Ok (Some (sig_sorted, sig_pvalues)) =>
      exists k,
        (k < m)%nat /\ passes k /\
        (forall i, (k < i < m)%nat -> ~ passes i) /\
        sig_sorted = firstn k p_sorted /\
        sig_pvalues = firstn k (argsort p_value) /\
        length sig_sorted = k /\ length sig_pvalues = k /\
        (k = O -> sig_sorted = [] /\ sig_pvalues = [])
  | Ok None => forall i, (i < m)%nat -> ~ passes i
  | Raise _ => False
  end.
Proof.
  intros bound passes.
  assert (Hp : forall i, (i < m)%nat ->
            (nth i (bh_mask level m p_sorted) false = true <-> passes i)).
  { intros i Hi. rewrite (bh_mask_nth Hi).
    unfold passes, bound, bh_bound. reflexivity. }
  unfold BH_q. fold m p_sorted.
  pose proof bh_mask_length as Lmask.
  destruct (any (bh_mask level m p_sorted)) eqn:Hany.
  - destruct (max_nat (select (bh_mask level m p_sorted) (arange m)))
      as [k|e] eqn:Hmax.
    + cbn [Py.bind]. apply max_nat_spec in Hmax. destruct Hmax as [Hin Hall].
      apply select_In in Hin;
        [|unfold arange; rewrite length_seq; exact Lmask].
      destruct Hin as (i & Hi & Hk).
      assert (Hik : (i < m)%nat /\ k = i).
      { unfold arange in Hk.
        assert (Hlt : (i < length (seq 0 m))%nat)
          by (apply nth_error_Some; congruence).
        rewrite length_seq in Hlt. split; [exact Hlt|].
        rewrite (nth_error_nth' _ O) in Hk by (now rewrite length_seq).
        rewrite seq_nth in Hk by exact Hlt. now inversion Hk. }
      destruct Hik as [Hlt ->].
      exists i. split; [exact Hlt|]. split; [now apply Hp|].
      split.
      { intros j [Hij Hjm] Hj. apply Hp in Hj; [|exact Hjm].
        rewrite Forall_forall in Hall. specialize (Hall j).
        assert (In j (select (bh_mask level m p_sorted) (arange m))).
        { apply select_In;
            [unfold arange; rewrite length_seq; exact Lmask|].
          exists j. split; [exact Hj|]. unfold arange.
          rewrite (nth_error_nth' _ O) by (now rewrite length_seq).
          now rewrite seq_nth. }
        specialize (Hall H). lia. }
      split; [reflexivity|]. split; [reflexivity|].
      split; [|split].
      * rewrite firstn_length_le; [reflexivity|].
        unfold p_sorted. rewrite sort_length. fold m. lia.
      * rewrite firstn_length_le; [reflexivity|].
        rewrite SlopeFacts.argsort_length. fold m. lia.
      * intros ->. split; reflexivity.
    + destruct (select (bh_mask level m p_sorted) (arange m)) eqn:Es;
        [|discriminate].
      apply (@any_true_select nat _ (arange m)) in Hany;
        [contradiction | unfold arange; rewrite length_seq; exact Lmask].
  - intros i Hi Hp'. apply Hp in Hp'; [|exact Hi].
    rewrite (any_false_nth _ i Hany) in Hp'. discriminate.
Qed.

End Sieve.

Lemma select_incl {A} (m1 m2 : mask) (a : list A) :
  length m1 = length a -> length m2 = length a ->
  (forall i, nth i m1 false = true -> nth i m2 false = true) ->
  incl (select m1 a) (select m2 a).
Proof.
  intros L1 L2 H x Hx. apply (select_In m1 a x L1) in Hx.
  destruct Hx as (i & Hi & Hxi). apply (select_In m2 a x L2).
  exists i. split; [now apply H | exact Hxi].
Qed.

(** The first entry of [a[m]] when the first entry of [m] is set. *)
Lemma select_head {A} (m : mask) (a : list A) x :
  nth 0 m false = true -> nth_error a 0 = Some x ->
  nth_error (select m a) 0 = Some x.
Proof.
  destruct m as [|b m]; [discriminate|]. destruct a as [|y a];
    [discriminate|]. cbn. intros -> H. exact H.
Qed.

(** The first entry of [np.arange(n)[m]] is the least position set. *)
Lemma select_seq_first (m : mask) : forall s n k,
  length m = n ->
  nth_error (select m (seq s n)) 0 = Some k ->
  (s <= k)%nat /\ nth (k - s) m false = true /\
  forall j, (j < k - s)%nat -> nth j m false = false.
Proof.
  induction m as [|b m IH]; intros s n k L H.
  - cbn in H. discriminate.
  - destruct n as [|n]; [discriminate|]. cbn [seq select] in H.
    destruct b.
    + cbn in H. inversion H; subst k. rewrite Nat.sub_diag.
      split; [lia|]. split; [reflexivity|]. intros j Hj. lia.
    + destruct (IH (S s) n k) as (H1 & H2 & H3); [cbn in L; lia|exact H|].
      split; [lia|].
      replace (k - s)%nat with (S (k - S s)) by lia. cbn [nth].
      split; [exact H2|]. intros [|j] Hj; [reflexivity|].
      apply H3. lia.
Qed.

Lemma select_seq_nonempty (m : mask) : forall s n i,
  length m = n -> nth i m false = true ->
  exists k, nth_error (select m (seq s n)) 0 = Some k /\ (k <= s + i)%nat.
Proof.
  induction m as [|b m IH]; intros s n i L H.
  - now destruct i.
  - destruct n as [|n]; [discriminate|]. cbn [seq select].
    destruct b.
    + exists s. split; [reflexivity|lia].
    + destruct i as [|i]; [discriminate|]. cbn [nth] in H.
      destruct (IH (S s) n i) as (k & Hk & Hle); [cbn in L; lia|exact H|].
      exists k. split; [exact Hk|lia].
Qed.

Lemma take_firstn {A} (a : list A) (idx : list nat) r k :
  take a idx = Ok r -> take a (firstn k idx) = Ok (firstn k r).
Proof.
  intros H. destruct a as [|d a].
  - destruct idx as [|i idx].
    + inversion H. now rewrite !firstn_nil.
    + unfold take in H. cbn in H. destruct i; discriminate.
  - destruct (@LoopFacts.take_inv A (d :: a) idx r d H) as [-> Hall].
    rewrite firstn_map. apply LoopFacts.take_ok.
    apply Forall_forall. intros i Hi. rewrite Forall_forall in Hall.
    apply Hall. rewrite <- (firstn_skipn k idx). apply in_or_app. now left.
Qed.

(** The index the selection returns as active, as a set. *)
Definition active_indices (r : result (option selection)) : list nat :=
  match r with
  | Ok (Some s) => [i_0 s]
  | _ => []
  end.

End SimesFacts.

Section SimesMonotone.

Import Np NpFacts Simes SimesFacts.

Context {AS : ArgSort} {SP : Special}.

(** Lines 60-77, the branch taken when the Simes test rejects, as a
    function of [alpha] and of the locals computed before the test. *)
Definition rejected_branch (T_stats p_val_randomized : vec)
    (indices_order : list nat) (p : nat) (alpha : Q)
  : result (option selection) :=
  let indices := arange p in
  let? significant := significant indices_order p_val_randomized alpha in
  let? i_0 := of_option IndexError (nth_error significant 0) in
  let? T_stats_active := of_option IndexError (nth_error T_stats i_0) in
  let? below := broadcast2 le p_val_randomized (simes_bounds p alpha) in
  let? t_0 := getmask indices below in
  let? t_00 := of_option IndexError (nth_error t_0 0) in
  if Nat.ltb 0 t_00 then
    let J := firstn t_00 indices_order in
    let? T_stats_inactive := take T_stats J in
    Ok (Some {| i_0 := i_0;
                J := map Z.of_nat J;
                t_0 := t_00;
                sign_active := sign T_stats_active;
                T_stats_inf :=
                  Arr1 (T_stats_inactive ++ [T_stats_active]) |})
  else
    Ok (Some {| i_0 := i_0;
                J := [(-1)%Z];
                t_0 := t_00;
                sign_active := sign T_stats_active;
                T_stats_inf := Arr0 T_stats_active |}).

Lemma simes_selection_unfold X y alpha randomizer draw :
  simes_selection X y alpha randomizer draw
  = (let p := ncols X in
     let? XTy := matvec (transpose X) y in
     let T_stats := map (fun t => t / 1) XTy in
     let? perturb :=
       if String.eqb randomizer "gaussian" then Ok draw
       else Raise UnboundLocalError in
     let? randomized_T_stats := add T_stats (smul 1 perturb) in
     let p_val_randomized := sort (two_sided randomized_T_stats) in
     let indices_order := argsort (two_sided randomized_T_stats) in
     let? weighted := mul (simes_weights p) p_val_randomized in
     let? simes_p_randomized := min weighted in
     if le simes_p_randomized (alpha / 2)
     then rejected_branch T_stats p_val_randomized indices_order p alpha
     else Ok None).
Proof.
  unfold simes_selection.
  destruct (matvec (transpose X) y); [|reflexivity].
  destruct (String.eqb randomizer "gaussian"); reflexivity.
Qed.

Lemma rejected_branch_some T_stats pv io p alpha :
  rejected_branch T_stats pv io p alpha <> Ok None.
Proof.
  unfold rejected_branch.
  destruct (significant io pv alpha); [|discriminate]. cbn [Py.bind].
  destruct (nth_error _ 0); [|discriminate]. cbn [of_option Py.bind].
  destruct (nth_error T_stats _); [|discriminate]. cbn [of_option Py.bind].
  destruct (broadcast2 _ _ _); [|discriminate]. cbn [Py.bind].
  destruct (getmask _ _); [|discriminate]. cbn [Py.bind].
  destruct (nth_error _ 0); [|discriminate]. cbn [of_option Py.bind].
  destruct (Nat.ltb 0 _); [|discriminate].
  destruct (take _ _); discriminate.
Qed.

Variables (alpha1 alpha2 : Q).
Hypothesis alpha_le : alpha1 <= alpha2.

Lemma simes_bounds_nth p alpha i :
  (i < p)%nat ->
  nth i (simes_bounds p alpha) 0
  = (inject_Z (Z.of_nat i) + 1) / inject_Z (2 * Z.of_nat p) * alpha.
Proof.
  intros Hi. unfold simes_bounds, arange.
  apply (nth_map_seq (fun i => (inject_Z (Z.of_nat i) + 1)
                               / inject_Z (2 * Z.of_nat p) * alpha)).
  exact Hi.
Qed.

Lemma simes_coefficient_nonneg p i :
  0 <= (inject_Z (Z.of_nat i) + 1) / inject_Z (2 * Z.of_nat p).
Proof.
  assert (Hi : 0 <= inject_Z (Z.of_nat i)).
  { change 0 with (inject_Z 0). rewrite <- Zle_Qle. lia. }
  assert (Hp : 0 <= inject_Z (2 * Z.of_nat p)).
  { change 0 with (inject_Z 0). rewrite <- Zle_Qle. lia. }
  unfold Qdiv. apply Qmult_le_0_compat.
  - revert Hi. generalize (inject_Z (Z.of_nat i)). intros a Ha.
    apply (Qle_trans _ (0 + 0)); [discriminate|].
    apply Qplus_le_compat; [exact Ha | discriminate].
  - apply Qinv_le_0_compat. exact Hp.
Qed.

Lemma half_mono : alpha1 / 2 <= alpha2 / 2.
Proof.
  unfold Qdiv. apply Qmult_le_compat_r; [exact alpha_le | discriminate].
Qed.

Lemma significant_mono io pv sig1 :
  significant io pv alpha1 = Ok sig1 ->
  exists sig2, significant io pv alpha2 = Ok sig2 /\ incl sig1 sig2.
Proof.
  unfold significant, getmask. rewrite !length_map.
  destruct (Nat.eqb (length pv) (length io)) eqn:E; [|discriminate].
  apply Nat.eqb_eq in E. intros H. inversion H; subst sig1.
  eexists. split; [reflexivity|].
  apply select_incl; rewrite ?length_map; try exact E.
  intros i Hi.
  destruct (Nat.lt_ge_cases i (length pv)) as [Hlt|Hge].
  - rewrite (nth_indep _ false (le 0 (alpha1 / 2))) in Hi
      by (now rewrite length_map).
    rewrite (map_nth (fun pv => le pv (alpha1 / 2))) in Hi.
    rewrite (nth_indep _ false (le 0 (alpha2 / 2)))
      by (now rewrite length_map).
    rewrite (map_nth (fun pv => le pv (alpha2 / 2))).
    apply le_iff in Hi. apply le_iff.
    apply (Qle_trans _ _ _ Hi). apply half_mono.
  - rewrite nth_overflow in Hi by (now rewrite length_map). discriminate.
Qed.

Lemma sorted_head_le pv k x0 xk :
  Sorted Qle pv -> nth_error pv 0 = Some x0 -> nth_error pv k = Some xk ->
  x0 <= xk.
Proof.
  intros Hs H0 Hk. apply Sorted_StronglySorted in Hs.
  2:{ intros a b c. apply Qle_trans. }
  destruct pv as [|a pv]; [discriminate|]. cbn in H0. inversion H0; subst a.
  destruct k as [|k]; cbn in Hk.
  - inversion Hk. apply Qle_refl.
  - inversion Hs as [|? ? _ Hall]; subst. rewrite Forall_forall in Hall.
    apply Hall. eapply nth_error_In; eassumption.
Qed.

(** The first significant index is the position of the least p-value. *)
Lemma significant_head io pv alpha sig i :
  Sorted Qle pv ->
  significant io pv alpha = Ok sig -> nth_error sig 0 = Some i ->
  length pv = length io /\ nth_error io 0 = Some i /\
  exists x0, nth_error pv 0 = Some x0 /\ x0 <= alpha / 2.
Proof.
  intros Hs H Hi. unfold significant, getmask in H.
  rewrite length_map in H.
  destruct (Nat.eqb (length pv) (length io)) eqn:E; [|discriminate].
  apply Nat.eqb_eq in E. inversion H; subst sig. split; [exact E|].
  assert (Hin : In i (select (map (fun pv => le pv (alpha / 2)) pv) io))
    by (eapply nth_error_In; eassumption).
  apply select_In in Hin; [|now rewrite length_map].
  destruct Hin as (k & Hk & Hik).
  assert (Hlt : (k < length pv)%nat)
    by (rewrite E; apply nth_error_Some; congruence).
  rewrite (nth_indep _ false (le 0 (alpha / 2))) in Hk
    by (now rewrite length_map).
  rewrite (map_nth (fun pv => le pv (alpha / 2))) in Hk.
  apply le_iff in Hk.
  destruct pv as [|x0 pv]; [cbn in Hlt; lia|].
  destruct io as [|j io]; [discriminate|].
  assert (H0 : x0 <= alpha / 2).
  { apply (Qle_trans _ (nth k (x0 :: pv) 0)); [|exact Hk].
    apply (@sorted_head_le (x0 :: pv) k); [exact Hs|reflexivity|].
    now apply nth_error_nth'. }
  cbn [map select] in Hi. apply le_iff in H0. rewrite H0 in Hi.
  cbn in Hi. split; [exact Hi|]. exists x0. split; [reflexivity|].
  now apply le_iff.
Qed.

Lemma significant_from_head io pv alpha i x0 :
  length pv = length io -> nth_error io 0 = Some i ->
  nth_error pv 0 = Some x0 -> x0 <= alpha / 2 ->
  exists sig, significant io pv alpha = Ok sig /\ nth_error sig 0 = Some i.
Proof.
  intros E Hi H0 Hle. unfold significant, getmask.
  rewrite length_map, E, Nat.eqb_refl. eexists. split; [reflexivity|].
  destruct pv as [|x pv]; [discriminate|]. cbn in H0. inversion H0; subst x.
  destruct io as [|j io]; [discriminate|]. cbn in Hi |- *.
  apply le_iff in Hle. rewrite Hle. exact Hi.
Qed.

Lemma below_nth pv p alpha k :
  length pv = p -> (k < p)%nat ->
  nth k (map2 le pv (simes_bounds p alpha)) false
  = le (nth k pv 0)
      ((inject_Z (Z.of_nat k) + 1) / inject_Z (2 * Z.of_nat p) * alpha).
Proof.
  intros L Hk.
  rewrite (map2_nth le pv (simes_bounds p alpha) 0 0 false)
    by (unfold simes_bounds, arange; rewrite ?length_map, ?length_seq; lia).
  now rewrite simes_bounds_nth.
Qed.

(** When the selection is made at [alpha1] it is made at [alpha2], of the
    same active index, with no more ranks below. *)
Lemma rejected_branch_mono T_stats pv io p s1 :
  Sorted Qle pv -> length pv = p ->
  rejected_branch T_stats pv io p alpha1 = Ok (Some s1) ->
  exists s2,
    rejected_branch T_stats pv io p alpha2 = Ok (Some s2) /\
    i_0 s2 = i_0 s1 /\ sign_active s2 = sign_active s1 /\
    (t_0 s2 <= t_0 s1)%nat.
Proof.
  intros Hs Lpv H. unfold rejected_branch in H |- *.
  destruct (significant io pv alpha1) as [sig1|] eqn:Hs1; [|discriminate].
  cbn [Py.bind] in H.
  destruct (nth_error sig1 0) as [i|] eqn:Hi; [|discriminate].
  cbn [of_option Py.bind] in H.
  destruct (@significant_head io pv alpha1 sig1 i Hs Hs1 Hi)
    as (E & Hio & x0 & Hx0 & Hle).
  destruct (@significant_from_head io pv alpha2 i x0 E Hio Hx0)
    as (sig2 & Hs2 & Hi2).
  { apply (Qle_trans _ _ _ Hle). apply half_mono. }
  rewrite Hs2. cbn [Py.bind]. rewrite Hi2. cbn [of_option Py.bind].
  destruct (nth_error T_stats i) as [ta|]; [|discriminate].
  cbn [of_option Py.bind] in H |- *.
  assert (Lb : forall alpha, length (simes_bounds p alpha) = p)
    by (intros; unfold simes_bounds, arange;
        now rewrite length_map, length_seq).
  rewrite (broadcast2_same le pv (simes_bounds p alpha1)) in H
    by (rewrite Lb; exact Lpv).
  rewrite (broadcast2_same le pv (simes_bounds p alpha2))
    by (rewrite Lb; exact Lpv).
  cbn [Py.bind] in H |- *.
  assert (Lm : forall alpha,
             length (map2 le pv (simes_bounds p alpha)) = p)
    by (intros; rewrite map2_length, Lb; lia).
  unfold getmask in H |- *. unfold arange in H |- *.
  rewrite !Lm, length_seq, Nat.eqb_refl in H |- *.
  cbn [Py.bind] in H |- *.
  destruct (nth_error (select (map2 le pv (simes_bounds p alpha1))
                         (seq 0 p)) 0) as [k1|] eqn:Hk1; [|discriminate].
  cbn [of_option Py.bind] in H.
  destruct (@select_seq_first _ O p k1 (Lm alpha1) Hk1) as (_ & Hb1 & _).
  rewrite Nat.sub_0_r in Hb1.
  assert (Hk1p : (k1 < p)%nat).
  { destruct (Nat.lt_ge_cases k1 p) as [Hlt|Hge]; [exact Hlt|].
    rewrite nth_overflow in Hb1 by (rewrite Lm; exact Hge). discriminate. }
  assert (Hb2 : nth k1 (map2 le pv (simes_bounds p alpha2)) false = true).
  { rewrite below_nth in Hb1 |- * by assumption.
    apply le_iff in Hb1. apply le_iff.
    apply (Qle_trans _ _ _ Hb1).
    rewrite (Qmult_comm _ alpha1), (Qmult_comm _ alpha2).
    apply Qmult_le_compat_r; [exact alpha_le|].
    apply simes_coefficient_nonneg. }
  destruct (@select_seq_nonempty _ O p k1 (Lm alpha2) Hb2)
    as (k2 & Hk2 & Hle2).
  rewrite Hk2. cbn [of_option Py.bind]. cbn [Nat.add] in Hle2.
  destruct (Nat.ltb 0 k2) eqn:Hpos2.
  - apply Nat.ltb_lt in Hpos2.
    assert (Hpos1 : Nat.ltb 0 k1 = true) by (apply Nat.ltb_lt; lia).
    rewrite Hpos1 in H.
    destruct (take T_stats (firstn k1 io)) as [inactive|] eqn:Ht;
      [|discriminate].
    cbn [Py.bind] in H. inversion H; subst s1.
    apply (@take_firstn _ _ _ _ k2) in Ht. rewrite firstn_firstn in Ht.
    replace (Nat.min k2 k1) with k2 in Ht by lia.
    rewrite Ht. cbn [Py.bind]. eexists. split; [reflexivity|].
    cbn. repeat split. exact Hle2.
  - destruct (Nat.ltb 0 k1).
    + destruct (take T_stats (firstn k1 io)); [|discriminate].
      cbn [Py.bind] in H. inversion H; subst s1.
      eexists. split; [reflexivity|]. cbn. repeat split. exact Hle2.
    + inversion H; subst s1.
      eexists. split; [reflexivity|]. cbn. repeat split. exact Hle2.
Qed.

(** C6.  For fixed data [X], [y] and a fixed draw of the randomization
    (of [p] entries, as [np.random.standard_normal(p)] gives), the
    selection of [simes_selection] is monotone in [alpha]: whenever
    [alpha1 <= alpha2], the active index returned at [alpha1] is returned
    at [alpha2]; a call that returns [None] at [alpha2] returns [None] at
    [alpha1]; a selection made at [alpha1] is made at [alpha2] with the
    same active index and sign and with no more ranks below it (so the
    inactive indices [J] can only shrink); and the array
    [indices_order[p_val_randomized <= alpha/2]] of significant indices
    at [alpha1] is contained in the one at [alpha2]. *)
Theorem simes_selection_monotone_in_alpha X y randomizer draw :
  length draw = ncols X ->
  incl (active_indices (simes_selection X y alpha1 randomizer draw))
       (active_indices (simes_selection X y alpha2 randomizer draw)) /\
  (simes_selection X y alpha2 randomizer draw = Ok None ->
   simes_selection X y alpha1 randomizer draw = Ok None) /\
  (forall s1,
     simes_selection X y alpha1 randomizer draw = Ok (Some s1) ->
     exists s2,
       simes_selection X y alpha2 randomizer draw = Ok (Some s2) /\
       i_0 s2 = i_0 s1 /\ sign_active s2 = sign_active s1 /\
       (t_0 s2 <= t_0 s1)%nat) /\
  (forall indices_order p_val_randomized sig1,
     significant indices_order p_val_randomized alpha1 = Ok sig1 ->
     exists sig2,
       significant indices_order p_val_randomized alpha2 = Ok sig2 /\
       incl sig1 sig2).
Proof.
  intros Hd.
  assert (Hraise : forall e : exn,
    incl (active_indices (Raise e)) (active_indices (Raise e)) /\
    (@Raise (option selection) e = Ok None ->
     @Raise (option selection) e = Ok None) /\
    (forall s1, @Raise (option selection) e = Ok (Some s1) ->
       exists s2, @Raise (option selection) e = Ok (Some s2) /\
         i_0 s2 = i_0 s1 /\ sign_active s2 = sign_active s1 /\
         (t_0 s2 <= t_0 s1)%nat)).
  { intros e. split; [intros i Hi; exact Hi|].
    split; [trivial | discriminate]. }
  cut (incl (active_indices (simes_selection X y alpha1 randomizer draw))
         (active_indices (simes_selection X y alpha2 randomizer draw)) /\
       (simes_selection X y alpha2 randomizer draw = Ok None ->
        simes_selection X y alpha1 randomizer draw = Ok None) /\
       (forall s1,
          simes_selection X y alpha1 randomizer draw = Ok (Some s1) ->
          exists s2,
            simes_selection X y alpha2 randomizer draw = Ok (Some s2) /\
            i_0 s2 = i_0 s1 /\ sign_active s2 = sign_active s1 /\
            (t_0 s2 <= t_0 s1)%nat)).
  { intros (H1 & H2 & H3). repeat split; try assumption.
    intros io pv sig1. apply significant_mono. }
  rewrite !simes_selection_unfold. cbv zeta.
  destruct (matvec (transpose X) y) as [XTy|e] eqn:Hm; cbn [Py.bind];
    [|apply Hraise].
  destruct (String.eqb randomizer "gaussian"); cbn [Py.bind];
    [|apply Hraise].
  assert (LX : length XTy = ncols X).
  { unfold matvec in Hm. destruct (Nat.eqb _ _); [|discriminate].
    inversion Hm. now rewrite length_map, length_seq. }
  rewrite (broadcast2_same Qplus) by
    (unfold smul; rewrite !length_map; congruence).
  cbn [Py.bind].
  set (T_stats := map (fun t => t / 1) XTy).
  set (rT := map2 Qplus T_stats (smul 1 draw)).
  assert (LrT : length rT = ncols X).
  { unfold rT, T_stats, smul. rewrite map2_length, !length_map. lia. }
  set (pv := sort (two_sided rT)).
  assert (Lpv : length pv = ncols X).
  { unfold pv, two_sided. now rewrite sort_length, length_map. }
  destruct (mul (simes_weights (ncols X)) pv) as [weighted|e];
    cbn [Py.bind]; [|apply Hraise].
  destruct (min weighted) as [sp|e]; cbn [Py.bind]; [|apply Hraise].
  destruct (le sp (alpha1 / 2)) eqn:E1.
  - assert (E2 : le sp (alpha2 / 2) = true).
    { apply le_iff. apply le_iff in E1.
      apply (Qle_trans _ _ _ E1). apply half_mono. }
    rewrite E2.
    destruct (rejected_branch T_stats pv (argsort (two_sided rT))
                (ncols X) alpha1) as [[s1|]|e] eqn:Hb1.
    + destruct (@rejected_branch_mono T_stats pv
                  (argsort (two_sided rT)) (ncols X) s1
                  (SortFacts.sort_sorted _) Lpv Hb1)
        as (s2 & Hb2 & Hi & Hsg & Ht).
      rewrite Hb2. cbn [active_indices]. rewrite Hi.
      split; [intros i H; exact H|]. split; [discriminate|].
      intros s1' Hs1'. inversion Hs1'; subst s1'.
      exists s2. repeat split; assumption.
    + exfalso. eapply rejected_branch_some; eassumption.
    + cbn [active_indices]. split; [intros i []|].
      split; [|discriminate].
      intros Hn. exfalso. eapply rejected_branch_some; eassumption.
  - cbn [active_indices]. split; [intros i []|].
    split; [reflexivity | discriminate].
Qed.

End SimesMonotone.

Section ConcreteSimes.

Import Np Instances Simes SimesFacts.

Definition simes_two (alpha : Q) : result (option selection) :=
  @simes_selection stable rational_special (identity 2) [3; 2] alpha
    "gaussian" [0; 0].

Lemma simes_selection_monotone_in_alpha_witness :
  (2 # 3) <= 1 /\
  length [0; 0] = ncols (identity 2) /\
  exists s1 s2,
    simes_two (2 # 3) = Ok (Some s1) /\
    simes_two 1 = Ok (Some s2) /\
    i_0 s2 = i_0 s1 /\ sign_active s2 = sign_active s1 /\
    (t_0 s2 <= t_0 s1)%nat /\
    incl (active_indices (simes_two (2 # 3))) (active_indices (simes_two 1)).
Proof.
  assert (Hle : (2 # 3) <= 1) by discriminate.
  assert (Hd : length [0; 0] = ncols (identity 2)) by reflexivity.
  split; [exact Hle|]. split; [exact Hd|].
  destruct (@simes_selection_monotone_in_alpha stable rational_special
              (2 # 3) 1 Hle (identity 2) [3; 2] "gaussian" [0; 0] Hd)
    as (Hincl & _ & Hsel & _).
  unfold simes_two.
  destruct (@simes_selection stable rational_special (identity 2) [3; 2]
              (2 # 3) "gaussian" [0; 0]) as [[s1|]|e] eqn:H1;
    [|vm_compute in H1; discriminate..].
  destruct (Hsel s1 eq_refl) as (s2 & H2 & Hi & Hs & Ht).
  exists s1, s2. rewrite H2 in Hincl |- *.
  repeat split; assumption.
Defined.

(** The double a decimal literal denotes. *)
Definition literal (q : Q) : Q :=
  match Binary64.round q with
  | NpFloat.Fin y => Qred y
  | _ => q
  end.

(** [np.array([0.35, 0.01, 0.3])]. *)
Definition sieve_pvalues : vec :=
  [literal (35 # 100); literal (1 # 100); literal (3 # 10)].

Lemma BH_q_returns_ranks_below_last_pass_witness :
  Forall (fun q => Binary64.is_double q = true) sieve_pvalues /\
  exists k sig_sorted sig_pvalues,
    @BH_q stable sieve_pvalues 1 = Ok (Some (sig_sorted, sig_pvalues)) /\
    (k < 3)%nat /\
    sig_sorted = firstn k (sort sieve_pvalues) /\
    sig_pvalues = firstn k (@argsort stable sieve_pvalues) /\
    length sig_sorted = k /\ length sig_pvalues = k.
Proof.
  assert (Hd : Forall (fun q => Binary64.is_double q = true) sieve_pvalues)
    by (repeat constructor; vm_compute; reflexivity).
  split; [exact Hd|].
  pose proof (@BH_q_returns_ranks_below_last_pass stable sieve_pvalues 1 Hd)
    as H.
  cbv zeta in H.
  destruct (@BH_q stable sieve_pvalues 1) as [[[ss sp]|]|e] eqn:E;
    [|vm_compute in E; discriminate|contradiction].
  destruct H as (k & Hk & _ & _ & H1 & H2 & H3 & H4 & _).
  exists k, ss, sp. repeat split; assumption.
Defined.

(** The bound is the rounded one.  At level [0.7] the largest of
    [0.01, 0.3, 0.35] meets the exact quotient [0.7 * 3 / 6], but the doubles
    give [0.7 * 3. = 2.0999999999999996] and [0.3499999999999999] for the
    bound: rank 2 fails, rank 0 is the last to pass and the arrays are
    empty; with [0.2] in place of [0.01] no rank passes. *)
Example BH_q_bound_is_rounded :
  @BH_q stable sieve_pvalues (literal (7 # 10)) = Ok (Some ([], [])) /\
  @BH_q stable [literal (2 # 10); literal (3 # 10); literal (35 # 100)]
    (literal (7 # 10)) = Ok None /\
  nth 2 (sort sieve_pvalues) 0 == literal (7 # 10) * 3 / 6.
Proof. split; [|split]; vm_compute; reflexivity. Qed.

End ConcreteSimes.
